(** * Solver context of the constrained DDP library (cddp_core.cpp)

    A shallow embedding of the class [CDDP] of [src/cddp_core/cddp_core.cpp]:
    the problem data it owns, its setters, the constraint store, the
    regularization controller, the step-size ladder, the plug-in solver
    registry and the entry point [solve].

    Conventions of the embedding.
    - A C++ [double] is an exact rational ([Q]); rounding, NaN, overflow and
      division by zero are outside the model.  The five members that the
      initialization sets to [numeric_limits<double>::infinity()] have type
      [edouble], a rational or plus infinity.
    - A C++ [int] is a [Z]; [static_cast<size_t>] of an [int] is written out
      as reduction modulo 2^64.
    - [Eigen::VectorXd] is a list of rationals, [std::vector] a list,
      [std::map<std::string, T>] a [gmap string T], a [std::unique_ptr] an
      [option] (the null pointer is [None]).
    - A member function is a function from the object before the call to an
      [outcome]: the returned value with the object after the call, or the
      exception thrown with the object at the throw, or undefined behaviour.
      Lines written to [std::cout] and [std::cerr] are collected in the
      outcome.
    - The context record holds the members that cddp_core.cpp reads or
      writes; the banner and option printers, which only write to the
      console, are left out. *)

From Stdlib Require Import ZArith QArith Qabs Qpower Qminmax Qround Lqa Lia List Bool Sorted.
From stdpp Require Import gmap strings list fin_maps sorting.
Import ListNotations.

Local Open Scope Z_scope.

(** ** Scalars and vectors *)

Definition VectorXd := list Q.

(** [Eigen::VectorXd::Zero(n)] *)
Definition Zero (n : Z) : VectorXd := repeat 0%Q (Z.to_nat n).

(** [a < b] on doubles *)
Definition Qltb (a b : Q) : bool := negb (Qle_bool b a).

(** [std::min(a, b)]: [(b < a) ? b : a] *)
Definition std_min (a b : Q) : Q := if Qltb b a then b else a.

(** [std::max(a, b)]: [(a < b) ? b : a] *)
Definition std_max (a b : Q) : Q := if Qltb a b then b else a.

(** A double that may hold plus infinity. *)
Inductive edouble := Fin (q : Q) | PInf.

(** [x <= t] for a finite [t] *)
Definition edouble_leb (x : edouble) (t : Q) : bool :=
  match x with
  | Fin q => Qle_bool q t
  | PInf => false
  end.

(** [Eigen]'s [isZero()] with the default precision of [double], 1e-12. *)
Definition dummy_precision : Q := 1 # 1000000000000.
Definition isZero (v : VectorXd) : bool :=
  forallb (fun x => Qle_bool (Qabs x) dummy_precision) v.

(** [static_cast<size_t>(n)] for an [int] n, on a 64-bit target. *)
Definition size_t_of_int (n : Z) : Z := n mod 2 ^ 64.

(** ** Collaborators: only what the solver context touches *)

Record DynamicalSystem := {
  sys_state_dim : Z;
  sys_control_dim : Z
}.

Record Objective := {
  obj_reference_state : VectorXd;
  obj_reference_states : list VectorXd
}.

Definition Objective_setReferenceState (r : VectorXd) (o : Objective) : Objective :=
  {| obj_reference_state := r; obj_reference_states := obj_reference_states o |}.

Definition Objective_setReferenceStates (rs : list VectorXd) (o : Objective) : Objective :=
  {| obj_reference_state := obj_reference_state o; obj_reference_states := rs |}.

Record Constraint := {
  getDualDim : Z;
  getUpperBound : VectorXd
}.

(** ** Options ([options.hpp]: the fields read by cddp_core.cpp) *)

Record LineSearchOptions := {
  ls_max_iterations : Z;
  initial_step_size : Q;
  min_step_size : Q;
  step_reduction_factor : Q
}.

Record RegularizationOptions := {
  initial_value : Q;
  update_factor : Q;
  max_value : Q;
  min_value : Q
}.

Record CDDPOptions := {
  tolerance : Q;
  verbose : bool;
  warm_start : bool;
  line_search : LineSearchOptions;
  regularization : RegularizationOptions
}.

(** ** Solver strategies and solutions *)

(** The strategy objects behind [std::unique_ptr<ISolverAlgorithm>]: the six
    built-in classes, and a plug-in class named by the caller. *)
Inductive ISolverAlgorithm :=
  | CLDDPSolver | ASDDPSolver | LogDDPSolver | IPDDPSolver
  | MSIPDDPSolver | AlddpSolver
  | ExternalSolver (class_name : string).

Inductive SolverType :=
  | CLDDP | ASDDP | LogDDP | IPDDP | MSIPDDP | ALDDP.

(** The values stored in a [CDDPSolution] ([std::map<std::string, std::any>]). *)
Inductive any :=
  | any_string (s : string)
  | any_int (n : Z)
  | any_double (d : Q)
  | any_vector_double (v : list Q)
  | any_vector_VectorXd (v : list VectorXd).

Abbreviation CDDPSolution := (gmap string any).

(** A registered factory: called with no argument, it yields a strategy
    object or the null pointer. *)
Abbreviation SolverFactory := (unit -> option ISolverAlgorithm).

(** [CDDP::external_solver_registry_], a static member: process-wide state,
    passed explicitly. *)
Abbreviation Registry := (gmap string SolverFactory).

(** ** The solver context *)

Record CDDP := mkCDDP {
  initial_state_ : VectorXd;
  reference_state_ : VectorXd;
  reference_states_ : list VectorXd;
  horizon_ : Z;
  timestep_ : Q;
  system_ : option DynamicalSystem;
  objective_ : option Objective;
  options_ : CDDPOptions;
  initialized_ : bool;
  cost_ : edouble;
  merit_function_ : edouble;
  inf_pr_ : edouble;
  inf_du_ : edouble;
  inf_comp_ : edouble;
  alpha_pr_ : Q;
  alpha_du_ : Q;
  regularization_ : Q;
  terminal_regularization_ : Q;
  total_dual_dim_ : Z;
  alphas_ : list Q;
  X_ : list VectorXd;
  U_ : list VectorXd;
  path_constraint_set_ : gmap string Constraint;
  terminal_constraint_set_ : gmap string Constraint;
  solver_ : option ISolverAlgorithm
}.

Definition set_initial_state_ (v : VectorXd) (s : CDDP) : CDDP :=
  {| initial_state_ := v; reference_state_ := reference_state_ s;
     reference_states_ := reference_states_ s; horizon_ := horizon_ s;
     timestep_ := timestep_ s; system_ := system_ s; objective_ := objective_
     s; options_ := options_ s; initialized_ := initialized_ s; cost_ := cost_
     s; merit_function_ := merit_function_ s; inf_pr_ := inf_pr_ s; inf_du_ :=
     inf_du_ s; inf_comp_ := inf_comp_ s; alpha_pr_ := alpha_pr_ s; alpha_du_
     := alpha_du_ s; regularization_ := regularization_ s;
     terminal_regularization_ := terminal_regularization_ s; total_dual_dim_
     := total_dual_dim_ s; alphas_ := alphas_ s; X_ := X_ s; U_ := U_ s;
     path_constraint_set_ := path_constraint_set_ s; terminal_constraint_set_
     := terminal_constraint_set_ s; solver_ := solver_ s |}.

Definition set_reference_state_ (v : VectorXd) (s : CDDP) : CDDP :=
  {| initial_state_ := initial_state_ s; reference_state_ := v;
     reference_states_ := reference_states_ s; horizon_ := horizon_ s;
     timestep_ := timestep_ s; system_ := system_ s; objective_ := objective_
     s; options_ := options_ s; initialized_ := initialized_ s; cost_ := cost_
     s; merit_function_ := merit_function_ s; inf_pr_ := inf_pr_ s; inf_du_ :=
     inf_du_ s; inf_comp_ := inf_comp_ s; alpha_pr_ := alpha_pr_ s; alpha_du_
     := alpha_du_ s; regularization_ := regularization_ s;
     terminal_regularization_ := terminal_regularization_ s; total_dual_dim_
     := total_dual_dim_ s; alphas_ := alphas_ s; X_ := X_ s; U_ := U_ s;
     path_constraint_set_ := path_constraint_set_ s; terminal_constraint_set_
     := terminal_constraint_set_ s; solver_ := solver_ s |}.

Definition set_reference_states_ (v : list VectorXd) (s : CDDP) : CDDP :=
  {| initial_state_ := initial_state_ s; reference_state_ := reference_state_
     s; reference_states_ := v; horizon_ := horizon_ s; timestep_ := timestep_
     s; system_ := system_ s; objective_ := objective_ s; options_ := options_
     s; initialized_ := initialized_ s; cost_ := cost_ s; merit_function_ :=
     merit_function_ s; inf_pr_ := inf_pr_ s; inf_du_ := inf_du_ s; inf_comp_
     := inf_comp_ s; alpha_pr_ := alpha_pr_ s; alpha_du_ := alpha_du_ s;
     regularization_ := regularization_ s; terminal_regularization_ :=
     terminal_regularization_ s; total_dual_dim_ := total_dual_dim_ s; alphas_
     := alphas_ s; X_ := X_ s; U_ := U_ s; path_constraint_set_ :=
     path_constraint_set_ s; terminal_constraint_set_ :=
     terminal_constraint_set_ s; solver_ := solver_ s |}.

Definition set_horizon_ (v : Z) (s : CDDP) : CDDP :=
  {| initial_state_ := initial_state_ s; reference_state_ := reference_state_
     s; reference_states_ := reference_states_ s; horizon_ := v; timestep_ :=
     timestep_ s; system_ := system_ s; objective_ := objective_ s; options_
     := options_ s; initialized_ := initialized_ s; cost_ := cost_ s;
     merit_function_ := merit_function_ s; inf_pr_ := inf_pr_ s; inf_du_ :=
     inf_du_ s; inf_comp_ := inf_comp_ s; alpha_pr_ := alpha_pr_ s; alpha_du_
     := alpha_du_ s; regularization_ := regularization_ s;
     terminal_regularization_ := terminal_regularization_ s; total_dual_dim_
     := total_dual_dim_ s; alphas_ := alphas_ s; X_ := X_ s; U_ := U_ s;
     path_constraint_set_ := path_constraint_set_ s; terminal_constraint_set_
     := terminal_constraint_set_ s; solver_ := solver_ s |}.

Definition set_timestep_ (v : Q) (s : CDDP) : CDDP :=
  {| initial_state_ := initial_state_ s; reference_state_ := reference_state_
     s; reference_states_ := reference_states_ s; horizon_ := horizon_ s;
     timestep_ := v; system_ := system_ s; objective_ := objective_ s;
     options_ := options_ s; initialized_ := initialized_ s; cost_ := cost_ s;
     merit_function_ := merit_function_ s; inf_pr_ := inf_pr_ s; inf_du_ :=
     inf_du_ s; inf_comp_ := inf_comp_ s; alpha_pr_ := alpha_pr_ s; alpha_du_
     := alpha_du_ s; regularization_ := regularization_ s;
     terminal_regularization_ := terminal_regularization_ s; total_dual_dim_
     := total_dual_dim_ s; alphas_ := alphas_ s; X_ := X_ s; U_ := U_ s;
     path_constraint_set_ := path_constraint_set_ s; terminal_constraint_set_
     := terminal_constraint_set_ s; solver_ := solver_ s |}.

Definition set_system_ (v : option DynamicalSystem) (s : CDDP) : CDDP :=
  {| initial_state_ := initial_state_ s; reference_state_ := reference_state_
     s; reference_states_ := reference_states_ s; horizon_ := horizon_ s;
     timestep_ := timestep_ s; system_ := v; objective_ := objective_ s;
     options_ := options_ s; initialized_ := initialized_ s; cost_ := cost_ s;
     merit_function_ := merit_function_ s; inf_pr_ := inf_pr_ s; inf_du_ :=
     inf_du_ s; inf_comp_ := inf_comp_ s; alpha_pr_ := alpha_pr_ s; alpha_du_
     := alpha_du_ s; regularization_ := regularization_ s;
     terminal_regularization_ := terminal_regularization_ s; total_dual_dim_
     := total_dual_dim_ s; alphas_ := alphas_ s; X_ := X_ s; U_ := U_ s;
     path_constraint_set_ := path_constraint_set_ s; terminal_constraint_set_
     := terminal_constraint_set_ s; solver_ := solver_ s |}.

Definition set_objective_ (v : option Objective) (s : CDDP) : CDDP :=
  {| initial_state_ := initial_state_ s; reference_state_ := reference_state_
     s; reference_states_ := reference_states_ s; horizon_ := horizon_ s;
     timestep_ := timestep_ s; system_ := system_ s; objective_ := v; options_
     := options_ s; initialized_ := initialized_ s; cost_ := cost_ s;
     merit_function_ := merit_function_ s; inf_pr_ := inf_pr_ s; inf_du_ :=
     inf_du_ s; inf_comp_ := inf_comp_ s; alpha_pr_ := alpha_pr_ s; alpha_du_
     := alpha_du_ s; regularization_ := regularization_ s;
     terminal_regularization_ := terminal_regularization_ s; total_dual_dim_
     := total_dual_dim_ s; alphas_ := alphas_ s; X_ := X_ s; U_ := U_ s;
     path_constraint_set_ := path_constraint_set_ s; terminal_constraint_set_
     := terminal_constraint_set_ s; solver_ := solver_ s |}.

Definition set_options_ (v : CDDPOptions) (s : CDDP) : CDDP :=
  {| initial_state_ := initial_state_ s; reference_state_ := reference_state_
     s; reference_states_ := reference_states_ s; horizon_ := horizon_ s;
     timestep_ := timestep_ s; system_ := system_ s; objective_ := objective_
     s; options_ := v; initialized_ := initialized_ s; cost_ := cost_ s;
     merit_function_ := merit_function_ s; inf_pr_ := inf_pr_ s; inf_du_ :=
     inf_du_ s; inf_comp_ := inf_comp_ s; alpha_pr_ := alpha_pr_ s; alpha_du_
     := alpha_du_ s; regularization_ := regularization_ s;
     terminal_regularization_ := terminal_regularization_ s; total_dual_dim_
     := total_dual_dim_ s; alphas_ := alphas_ s; X_ := X_ s; U_ := U_ s;
     path_constraint_set_ := path_constraint_set_ s; terminal_constraint_set_
     := terminal_constraint_set_ s; solver_ := solver_ s |}.

Definition set_initialized_ (v : bool) (s : CDDP) : CDDP :=
  {| initial_state_ := initial_state_ s; reference_state_ := reference_state_
     s; reference_states_ := reference_states_ s; horizon_ := horizon_ s;
     timestep_ := timestep_ s; system_ := system_ s; objective_ := objective_
     s; options_ := options_ s; initialized_ := v; cost_ := cost_ s;
     merit_function_ := merit_function_ s; inf_pr_ := inf_pr_ s; inf_du_ :=
     inf_du_ s; inf_comp_ := inf_comp_ s; alpha_pr_ := alpha_pr_ s; alpha_du_
     := alpha_du_ s; regularization_ := regularization_ s;
     terminal_regularization_ := terminal_regularization_ s; total_dual_dim_
     := total_dual_dim_ s; alphas_ := alphas_ s; X_ := X_ s; U_ := U_ s;
     path_constraint_set_ := path_constraint_set_ s; terminal_constraint_set_
     := terminal_constraint_set_ s; solver_ := solver_ s |}.

Definition set_cost_ (v : edouble) (s : CDDP) : CDDP :=
  {| initial_state_ := initial_state_ s; reference_state_ := reference_state_
     s; reference_states_ := reference_states_ s; horizon_ := horizon_ s;
     timestep_ := timestep_ s; system_ := system_ s; objective_ := objective_
     s; options_ := options_ s; initialized_ := initialized_ s; cost_ := v;
     merit_function_ := merit_function_ s; inf_pr_ := inf_pr_ s; inf_du_ :=
     inf_du_ s; inf_comp_ := inf_comp_ s; alpha_pr_ := alpha_pr_ s; alpha_du_
     := alpha_du_ s; regularization_ := regularization_ s;
     terminal_regularization_ := terminal_regularization_ s; total_dual_dim_
     := total_dual_dim_ s; alphas_ := alphas_ s; X_ := X_ s; U_ := U_ s;
     path_constraint_set_ := path_constraint_set_ s; terminal_constraint_set_
     := terminal_constraint_set_ s; solver_ := solver_ s |}.

Definition set_merit_function_ (v : edouble) (s : CDDP) : CDDP :=
  {| initial_state_ := initial_state_ s; reference_state_ := reference_state_
     s; reference_states_ := reference_states_ s; horizon_ := horizon_ s;
     timestep_ := timestep_ s; system_ := system_ s; objective_ := objective_
     s; options_ := options_ s; initialized_ := initialized_ s; cost_ := cost_
     s; merit_function_ := v; inf_pr_ := inf_pr_ s; inf_du_ := inf_du_ s;
     inf_comp_ := inf_comp_ s; alpha_pr_ := alpha_pr_ s; alpha_du_ :=
     alpha_du_ s; regularization_ := regularization_ s;
     terminal_regularization_ := terminal_regularization_ s; total_dual_dim_
     := total_dual_dim_ s; alphas_ := alphas_ s; X_ := X_ s; U_ := U_ s;
     path_constraint_set_ := path_constraint_set_ s; terminal_constraint_set_
     := terminal_constraint_set_ s; solver_ := solver_ s |}.

Definition set_inf_pr_ (v : edouble) (s : CDDP) : CDDP :=
  {| initial_state_ := initial_state_ s; reference_state_ := reference_state_
     s; reference_states_ := reference_states_ s; horizon_ := horizon_ s;
     timestep_ := timestep_ s; system_ := system_ s; objective_ := objective_
     s; options_ := options_ s; initialized_ := initialized_ s; cost_ := cost_
     s; merit_function_ := merit_function_ s; inf_pr_ := v; inf_du_ := inf_du_
     s; inf_comp_ := inf_comp_ s; alpha_pr_ := alpha_pr_ s; alpha_du_ :=
     alpha_du_ s; regularization_ := regularization_ s;
     terminal_regularization_ := terminal_regularization_ s; total_dual_dim_
     := total_dual_dim_ s; alphas_ := alphas_ s; X_ := X_ s; U_ := U_ s;
     path_constraint_set_ := path_constraint_set_ s; terminal_constraint_set_
     := terminal_constraint_set_ s; solver_ := solver_ s |}.

Definition set_inf_du_ (v : edouble) (s : CDDP) : CDDP :=
  {| initial_state_ := initial_state_ s; reference_state_ := reference_state_
     s; reference_states_ := reference_states_ s; horizon_ := horizon_ s;
     timestep_ := timestep_ s; system_ := system_ s; objective_ := objective_
     s; options_ := options_ s; initialized_ := initialized_ s; cost_ := cost_
     s; merit_function_ := merit_function_ s; inf_pr_ := inf_pr_ s; inf_du_ :=
     v; inf_comp_ := inf_comp_ s; alpha_pr_ := alpha_pr_ s; alpha_du_ :=
     alpha_du_ s; regularization_ := regularization_ s;
     terminal_regularization_ := terminal_regularization_ s; total_dual_dim_
     := total_dual_dim_ s; alphas_ := alphas_ s; X_ := X_ s; U_ := U_ s;
     path_constraint_set_ := path_constraint_set_ s; terminal_constraint_set_
     := terminal_constraint_set_ s; solver_ := solver_ s |}.

Definition set_inf_comp_ (v : edouble) (s : CDDP) : CDDP :=
  {| initial_state_ := initial_state_ s; reference_state_ := reference_state_
     s; reference_states_ := reference_states_ s; horizon_ := horizon_ s;
     timestep_ := timestep_ s; system_ := system_ s; objective_ := objective_
     s; options_ := options_ s; initialized_ := initialized_ s; cost_ := cost_
     s; merit_function_ := merit_function_ s; inf_pr_ := inf_pr_ s; inf_du_ :=
     inf_du_ s; inf_comp_ := v; alpha_pr_ := alpha_pr_ s; alpha_du_ :=
     alpha_du_ s; regularization_ := regularization_ s;
     terminal_regularization_ := terminal_regularization_ s; total_dual_dim_
     := total_dual_dim_ s; alphas_ := alphas_ s; X_ := X_ s; U_ := U_ s;
     path_constraint_set_ := path_constraint_set_ s; terminal_constraint_set_
     := terminal_constraint_set_ s; solver_ := solver_ s |}.

Definition set_alpha_pr_ (v : Q) (s : CDDP) : CDDP :=
  {| initial_state_ := initial_state_ s; reference_state_ := reference_state_
     s; reference_states_ := reference_states_ s; horizon_ := horizon_ s;
     timestep_ := timestep_ s; system_ := system_ s; objective_ := objective_
     s; options_ := options_ s; initialized_ := initialized_ s; cost_ := cost_
     s; merit_function_ := merit_function_ s; inf_pr_ := inf_pr_ s; inf_du_ :=
     inf_du_ s; inf_comp_ := inf_comp_ s; alpha_pr_ := v; alpha_du_ :=
     alpha_du_ s; regularization_ := regularization_ s;
     terminal_regularization_ := terminal_regularization_ s; total_dual_dim_
     := total_dual_dim_ s; alphas_ := alphas_ s; X_ := X_ s; U_ := U_ s;
     path_constraint_set_ := path_constraint_set_ s; terminal_constraint_set_
     := terminal_constraint_set_ s; solver_ := solver_ s |}.

Definition set_regularization_ (v : Q) (s : CDDP) : CDDP :=
  {| initial_state_ := initial_state_ s; reference_state_ := reference_state_
     s; reference_states_ := reference_states_ s; horizon_ := horizon_ s;
     timestep_ := timestep_ s; system_ := system_ s; objective_ := objective_
     s; options_ := options_ s; initialized_ := initialized_ s; cost_ := cost_
     s; merit_function_ := merit_function_ s; inf_pr_ := inf_pr_ s; inf_du_ :=
     inf_du_ s; inf_comp_ := inf_comp_ s; alpha_pr_ := alpha_pr_ s; alpha_du_
     := alpha_du_ s; regularization_ := v; terminal_regularization_ :=
     terminal_regularization_ s; total_dual_dim_ := total_dual_dim_ s; alphas_
     := alphas_ s; X_ := X_ s; U_ := U_ s; path_constraint_set_ :=
     path_constraint_set_ s; terminal_constraint_set_ :=
     terminal_constraint_set_ s; solver_ := solver_ s |}.

Definition set_terminal_regularization_ (v : Q) (s : CDDP) : CDDP :=
  {| initial_state_ := initial_state_ s; reference_state_ := reference_state_
     s; reference_states_ := reference_states_ s; horizon_ := horizon_ s;
     timestep_ := timestep_ s; system_ := system_ s; objective_ := objective_
     s; options_ := options_ s; initialized_ := initialized_ s; cost_ := cost_
     s; merit_function_ := merit_function_ s; inf_pr_ := inf_pr_ s; inf_du_ :=
     inf_du_ s; inf_comp_ := inf_comp_ s; alpha_pr_ := alpha_pr_ s; alpha_du_
     := alpha_du_ s; regularization_ := regularization_ s;
     terminal_regularization_ := v; total_dual_dim_ := total_dual_dim_ s;
     alphas_ := alphas_ s; X_ := X_ s; U_ := U_ s; path_constraint_set_ :=
     path_constraint_set_ s; terminal_constraint_set_ :=
     terminal_constraint_set_ s; solver_ := solver_ s |}.

Definition set_total_dual_dim_ (v : Z) (s : CDDP) : CDDP :=
  {| initial_state_ := initial_state_ s; reference_state_ := reference_state_
     s; reference_states_ := reference_states_ s; horizon_ := horizon_ s;
     timestep_ := timestep_ s; system_ := system_ s; objective_ := objective_
     s; options_ := options_ s; initialized_ := initialized_ s; cost_ := cost_
     s; merit_function_ := merit_function_ s; inf_pr_ := inf_pr_ s; inf_du_ :=
     inf_du_ s; inf_comp_ := inf_comp_ s; alpha_pr_ := alpha_pr_ s; alpha_du_
     := alpha_du_ s; regularization_ := regularization_ s;
     terminal_regularization_ := terminal_regularization_ s; total_dual_dim_
     := v; alphas_ := alphas_ s; X_ := X_ s; U_ := U_ s; path_constraint_set_
     := path_constraint_set_ s; terminal_constraint_set_ :=
     terminal_constraint_set_ s; solver_ := solver_ s |}.

Definition set_alphas_ (v : list Q) (s : CDDP) : CDDP :=
  {| initial_state_ := initial_state_ s; reference_state_ := reference_state_
     s; reference_states_ := reference_states_ s; horizon_ := horizon_ s;
     timestep_ := timestep_ s; system_ := system_ s; objective_ := objective_
     s; options_ := options_ s; initialized_ := initialized_ s; cost_ := cost_
     s; merit_function_ := merit_function_ s; inf_pr_ := inf_pr_ s; inf_du_ :=
     inf_du_ s; inf_comp_ := inf_comp_ s; alpha_pr_ := alpha_pr_ s; alpha_du_
     := alpha_du_ s; regularization_ := regularization_ s;
     terminal_regularization_ := terminal_regularization_ s; total_dual_dim_
     := total_dual_dim_ s; alphas_ := v; X_ := X_ s; U_ := U_ s;
     path_constraint_set_ := path_constraint_set_ s; terminal_constraint_set_
     := terminal_constraint_set_ s; solver_ := solver_ s |}.

Definition set_X_ (v : list VectorXd) (s : CDDP) : CDDP :=
  {| initial_state_ := initial_state_ s; reference_state_ := reference_state_
     s; reference_states_ := reference_states_ s; horizon_ := horizon_ s;
     timestep_ := timestep_ s; system_ := system_ s; objective_ := objective_
     s; options_ := options_ s; initialized_ := initialized_ s; cost_ := cost_
     s; merit_function_ := merit_function_ s; inf_pr_ := inf_pr_ s; inf_du_ :=
     inf_du_ s; inf_comp_ := inf_comp_ s; alpha_pr_ := alpha_pr_ s; alpha_du_
     := alpha_du_ s; regularization_ := regularization_ s;
     terminal_regularization_ := terminal_regularization_ s; total_dual_dim_
     := total_dual_dim_ s; alphas_ := alphas_ s; X_ := v; U_ := U_ s;
     path_constraint_set_ := path_constraint_set_ s; terminal_constraint_set_
     := terminal_constraint_set_ s; solver_ := solver_ s |}.

Definition set_U_ (v : list VectorXd) (s : CDDP) : CDDP :=
  {| initial_state_ := initial_state_ s; reference_state_ := reference_state_
     s; reference_states_ := reference_states_ s; horizon_ := horizon_ s;
     timestep_ := timestep_ s; system_ := system_ s; objective_ := objective_
     s; options_ := options_ s; initialized_ := initialized_ s; cost_ := cost_
     s; merit_function_ := merit_function_ s; inf_pr_ := inf_pr_ s; inf_du_ :=
     inf_du_ s; inf_comp_ := inf_comp_ s; alpha_pr_ := alpha_pr_ s; alpha_du_
     := alpha_du_ s; regularization_ := regularization_ s;
     terminal_regularization_ := terminal_regularization_ s; total_dual_dim_
     := total_dual_dim_ s; alphas_ := alphas_ s; X_ := X_ s; U_ := v;
     path_constraint_set_ := path_constraint_set_ s; terminal_constraint_set_
     := terminal_constraint_set_ s; solver_ := solver_ s |}.

Definition set_path_constraint_set_ (v : gmap string Constraint) (s : CDDP) : CDDP :=
  {| initial_state_ := initial_state_ s; reference_state_ := reference_state_
     s; reference_states_ := reference_states_ s; horizon_ := horizon_ s;
     timestep_ := timestep_ s; system_ := system_ s; objective_ := objective_
     s; options_ := options_ s; initialized_ := initialized_ s; cost_ := cost_
     s; merit_function_ := merit_function_ s; inf_pr_ := inf_pr_ s; inf_du_ :=
     inf_du_ s; inf_comp_ := inf_comp_ s; alpha_pr_ := alpha_pr_ s; alpha_du_
     := alpha_du_ s; regularization_ := regularization_ s;
     terminal_regularization_ := terminal_regularization_ s; total_dual_dim_
     := total_dual_dim_ s; alphas_ := alphas_ s; X_ := X_ s; U_ := U_ s;
     path_constraint_set_ := v; terminal_constraint_set_ :=
     terminal_constraint_set_ s; solver_ := solver_ s |}.

Definition set_terminal_constraint_set_ (v : gmap string Constraint) (s : CDDP) : CDDP :=
  {| initial_state_ := initial_state_ s; reference_state_ := reference_state_
     s; reference_states_ := reference_states_ s; horizon_ := horizon_ s;
     timestep_ := timestep_ s; system_ := system_ s; objective_ := objective_
     s; options_ := options_ s; initialized_ := initialized_ s; cost_ := cost_
     s; merit_function_ := merit_function_ s; inf_pr_ := inf_pr_ s; inf_du_ :=
     inf_du_ s; inf_comp_ := inf_comp_ s; alpha_pr_ := alpha_pr_ s; alpha_du_
     := alpha_du_ s; regularization_ := regularization_ s;
     terminal_regularization_ := terminal_regularization_ s; total_dual_dim_
     := total_dual_dim_ s; alphas_ := alphas_ s; X_ := X_ s; U_ := U_ s;
     path_constraint_set_ := path_constraint_set_ s; terminal_constraint_set_
     := v; solver_ := solver_ s |}.

Definition set_solver_ (v : option ISolverAlgorithm) (s : CDDP) : CDDP :=
  {| initial_state_ := initial_state_ s; reference_state_ := reference_state_
     s; reference_states_ := reference_states_ s; horizon_ := horizon_ s;
     timestep_ := timestep_ s; system_ := system_ s; objective_ := objective_
     s; options_ := options_ s; initialized_ := initialized_ s; cost_ := cost_
     s; merit_function_ := merit_function_ s; inf_pr_ := inf_pr_ s; inf_du_ :=
     inf_du_ s; inf_comp_ := inf_comp_ s; alpha_pr_ := alpha_pr_ s; alpha_du_
     := alpha_du_ s; regularization_ := regularization_ s;
     terminal_regularization_ := terminal_regularization_ s; total_dual_dim_
     := total_dual_dim_ s; alphas_ := alphas_ s; X_ := X_ s; U_ := U_ s;
     path_constraint_set_ := path_constraint_set_ s; terminal_constraint_set_
     := terminal_constraint_set_ s; solver_ := v |}.
(** ** Outcomes of member functions *)

Inductive exn :=
  | runtime_error (what : string)
  | length_error.

Inductive stream := cout | cerr.

Definition console := list (stream * string).

Inductive outcome (A : Type) :=
  | Returns (a : A) (s : CDDP) (out : console)
  | Throws (e : exn) (s : CDDP) (out : console)
  | Undefined.

Arguments Returns {A} a s out.
Arguments Throws {A} e s out.
Arguments Undefined {A}.

Definition M (A : Type) := CDDP -> outcome A.

(** What was printed before [o] is put in front of what [o] prints. *)
Definition after_output {A} (pre : console) (o : outcome A) : outcome A :=
  match o with
  | Returns a s out => Returns a s (pre ++ out)
  | Throws e s out => Throws e s (pre ++ out)
  | Undefined => Undefined
  end.

Definition ret {A} (a : A) : M A := fun s => Returns a s [].

Definition bind {A B} (m : M A) (k : A -> M B) : M B := fun s =>
  match m s with
  | Returns a s' out => after_output out (k a s')
  | Throws e s' out => Throws e s' out
  | Undefined => Undefined
  end.

Definition throw {A} (e : exn) : M A := fun s => Throws e s [].
Definition undefined {A} : M A := fun _ => Undefined.
Definition modify (f : CDDP -> CDDP) : M unit := fun s => Returns tt (f s) [].
Definition gets {A} (f : CDDP -> A) : M A := fun s => Returns (f s) s [].
Definition print (st : stream) (line : string) : M unit :=
  fun s => Returns tt s [(st, line)].
Definition when (b : bool) (m : M unit) : M unit := if b then m else ret tt.

Declare Scope cddp_scope.
Delimit Scope cddp_scope with cddp.
Notation "x <- c1 ;; c2" := (bind c1 (fun x => c2))
  (at level 100, c1 at next level, right associativity) : cddp_scope.
Notation "c1 ;;; c2" := (bind c1 (fun _ => c2))
  (at level 100, right associativity) : cddp_scope.
Local Open Scope cddp_scope.

(** ** Vectors as [std::vector] *)

(** [v.resize(n)] with an [int] n: the argument is converted to [size_t], so
    a negative n asks for more than [max_size()] elements and
    [std::length_error] is thrown ([None]); otherwise the vector is cut or
    padded with value-initialized elements [d]. *)
Definition vector_resize {A} (n : Z) (d : A) (v : list A) : option (list A) :=
  if n <? 0 then None
  else Some (firstn (Z.to_nat n) v ++ repeat d (Z.to_nat n - length v)%nat).

(** [for (...; ++k) v[k] = x], [n] iterations starting at index [k].  The
    loops of the source only write inside the vector. *)
Fixpoint fill_loop {A} (n k : nat) (x : A) (v : list A) : list A :=
  match n with
  | O => v
  | S n' => fill_loop n' (S k) x (<[k := x]> v)
  end.

(** ** Step-size ladder (constructor and [setOptions]) *)

(** The [for] loop over [i], with [fuel] iterations left. *)
Fixpoint alpha_loop (ls : LineSearchOptions) (fuel : nat) (i : Z)
    (current_alpha : Q) : list Q :=
  match fuel with
  | O => []
  | S fuel' =>
    let next_alpha := (current_alpha * step_reduction_factor ls)%Q in
    current_alpha ::
      (if Qltb next_alpha (min_step_size ls) && (i <? ls_max_iterations ls - 1)
       then [min_step_size ls]
       else alpha_loop ls fuel' (i + 1) next_alpha)
  end.

Definition build_alphas (ls : LineSearchOptions) : list Q :=
  match alpha_loop ls (Z.to_nat (ls_max_iterations ls)) 0 (initial_step_size ls) with
  | [] => [initial_step_size ls]
  | l => l
  end.

(** ** Constructor *)

Definition valid_reference (reference_state : VectorXd) : bool :=
  negb (isZero reference_state) && (0 <? Z.of_nat (length reference_state)).

Definition CDDP_new (initial_state reference_state : VectorXd) (horizon : Z)
    (timestep : Q) (system : option DynamicalSystem)
    (objective : option Objective) (options : CDDPOptions) : CDDP :=
  {| initial_state_ := initial_state;
     reference_state_ := reference_state;
     reference_states_ := [];
     horizon_ := horizon;
     timestep_ := timestep;
     system_ := system;
     objective_ :=
       match objective with
       | Some o =>
         if valid_reference reference_state
         then Some (Objective_setReferenceState reference_state o)
         else Some o
       | None => None
       end;
     options_ := options;
     initialized_ := false;
     cost_ := Fin 0; merit_function_ := Fin 0;
     inf_pr_ := Fin 0; inf_du_ := Fin 0; inf_comp_ := Fin 0;
     alpha_pr_ := initial_step_size (line_search options);
     alpha_du_ := 0;
     regularization_ := initial_value (regularization options);
     terminal_regularization_ := initial_value (regularization options);
     total_dual_dim_ := 0;
     alphas_ := build_alphas (line_search options);
     X_ := []; U_ := [];
     path_constraint_set_ := ∅;
     terminal_constraint_set_ := ∅;
     solver_ := None |}.

(** ** Setters *)

Definition setDynamicalSystem (system : option DynamicalSystem) (s : CDDP) : CDDP :=
  set_initialized_ false (set_system_ system s).

Definition setInitialState (initial_state : VectorXd) (s : CDDP) : CDDP :=
  let s1 := set_initial_state_ initial_state s in
  match X_ s1 with
  | [] => s1
  | x0 :: rest =>
    if negb (Z.of_nat (length x0) =? Z.of_nat (length initial_state)) then s1
    else set_X_ (initial_state :: rest) s1
  end.

Definition setReferenceState (reference_state : VectorXd) (s : CDDP) : CDDP :=
  let s1 := set_reference_state_ reference_state s in
  let s2 := set_objective_
              (Objective_setReferenceState reference_state <$> objective_ s1) s1 in
  set_reference_states_ [reference_state] s2.

Definition setReferenceStates (reference_states : list VectorXd) (s : CDDP) : CDDP :=
  let s1 := set_reference_states_ reference_states s in
  let s2 := set_objective_
              (Objective_setReferenceStates reference_states <$> objective_ s1) s1 in
  match reference_states with
  | [] => s2
  | r :: rest => set_reference_state_ (List.last rest r) s2
  end.

Definition setHorizon (horizon : Z) (s : CDDP) : CDDP :=
  set_initialized_ false (set_horizon_ horizon s).

Definition setTimestep (timestep : Q) (s : CDDP) : CDDP := set_timestep_ timestep s.

Definition setOptions (options : CDDPOptions) (s : CDDP) : CDDP :=
  let s1 := set_options_ options s in
  let s2 := set_alphas_ (build_alphas (line_search options)) s1 in
  set_alpha_pr_ (initial_step_size (line_search options)) s2.

Definition setObjective (objective : option Objective) (s : CDDP) : CDDP :=
  let o1 :=
    match objective with
    | Some o =>
      if valid_reference (reference_state_ s)
      then Some (Objective_setReferenceState (reference_state_ s) o)
      else Some o
    | None => None
    end in
  let o2 :=
    match o1, reference_states_ s with
    | Some o, _ :: _ => Some (Objective_setReferenceStates (reference_states_ s) o)
    | _, _ => o1
    end in
  set_objective_ o2 s.

Definition trajectory_warning : string :=
  "Warning: Provided initial trajectory dimensions do not match horizon.".

(** [X.size() != static_cast<size_t>(horizon_ + 1) ||
     U.size() != static_cast<size_t>(horizon_)] *)
Definition trajectory_mismatch (X U : list VectorXd) (s : CDDP) : bool :=
  negb (Z.of_nat (length X) =? size_t_of_int (horizon_ s + 1))
  || negb (Z.of_nat (length U) =? size_t_of_int (horizon_ s)).

Definition setInitialTrajectory (X U : list VectorXd) : M unit :=
  mismatch <- gets (trajectory_mismatch X U) ;;
  when mismatch (print cerr trajectory_warning) ;;;
  modify (set_X_ X) ;;;
  modify (set_U_ U) ;;;
  modify (fun s => match X_ s with
                   | [] => s
                   | x0 :: _ => set_initial_state_ x0 s
                   end).

Definition system_not_set : string := "Dynamical system not set.".

Definition getStateDim : M Z := fun s =>
  match system_ s with
  | None => Throws (runtime_error system_not_set) s []
  | Some sys => Returns (sys_state_dim sys) s []
  end.

Definition getControlDim : M Z := fun s =>
  match system_ s with
  | None => Throws (runtime_error system_not_set) s []
  | Some sys => Returns (sys_control_dim sys) s []
  end.

Definition getTotalDualDim (s : CDDP) : Z := total_dual_dim_ s.

(** ** Constraint store *)

Definition null_constraint : string := "Cannot add null constraint.".

Definition addPathConstraint (constraint_name : string)
    (constraint : option Constraint) : M unit :=
  match constraint with
  | None => throw (runtime_error null_constraint)
  | Some c =>
    let dual_dim := getDualDim c in
    modify (fun s => set_path_constraint_set_
                       (<[constraint_name := c]> (path_constraint_set_ s)) s) ;;;
    modify (fun s => set_total_dual_dim_ (total_dual_dim_ s + dual_dim) s) ;;;
    modify (set_initialized_ false)
  end.

Definition removePathConstraint (constraint_name : string) : M bool := fun s =>
  match path_constraint_set_ s !! constraint_name with
  | Some c =>
    let s1 := set_total_dual_dim_ (total_dual_dim_ s - getDualDim c) s in
    let s2 := set_path_constraint_set_
                (delete constraint_name (path_constraint_set_ s1)) s1 in
    Returns true (set_initialized_ false s2) []
  | None => Returns false s []
  end.

Definition addTerminalConstraint (constraint_name : string)
    (constraint : option Constraint) : M unit :=
  match constraint with
  | None => throw (runtime_error null_constraint)
  | Some c =>
    let dual_dim := getDualDim c in
    modify (fun s => set_terminal_constraint_set_
                       (<[constraint_name := c]> (terminal_constraint_set_ s)) s) ;;;
    modify (fun s => set_total_dual_dim_ (total_dual_dim_ s + dual_dim) s) ;;;
    modify (set_initialized_ false)
  end.

Definition removeTerminalConstraint (constraint_name : string) : M bool := fun s =>
  match terminal_constraint_set_ s !! constraint_name with
  | Some c =>
    let s1 := set_total_dual_dim_ (total_dual_dim_ s - getDualDim c) s in
    let s2 := set_terminal_constraint_set_
                (delete constraint_name (terminal_constraint_set_ s1)) s1 in
    Returns true (set_initialized_ false s2) []
  | None => Returns false s []
  end.

(** The sum of the dual dimensions of the constraints a store holds, as
    [IPDDPSolver::getTotalDualDim] accumulates it over the store. *)
Definition dual_dim_sum (m : gmap string Constraint) : Z :=
  map_fold (fun _ c acc => acc + getDualDim c) 0 m.

(** ** Solver selection *)

Definition solverTypeToString (solver_type : SolverType) : string :=
  match solver_type with
  | CLDDP => "CLDDP"
  | ASDDP => "ASDDP"
  | LogDDP => "LogDDP"
  | IPDDP => "IPDDP"
  | MSIPDDP => "MSIPDDP"
  | ALDDP => "ALDDP"
  end.

(** The chain of string comparisons that [createSolver] falls back to. *)
Definition builtin_solver (solver_type : string) : option ISolverAlgorithm :=
  if String.eqb solver_type "CLCDDP" || String.eqb solver_type "CLDDP"
  then Some CLDDPSolver
  else if String.eqb solver_type "ASDDP" then Some ASDDPSolver
  else if String.eqb solver_type "LogDDP" || String.eqb solver_type "LOGDDP"
  then Some LogDDPSolver
  else if String.eqb solver_type "IPDDP" then Some IPDDPSolver
  else if String.eqb solver_type "MSIPDDP" then Some MSIPDDPSolver
  else if String.eqb solver_type "ALDDP" then Some AlddpSolver
  else None.

Definition createSolver (external_solver_registry_ : gmap string SolverFactory)
    (solver_type : string) : option ISolverAlgorithm :=
  match external_solver_registry_ !! solver_type with
  | Some factory => factory tt
  | None => builtin_solver solver_type
  end.

Definition registerSolver (solver_name : string) (factory : SolverFactory)
    (external_solver_registry_ : gmap string SolverFactory)
  : gmap string SolverFactory :=
  <[solver_name := factory]> external_solver_registry_.

Definition isSolverRegistered (external_solver_registry_ : gmap string SolverFactory)
    (solver_name : string) : bool :=
  bool_decide (is_Some (external_solver_registry_ !! solver_name)).

(** The names of the built-in solvers, as [createSolver] spells them. *)
Definition builtin_names : list string :=
  ["CLCDDP"; "CLDDP"; "ASDDP"; "LogDDP"; "LOGDDP"; "IPDDP"; "MSIPDDP"; "ALDDP"].

(** ** Initialization *)

Definition system_missing : string := "Dynamical system must be set before solving.".
Definition objective_missing : string := "Objective function must be set before solving.".

Definition preserve_trajectories_of (s : CDDP) (state_dim control_dim : Z) : bool :=
  warm_start (options_ s)
  && negb (bool_decide (X_ s = [])) && negb (bool_decide (U_ s = []))
  && (Z.of_nat (length (X_ s)) =? horizon_ s + 1)
  && (Z.of_nat (length (U_ s)) =? horizon_ s)
  && match X_ s with
     | x0 :: _ => Z.of_nat (length x0) =? state_dim
     | [] => false
     end
  && match U_ s with
     | u0 :: _ => Z.of_nat (length u0) =? control_dim
     | [] => false
     end.

(** [X_.empty() || static_cast<int>(X_.size()) != horizon_ + 1] *)
Definition X_mismatch (s : CDDP) : bool :=
  bool_decide (X_ s = []) || negb (Z.of_nat (length (X_ s)) =? horizon_ s + 1).

(** [U_.empty() || static_cast<int>(U_.size()) != horizon_] *)
Definition U_mismatch (s : CDDP) : bool :=
  bool_decide (U_ s = []) || negb (Z.of_nat (length (U_ s)) =? horizon_ s).

(** The block that sizes [X_]. *)
Definition initialize_X (preserve_trajectories : bool) (state_dim : Z) : M unit := fun s =>
  if X_mismatch s
  then
    if preserve_trajectories then
      let out := if verbose (options_ s)
                 then [(cout, "CDDP: Warm start detected - preserving existing state trajectory")]
                 else [] in
      match vector_resize (horizon_ s + 1) [] (X_ s) with
      | Some X => Returns tt (set_X_ X s) out
      | None => Throws length_error s out
      end
    else
      let s1 := set_X_ [] s in
      match vector_resize (horizon_ s + 1) [] (X_ s1) with
      | Some X =>
        Returns tt
          (set_X_ (fill_loop (Z.to_nat (horizon_ s + 1)) 0 (Zero state_dim) X) s1) []
      | None => Throws length_error s1 []
      end
  else Returns tt s [].

(** [X_[0] = initial_state_]: writing to an empty vector is undefined. *)
Definition assign_X0 : M unit := fun s =>
  match X_ s with
  | [] => Undefined
  | _ :: rest => Returns tt (set_X_ (initial_state_ s :: rest) s) []
  end.

(** The block that sizes [U_]. *)
Definition initialize_U (preserve_trajectories : bool) (control_dim : Z) : M unit := fun s =>
  if U_mismatch s
  then
    if preserve_trajectories then
      let out := if verbose (options_ s)
                 then [(cout, "CDDP: Warm start detected - preserving existing control trajectory")]
                 else [] in
      match vector_resize (horizon_ s) [] (U_ s) with
      | Some U => Returns tt (set_U_ U s) out
      | None => Throws length_error s out
      end
    else
      let s1 := set_U_ [] s in
      match vector_resize (horizon_ s) [] (U_ s1) with
      | Some U =>
        Returns tt
          (set_U_ (fill_loop (Z.to_nat (horizon_ s)) 0 (Zero control_dim) U) s1) []
      | None => Throws length_error s1 []
      end
  else Returns tt s [].

Definition reset_scalars (s : CDDP) : CDDP :=
  let s1 := set_cost_ PInf s in
  let s2 := set_merit_function_ PInf s1 in
  let s3 := set_inf_pr_ PInf s2 in
  let s4 := set_inf_du_ PInf s3 in
  let s5 := set_inf_comp_ PInf s4 in
  let s6 := set_regularization_ (initial_value (regularization (options_ s5))) s5 in
  set_terminal_regularization_ (initial_value (regularization (options_ s6))) s6.

Definition initializeProblemIfNecessary : M unit := fun s =>
  if initialized_ s then Returns tt s []
  else
    match system_ s with
    | None => Throws (runtime_error system_missing) s []
    | Some sys =>
      match objective_ s with
      | None => Throws (runtime_error objective_missing) s []
      | Some _ =>
        let state_dim := sys_state_dim sys in
        let control_dim := sys_control_dim sys in
        let preserve_trajectories := preserve_trajectories_of s state_dim control_dim in
        (initialize_X preserve_trajectories state_dim ;;;
         assign_X0 ;;;
         initialize_U preserve_trajectories control_dim ;;;
         modify reset_scalars ;;;
         modify (set_initialized_ true)) s
      end
    end.

(** ** Regularization controller *)

Definition increaseRegularization (s : CDDP) : CDDP :=
  let s1 := set_regularization_
              (regularization_ s * update_factor (regularization (options_ s)))%Q s in
  set_regularization_
    (std_min (regularization_ s1) (max_value (regularization (options_ s1)))) s1.

Definition decreaseRegularization (s : CDDP) : CDDP :=
  let s1 := set_regularization_
              (regularization_ s / update_factor (regularization (options_ s)))%Q s in
  set_regularization_
    (std_max (regularization_ s1) (min_value (regularization (options_ s1)))) s1.

Definition isRegularizationLimitReached (s : CDDP) : bool :=
  Qle_bool (max_value (regularization (options_ s))) (regularization_ s).

Definition increaseTerminalRegularization (s : CDDP) : CDDP :=
  let s1 := set_terminal_regularization_
              (terminal_regularization_ s * update_factor (regularization (options_ s)))%Q s in
  set_terminal_regularization_
    (std_min (terminal_regularization_ s1) (max_value (regularization (options_ s1)))) s1.

Definition decreaseTerminalRegularization (s : CDDP) : CDDP :=
  let s1 := set_terminal_regularization_
              (terminal_regularization_ s / update_factor (regularization (options_ s)))%Q s in
  set_terminal_regularization_
    (std_max (terminal_regularization_ s1) (min_value (regularization (options_ s1)))) s1.

Definition isTerminalRegularizationLimitReached (s : CDDP) : bool :=
  Qle_bool (max_value (regularization (options_ s))) (terminal_regularization_ s).

(** ** Convergence test *)

Definition isKKTToleranceSatisfied (s : CDDP) : bool :=
  edouble_leb (inf_pr_ s) (tolerance (options_ s))
  && edouble_leb (inf_du_ s) (tolerance (options_ s)).

(** ** Registry listing *)

(** [std::map] iterates in the order of its keys. *)
Definition getRegisteredSolvers (external_solver_registry_ : gmap string SolverFactory)
  : list string :=
  merge_sort (fun a b => Is_true (String.leb a b))
             (elements (dom external_solver_registry_)).

(** ** The entry point *)

Definition unknown_solver_message (solver_type : string) : string :=
  "UnknownSolver - No solver registered for '" +:+ solver_type +:+ "'".

(** The record returned when no solver is found, built key by key. *)
Definition unknown_solver_solution (solver_type : string) : gmap string any :=
  let solution : gmap string any := ∅ in
  let solution := <["solver_name" := any_string solver_type]> solution in
  let solution := <["status_message" :=
                      any_string (unknown_solver_message solver_type)]> solution in
  let solution := <["iterations_completed" := any_int 0]> solution in
  let solution := <["solve_time_ms" := any_double 0]> solution in
  let solution := <["final_objective" := any_double 0]> solution in
  let solution := <["final_step_length" := any_double 1]> solution in
  let solution := <["time_points" := any_vector_double []]> solution in
  let solution := <["state_trajectory" := any_vector_VectorXd []]> solution in
  <["control_trajectory" := any_vector_VectorXd []]> solution.

Definition not_found_line (external_solver_registry_ : gmap string SolverFactory)
    (solver_type : string) : string :=
  "Solver type '" +:+ solver_type +:+ "' not found. Available solvers: "
  +:+ fold_right (fun name rest => name +:+ " " +:+ rest) ""
        (getRegisteredSolvers external_solver_registry_)
  +:+ "CLDDP ASDDP LogDDP IPDDP MSIPDDP ALDDP".

Section Strategies.

(** The strategy classes are separate translation units: their
    [initialize] and [solve] are taken as given. *)
Variable solver_initialize : ISolverAlgorithm -> M unit.
Variable solver_solve : ISolverAlgorithm -> M (gmap string any).

(** What [solve] does once the problem is initialized. *)
Definition run_solver (external_solver_registry_ : gmap string SolverFactory)
    (solver_type : string) : M (gmap string any) :=
  modify (set_solver_ (createSolver external_solver_registry_ solver_type)) ;;;
  solver <- gets solver_ ;;
  match solver with
  | None =>
    chatty <- gets (fun s => verbose (options_ s)) ;;
    when chatty
      (print cout (not_found_line external_solver_registry_ solver_type)) ;;;
    ret (unknown_solver_solution solver_type)
  | Some algorithm =>
    solver_initialize algorithm ;;;
    solver_solve algorithm
  end.

Definition solve (external_solver_registry_ : gmap string SolverFactory)
    (solver_type : string) : M (gmap string any) :=
  initializeProblemIfNecessary ;;;
  run_solver external_solver_registry_ solver_type.

Definition solve_by_type (external_solver_registry_ : gmap string SolverFactory)
    (solver_type : SolverType) : M (gmap string any) :=
  solve external_solver_registry_ (solverTypeToString solver_type).

End Strategies.

(** ** The two regularization counters, addressed uniformly *)

Inductive counter := StageCounter | TerminalCounter.
Inductive counter_call := Increase | Decrease.

Definition counter_value (c : counter) (s : CDDP) : Q :=
  match c with
  | StageCounter => regularization_ s
  | TerminalCounter => terminal_regularization_ s
  end.

Definition counter_apply (c : counter) (call : counter_call) : CDDP -> CDDP :=
  match c, call with
  | StageCounter, Increase => increaseRegularization
  | StageCounter, Decrease => decreaseRegularization
  | TerminalCounter, Increase => increaseTerminalRegularization
  | TerminalCounter, Decrease => decreaseTerminalRegularization
  end.

Definition counter_limit_reached (c : counter) : CDDP -> bool :=
  match c with
  | StageCounter => isRegularizationLimitReached
  | TerminalCounter => isTerminalRegularizationLimitReached
  end.

#[global] Instance counter_eq_dec : EqDecision counter.
Proof. solve_decision. Defined.

(** A sequence of calls, on either counter, in program order. *)
Definition run_calls (calls : list (counter * counter_call)) (s : CDDP) : CDDP :=
  fold_left (fun acc '(c, call) => counter_apply c call acc) calls s.

(** [x <= t] as a proposition *)
Definition edouble_le (x : edouble) (t : Q) : Prop :=
  match x with
  | Fin q => (q <= t)%Q
  | PInf => False
  end.

(** ** Example problems, used to evaluate the code on concrete inputs *)

Definition kkt_state (pr du comp : edouble) (tol : Q) : CDDP :=
  let options :=
    {| tolerance := tol; verbose := false; warm_start := false;
       line_search := {| ls_max_iterations := 1; initial_step_size := 1;
                         min_step_size := 0; step_reduction_factor := 1 # 2 |};
       regularization := {| initial_value := 1; update_factor := 2;
                            max_value := 8; min_value := 1 # 8 |} |} in
  set_inf_comp_ comp
    (set_inf_du_ du (set_inf_pr_ pr (CDDP_new [] [] 1 1 None None options))).

(** A context whose regularization is negative: ρ = -2 inside
    [ρ_min, ρ_max] = [-3, 0], update factor 2. *)
Definition negative_regularization_state : CDDP :=
  let options :=
    {| tolerance := 1 # 2; verbose := false; warm_start := false;
       line_search := {| ls_max_iterations := 1; initial_step_size := 1;
                         min_step_size := 0; step_reduction_factor := 1 # 2 |};
       regularization := {| initial_value := -2; update_factor := 2;
                            max_value := 0; min_value := -3 |} |} in
  CDDP_new [] [] 1 1 None None options.

(** A context with ρ = ρ_T = 1 inside [1/8, 8], update factor 2. *)
Definition positive_regularization_state : CDDP := kkt_state (Fin 0) (Fin 0) (Fin 0) 1.

(** Orders on consecutive step sizes: the earlier one [x], the later one [y]. *)
Definition step_gt (x y : Q) : Prop := (y < x)%Q.
Definition step_ge (x y : Q) : Prop := (y <= x)%Q.


(** Line search that halves the step from 1 down to a minimum of 1/4, with
    room for ten trials. *)
Definition halving_options : CDDPOptions :=
  {| tolerance := 1 # 2; verbose := false; warm_start := false;
     line_search := {| ls_max_iterations := 10; initial_step_size := 1;
                       min_step_size := 1 # 4; step_reduction_factor := 1 # 2 |};
     regularization := {| initial_value := 1; update_factor := 2;
                          max_value := 8; min_value := 1 # 8 |} |}.

(** ** Vocabulary of the statements *)

(** The trajectories that the two sizing blocks of the initialization
    leave behind. *)
Definition sized_X (state_dim : Z) (s : CDDP) : list VectorXd :=
  if X_mismatch s then repeat (Zero state_dim) (Z.to_nat (horizon_ s + 1)) else X_ s.
Definition sized_U (control_dim : Z) (s : CDDP) : list VectorXd :=
  if U_mismatch s then repeat (Zero control_dim) (Z.to_nat (horizon_ s)) else U_ s.

(** The context that a completed initialization leaves behind. *)
Definition initialized_context (sys : DynamicalSystem) (s : CDDP) : CDDP :=
  set_initialized_ true
    (reset_scalars
       (set_U_ (sized_U (sys_control_dim sys) s)
          (set_X_ (initial_state_ s :: tail (sized_X (sys_state_dim sys) s)) s))).

(** A configured problem: dynamics and objective are set and the horizon is
    a number of control intervals. *)
Definition problem_configured (s : CDDP) : Prop :=
  is_Some (system_ s) /\ is_Some (objective_ s) /\ 0 <= horizon_ s.


(** Bounds of the machine types: a C++ [int], and the size of a
    [std::vector], which never exceeds [PTRDIFF_MAX]. *)
Definition int_range (n : Z) : Prop := - 2 ^ 31 <= n < 2 ^ 31.
Definition vector_size {A} (v : list A) : Prop := Z.of_nat (length v) < 2 ^ 63.

(** The invariant of the constraint store. *)
Definition dual_dims_agree (s : CDDP) : Prop :=
  total_dual_dim_ s =
  dual_dim_sum (path_constraint_set_ s) + dual_dim_sum (terminal_constraint_set_ s).

(** The interpolated trajectory of [IPDDPSolver::initialize] (cold start, no
    trajectory provided): [X_[t] = x_0 + t * (x_ref - x_0) / horizon]. *)
Definition interpolated_state (x0 xref : VectorXd) (horizon t : Z) : VectorXd :=
  zip_with (fun a b => (a + inject_Z t * (b - a) / inject_Z horizon)%Q) x0 xref.


(** ** More example problems *)

Definition unit_system : DynamicalSystem := {| sys_state_dim := 1; sys_control_dim := 1 |}.
Definition plain_objective : Objective :=
  {| obj_reference_state := []; obj_reference_states := [] |}.

(** One state, one control, two intervals, from x_0 = 1 towards x_ref = 3. *)
Definition cold_problem : CDDP :=
  CDDP_new [1%Q] [3%Q] 2 (1 # 10) (Some unit_system) (Some plain_objective)
           halving_options.

(** The same problem with a horizon of zero intervals. *)
Definition zero_horizon_problem : CDDP :=
  CDDP_new [1%Q] [3%Q] 0 (1 # 10) (Some unit_system) (Some plain_objective)
           halving_options.

(** The same problem without a dynamics model. *)
Definition systemless_problem : CDDP :=
  CDDP_new [1%Q] [3%Q] 2 (1 # 10) None (Some plain_objective) halving_options.

(** Stand-ins for the strategy classes: they do nothing. *)
Definition idle_initialize (_ : ISolverAlgorithm) : M unit := ret tt.
Definition idle_solve (_ : ISolverAlgorithm) : M (gmap string any) := ret ∅.

(** A constraint with [m] rows. *)
Definition rows (m : Z) : Constraint := {| getDualDim := m; getUpperBound := Zero m |}.

(** The same name is given to two constraints in turn. *)
Definition add_twice : M unit :=
  addPathConstraint "limit" (Some (rows 2)) ;;;
  addPathConstraint "limit" (Some (rows 3)).

(** A plug-in factory. *)
Definition plugin_factory : SolverFactory := fun _ => Some (ExternalSolver "Plugin").

(** ** Calls in sequence, and more vocabulary *)

(** [n] calls of the increase operation of a counter, one after the other. *)
Definition increase_times (c : counter) (n : nat) (s : CDDP) : CDDP :=
  Nat.iter n (counter_apply c Increase) s.

(** A number of increases after which a counter at [rho] has reached
    [rho_max], for a factor [f] above 1. *)
Definition increases_to_limit (rho f rho_max : Q) : nat :=
  Z.to_nat (Qceiling (rho_max / (rho * (f - 1)))).

(** Calls on the constraint store, as a driver issues them. *)
Inductive store_call :=
  | AddPath (name : string) (c : Constraint)
  | RemovePath (name : string)
  | AddTerminal (name : string) (c : Constraint)
  | RemoveTerminal (name : string).

Definition store_call_run (call : store_call) : M unit :=
  match call with
  | AddPath name c => addPathConstraint name (Some c)
  | RemovePath name => removePathConstraint name ;;; ret tt
  | AddTerminal name c => addTerminalConstraint name (Some c)
  | RemoveTerminal name => removeTerminalConstraint name ;;; ret tt
  end.

Fixpoint store_calls_run (calls : list store_call) : M unit :=
  match calls with
  | [] => ret tt
  | call :: rest => store_call_run call ;;; store_calls_run rest
  end.

(** No call adds a constraint under a name its store holds at that moment. *)
Fixpoint adds_are_fresh (calls : list store_call)
    (path terminal : gmap string Constraint) : Prop :=
  match calls with
  | [] => True
  | AddPath name c :: rest =>
    path !! name = None /\ adds_are_fresh rest (<[name := c]> path) terminal
  | RemovePath name :: rest => adds_are_fresh rest (delete name path) terminal
  | AddTerminal name c :: rest =>
    terminal !! name = None /\ adds_are_fresh rest path (<[name := c]> terminal)
  | RemoveTerminal name :: rest => adds_are_fresh rest path (delete name terminal)
  end.

(** The strategy class that [createSolver] instantiates for the name of a
    [SolverType]. *)
Definition builtin_class (solver_type : SolverType) : ISolverAlgorithm :=
  match solver_type with
  | CLDDP => CLDDPSolver
  | ASDDP => ASDDPSolver
  | LogDDP => LogDDPSolver
  | IPDDP => IPDDPSolver
  | MSIPDDP => MSIPDDPSolver
  | ALDDP => AlddpSolver
  end.

(** The order of the keys of a [std::map<std::string, T>]. *)
Definition key_le (a b : string) : Prop := Is_true (String.leb a b).

(** The setters that cannot fail, as a driver calls them. *)
Inductive setter_call :=
  | SetDynamicalSystem (system : option DynamicalSystem)
  | SetInitialState (initial_state : VectorXd)
  | SetReferenceState (reference_state : VectorXd)
  | SetReferenceStates (reference_states : list VectorXd)
  | SetHorizon (horizon : Z)
  | SetTimestep (timestep : Q)
  | SetOptions (options : CDDPOptions)
  | SetObjective (objective : option Objective).

Definition setter_run (call : setter_call) : CDDP -> CDDP :=
  match call with
  | SetDynamicalSystem system => setDynamicalSystem system
  | SetInitialState initial_state => setInitialState initial_state
  | SetReferenceState reference_state => setReferenceState reference_state
  | SetReferenceStates reference_states => setReferenceStates reference_states
  | SetHorizon horizon => setHorizon horizon
  | SetTimestep timestep => setTimestep timestep
  | SetOptions options => setOptions options
  | SetObjective objective => setObjective objective
  end.

Definition setters_run (calls : list setter_call) (s : CDDP) : CDDP :=
  fold_left (fun acc call => setter_run call acc) calls s.

(** What the setters keep in step: the ladder with the line-search options,
    and the single reference state with the end of the reference
    trajectory. *)
Definition in_step (s : CDDP) : Prop :=
  alphas_ s = build_alphas (line_search (options_ s))
  /\ (reference_states_ s = [] \/
      last (reference_states_ s) = Some (reference_state_ s)).

(** ** Example problems for the properties below *)

(** A horizon of minus three intervals. *)
Definition negative_horizon_problem : CDDP :=
  CDDP_new [1%Q] [3%Q] (-3) (1 # 10) (Some unit_system) (Some plain_objective)
           halving_options.

(** The two-interval problem with a trajectory of three states and two
    controls installed. *)
Definition seeded_problem : CDDP :=
  set_initial_state_ [5%Q]
    (set_U_ [[1%Q]; [1%Q]] (set_X_ [[5%Q]; [6%Q]; [7%Q]] cold_problem)).

(** Constraint calls that re-use a name only after removing it. *)
Definition careful_calls : list store_call :=
  [AddPath "limit" (rows 2); AddTerminal "limit" (rows 1);
   RemovePath "limit"; RemovePath "absent"; AddPath "limit" (rows 3)].


(** * Interior-point strategy (ipddp_solver.cpp) *)

(** The part of [options.ipddp] that the functions below read. *)
Inductive BarrierStrategy := MONOTONIC | IPOPT | ADAPTIVE.

Record BarrierOptions := {
  mu_initial : Q;
  mu_min_value : Q;
  mu_update_factor : Q;
  mu_update_power : Q;
  strategy : BarrierStrategy
}.

Record IPDDPAlgorithmOptions := {
  dual_var_init_scale : Q;
  slack_var_init_scale : Q;
  barrier : BarrierOptions
}.

(** The members of [IPDDPSolver] that the functions below read or write: the
    barrier parameter and, per constraint name and time step, the constraint
    values, the duals and the slacks. *)
Record IPDDPSolverData := {
  mu_ : Q;
  G_ : gmap string (list (list Q));
  Y_ : gmap string (list (list Q));
  S_ : gmap string (list (list Q))
}.

(** The literal [1e-12]. *)
Definition tiny : Q := 1 # 1000000000000.

(** [IPDDPSolver::initializeDualSlackVariables], the loop over the rows [i]
    of one constraint at one time step: the slack of a row, then its dual. *)
Definition slack_of (o : IPDDPAlgorithmOptions) (g_i : Q) : Q :=
  std_max (slack_var_init_scale o) (- g_i).

Definition dual_of (o : IPDDPAlgorithmOptions) (mu s_i : Q) : Q :=
  let y_i := if Qltb s_i tiny then (mu / tiny)%Q else (mu / s_i)%Q in
  std_max (dual_var_init_scale o * (1 # 100))
          (std_min y_i (dual_var_init_scale o * 100)).

(** [n] rows left, starting at row [i]; reading [g_val(i)] outside the
    vector is undefined ([None]). *)
Fixpoint dual_slack_loop (o : IPDDPAlgorithmOptions) (mu : Q) (n i : nat)
    (g_val s_init y_init : list Q) : option (list Q * list Q) :=
  match n with
  | O => Some (s_init, y_init)
  | S n' =>
    match g_val !! i with
    | None => None
    | Some g_i =>
      let s_i := slack_of o g_i in
      let y_i := dual_of o mu s_i in
      dual_slack_loop o mu n' (S i) g_val (<[i := s_i]> s_init) (<[i := y_i]> y_init)
    end
  end.

Definition initial_slack_and_dual (o : IPDDPAlgorithmOptions) (mu : Q)
    (dual_dim : Z) (g_val : list Q) : option (list Q * list Q) :=
  dual_slack_loop o mu (Z.to_nat dual_dim) 0 g_val (Zero dual_dim) (Zero dual_dim).


(** The keys of a [std::map<std::string, T>] in iteration order. *)
Definition keys_in_order {A} (m : gmap string A) : list string :=
  merge_sort (fun a b => Is_true (String.leb a b)) (elements (dom m)).

(** [v.lpNorm<1>()] *)
Definition lpNorm1 (v : list Q) : Q := fold_left (fun acc x => (acc + Qabs x)%Q) v 0%Q.

(** Division of a double that may be infinite by a positive finite one. *)
Definition edouble_div (x : edouble) (d : Q) : edouble :=
  match x with
  | Fin q => Fin (q / d)
  | PInf => PInf
  end.

(** [IPDDPSolver::computeScaledDualInfeasibility]: the loop over [t] for one
    constraint, [n] steps left; the accumulators are the two norms and the
    row count. Indexing a stored trajectory beyond its end is undefined
    ([None]). *)
Fixpoint norms_loop (n t : nat) (y_traj s_traj : list (list Q)) (acc : Q * Q * Z)
  : option (Q * Q * Z) :=
  match n with
  | O => Some acc
  | S n' =>
    match y_traj !! t, s_traj !! t with
    | Some y_vec, Some s_vec =>
      let '(y_norm_l1, s_norm_l1, total_dual_dim) := acc in
      norms_loop n' (S t) y_traj s_traj
        ((y_norm_l1 + lpNorm1 y_vec)%Q, (s_norm_l1 + lpNorm1 s_vec)%Q,
         total_dual_dim + Z.of_nat (length y_vec))
    | _, _ => None
    end
  end.

(** The body of the loop over the constraints. *)
Definition norms_of_constraint (d : IPDDPSolverData) (horizon : Z)
    (acc : option (Q * Q * Z)) (constraint_name : string) : option (Q * Q * Z) :=
  match acc with
  | None => None
  | Some a =>
    match Y_ d !! constraint_name, S_ d !! constraint_name with
    | Some y_traj, Some s_traj => norms_loop (Z.to_nat horizon) 0 y_traj s_traj a
    | _, _ => Some a
    end
  end.

(** The last lines: the scaling factor [sd]. *)
Definition dual_scaling (y_norm_l1 s_norm_l1 : Q) (m_plus_n : Z) : Q :=
  let smax := 100%Q in
  let scaling_numerator :=
    if 0 <? m_plus_n then ((y_norm_l1 + s_norm_l1) / inject_Z m_plus_n)%Q else 0%Q in
  (std_max smax scaling_numerator / smax)%Q.

Definition computeScaledDualInfeasibility (constraint_set : gmap string Constraint)
    (d : IPDDPSolverData) : M edouble :=
  control_dim <- getControlDim ;;
  if bool_decide (constraint_set = ∅) then gets inf_du_
  else fun s =>
    match fold_left (norms_of_constraint d (horizon_ s))
                    (keys_in_order constraint_set) (Some (0%Q, 0%Q, 0)) with
    | None => Undefined
    | Some (y_norm_l1, s_norm_l1, total_dual_dim) =>
      let m := total_dual_dim in
      let n := control_dim * horizon_ s in
      Returns (edouble_div (inf_du_ s) (dual_scaling y_norm_l1 s_norm_l1 (m + n))) s []
    end.


(** Every stored dual and slack trajectory covers the horizon. *)
Definition stores_cover (d : IPDDPSolverData) (horizon : Z) : Prop :=
  (forall name traj, Y_ d !! name = Some traj -> horizon <= Z.of_nat (length traj))
  /\ (forall name traj, S_ d !! name = Some traj -> horizon <= Z.of_nat (length traj)).

(** [std::max({a, b})] on doubles that may be infinite. *)
Definition edouble_max (a b : edouble) : edouble :=
  match a, b with
  | Fin x, Fin y => Fin (std_max x y)
  | _, _ => PInf
  end.

Definition set_mu_ (v : Q) (d : IPDDPSolverData) : IPDDPSolverData :=
  {| mu_ := v; G_ := G_ d; Y_ := Y_ d; S_ := S_ d |}.

(** [IPDDPSolver::updateBarrierParameters], adaptive strategy: the choice of
    the reduction factor. *)
Definition adaptive_reduction_factor (b : BarrierOptions) (mu termination_metric : Q) : Q :=
  if Qltb tiny mu then
    let kkt_progress_ratio := (termination_metric / mu)%Q in
    if Qltb kkt_progress_ratio (1 # 100) then (mu_update_factor b * (1 # 10))%Q
    else if Qltb kkt_progress_ratio (1 # 10) then (mu_update_factor b * (3 # 10))%Q
    else if Qltb kkt_progress_ratio (1 # 2) then (mu_update_factor b * (6 # 10))%Q
    else mu_update_factor b
  else mu_update_factor b.

Section BarrierUpdate.

(** [std::pow], and [IPDDPSolver::resetFilter], which takes logarithms: both
    are taken as given. *)
Variable pow : Q -> Q -> Q.
Variable resetFilter : IPDDPSolverData -> M IPDDPSolverData.

Definition updateBarrierParameters (o : IPDDPAlgorithmOptions)
    (constraint_set : gmap string Constraint) (d : IPDDPSolverData)
    (forward_pass_success : bool) : M IPDDPSolverData :=
  let barrier_opts := barrier o in
  if bool_decide (constraint_set = ∅) then ret d
  else
    match strategy barrier_opts with
    | MONOTONIC =>
      resetFilter
        (set_mu_ (std_max (mu_min_value barrier_opts)
                          (mu_update_factor barrier_opts * mu_ d)) d)
    | IPOPT =>
      scaled_inf_du <- computeScaledDualInfeasibility constraint_set d ;;
      inf_pr <- gets inf_pr_ ;;
      inf_comp <- gets inf_comp_ ;;
      let error_k := edouble_max (edouble_max scaled_inf_du inf_pr) inf_comp in
      let kappa_epsilon := 10%Q in
      if edouble_leb error_k (kappa_epsilon * mu_ d)
      then
        tol <- gets (fun s => tolerance (options_ s)) ;;
        let new_mu_linear := (mu_update_factor barrier_opts * mu_ d)%Q in
        let new_mu_superlinear := pow (mu_ d) (mu_update_power barrier_opts) in
        resetFilter
          (set_mu_ (std_max (tol / 10) (std_min new_mu_linear new_mu_superlinear)) d)
      else ret d
    | ADAPTIVE =>
      scaled_inf_du <- computeScaledDualInfeasibility constraint_set d ;;
      inf_pr <- gets inf_pr_ ;;
      inf_comp <- gets inf_comp_ ;;
      let termination_metric := edouble_max (edouble_max scaled_inf_du inf_pr) inf_comp in
      let barrier_update_threshold :=
        std_max (mu_update_factor barrier_opts * mu_ d) (mu_ d * 2) in
      match termination_metric with
      | Fin metric =>
        if Qle_bool metric barrier_update_threshold
        then
          tol <- gets (fun s => tolerance (options_ s)) ;;
          let reduction_factor := adaptive_reduction_factor barrier_opts (mu_ d) metric in
          let new_mu_linear := (reduction_factor * mu_ d)%Q in
          let new_mu_superlinear := pow (mu_ d) (mu_update_power barrier_opts) in
          resetFilter
            (set_mu_ (std_max (tol / 100) (std_min new_mu_linear new_mu_superlinear)) d)
        else ret d
      | PInf => ret d
      end
    end.

End BarrierUpdate.

(** The value below which an update never leaves the barrier parameter. *)
Definition barrier_floor (o : IPDDPAlgorithmOptions) (tol : Q) : Q :=
  match strategy (barrier o) with
  | MONOTONIC => mu_min_value (barrier o)
  | IPOPT => (tol / 10)%Q
  | ADAPTIVE => (tol / 100)%Q
  end.

(** [resetFilter] does not assign the barrier parameter. *)
Definition keeps_mu (resetFilter : IPDDPSolverData -> M IPDDPSolverData) : Prop :=
  forall (d d' : IPDDPSolverData) (s s' : CDDP) (out : console),
    resetFilter d s = Returns d' s' out ->
    mu_ d' = mu_ d /\ options_ s' = options_ s.


(** [for (t = ...; ++t) v[t] = f(t)], [n] iterations starting at index [t]. *)
Fixpoint assign_loop {A} (n t : nat) (f : nat -> A) (v : list A) : list A :=
  match n with
  | O => v
  | S n' => assign_loop n' (S t) f (<[t := f t]> v)
  end.

(** [IPDDPSolver::initialize], cold start ([options.warm_start] false): the
    test that a trajectory was provided.  The conjunction is evaluated from
    the left; [X_[0]] or [U_[0]] of an empty vector is undefined ([None]). *)
Definition trajectory_provided (state_dim control_dim : Z) (s : CDDP) : option bool :=
  if negb (Z.of_nat (length (X_ s)) =? size_t_of_int (horizon_ s + 1)) then Some false
  else if negb (Z.of_nat (length (U_ s)) =? size_t_of_int (horizon_ s)) then Some false
  else
    match X_ s with
    | [] => None
    | x0 :: _ =>
      if negb (Z.of_nat (length x0) =? state_dim) then Some false
      else
        match U_ s with
        | [] => None
        | u0 :: _ => Some (Z.of_nat (length u0) =? control_dim)
        end
    end.

(** The block that follows the test: keep the provided trajectory, or
    resize and overwrite X by the interpolation from the initial to the
    reference state and U by zeros.  The difference of two Eigen vectors
    of different sizes is undefined; the loop that forms it runs when the
    horizon is not negative.  The quotient by [horizon] is the exact one:
    the model of the arithmetic is for a horizon other than zero.
    This is the block of lines 715-746 alone.  In [initialize] it is
    reached on a cold start after the reference-state check, and it is
    followed by [initializeDualSlackVariables], which reads the trajectory
    it leaves, and by [evaluateTrajectory], which overwrites the states
    after the first by the rollout of the dynamics. *)
Definition cold_start_trajectory (state_dim control_dim : Z) : M unit := fun s =>
  match trajectory_provided state_dim control_dim s with
  | None => Undefined
  | Some true =>
    Returns tt s
      (if verbose (options_ s)
       then [(cout, "IPDDP: Using provided initial trajectory")] else [])
  | Some false =>
    match vector_resize (horizon_ s + 1) [] (X_ s) with
    | None => Throws length_error s []
    | Some X =>
      let s1 := set_X_ X s in
      match vector_resize (horizon_ s) [] (U_ s1) with
      | None => Throws length_error s1 []
      | Some U =>
        let s2 := set_U_ U s1 in
        if (0 <=? horizon_ s2)
           && negb (length (initial_state_ s2) =? length (reference_state_ s2))%nat
        then Undefined
        else
        let s3 :=
          set_X_ (assign_loop (Z.to_nat (horizon_ s2 + 1)) 0
                    (fun t => interpolated_state (initial_state_ s2) (reference_state_ s2)
                                (horizon_ s2) (Z.of_nat t))
                    (X_ s2)) s2 in
        let s4 :=
          set_U_ (assign_loop (Z.to_nat (horizon_ s3)) 0
                    (fun _ => Zero control_dim) (U_ s3)) s3 in
        Returns tt s4
          (if verbose (options_ s4)
           then [(cout, "IPDDP: Using interpolated initial trajectory")] else [])
      end
    end
  end.


(** ** Constraint storage *)

(** [m[name].resize(horizon)] on one of the stores: [operator[]] creates an
    empty trajectory for a new name, and a negative size, converted to
    [size_t], is beyond what a vector can hold. *)
Definition storage_resize (horizon : Z) (name : string)
    (m : gmap string (list (list Q))) : option (gmap string (list (list Q))) :=
  match vector_resize horizon [] (default [] (m !! name)) with
  | Some v => Some (<[name := v]> m)
  | None => None
  end.

(** The body of the loop over the constraints in
    [IPDDPSolver::initializeConstraintStorage]. *)
Definition storage_step (horizon : Z) (acc : option IPDDPSolverData)
    (constraint_name : string) : option IPDDPSolverData :=
  match acc with
  | None => None
  | Some d =>
    match storage_resize horizon constraint_name (G_ d) with
    | None => None
    | Some G' =>
      match storage_resize horizon constraint_name (Y_ d) with
      | None => None
      | Some Y' =>
        match storage_resize horizon constraint_name (S_ d) with
        | None => None
        | Some S' => Some {| mu_ := mu_ d; G_ := G'; Y_ := Y'; S_ := S' |}
        end
      end
    end
  end.

(** [IPDDPSolver::initializeConstraintStorage]; the members of the solver
    are not observed after a throw. *)
Definition initializeConstraintStorage (constraint_set : gmap string Constraint)
    (d : IPDDPSolverData) : M IPDDPSolverData := fun s =>
  let cleared := {| mu_ := mu_ d; G_ := ∅; Y_ := ∅; S_ := ∅ |} in
  match fold_left (storage_step (horizon_ s)) (keys_in_order constraint_set)
                  (Some cleared) with
  | Some d' => Returns d' s []
  | None => Throws length_error s []
  end.

(** A trajectory of [horizon] empty vectors. *)
Definition fresh_trajectory (horizon : Z) : list (list Q) := repeat [] (Z.to_nat horizon).

(** A store that holds, for the names of [constraint_set] and no other, a
    trajectory of [horizon] empty vectors. *)
Definition fresh_store (constraint_set : gmap string Constraint) (horizon : Z)
  : gmap string (list (list Q)) :=
  (fun _ => fresh_trajectory horizon) <$> constraint_set.

(** ** Largest constraint value *)

(** [v.maxCoeff()]: the reduction of the coefficients by the larger of two;
    Eigen requires a vector that is not empty. *)
Definition maxCoeff (v : list Q) : option Q :=
  match v with
  | [] => None
  | first :: rest => Some (fold_left std_max rest first)
  end.

(** [IPDDPSolver::computeMaxConstraintViolation]: the loop over [t] for one
    constraint, [n] steps left. *)
Fixpoint violation_loop (n t : nat) (g_traj : list (list Q)) (max_violation : Q)
  : option Q :=
  match n with
  | O => Some max_violation
  | S n' =>
    match g_traj !! t with
    | None => None
    | Some g_vec =>
      match maxCoeff g_vec with
      | None => None
      | Some c => violation_loop n' (S t) g_traj (std_max max_violation c)
      end
    end
  end.

(** The body of the loop over the constraints. *)
Definition violation_of_constraint (d : IPDDPSolverData) (horizon : Z)
    (acc : option Q) (constraint_name : string) : option Q :=
  match acc with
  | None => None
  | Some max_violation =>
    match G_ d !! constraint_name with
    | Some g_traj => violation_loop (Z.to_nat horizon) 0 g_traj max_violation
    | None => Some max_violation
    end
  end.

Definition computeMaxConstraintViolation (constraint_set : gmap string Constraint)
    (d : IPDDPSolverData) : M Q := fun s =>
  match fold_left (violation_of_constraint d (horizon_ s))
                  (keys_in_order constraint_set) (Some 0%Q) with
  | Some max_violation => Returns max_violation s []
  | None => Undefined
  end.

(** [x] is a coefficient of a stored constraint value of a constraint of the
    set, at a time step inside the horizon. *)
Definition stored_value (constraint_set : gmap string Constraint) (d : IPDDPSolverData)
    (horizon : Z) (x : Q) : Prop :=
  exists (name : string) (g_traj : list (list Q)) (t : nat) (g_vec : list Q),
    is_Some (constraint_set !! name) /\ G_ d !! name = Some g_traj
    /\ Z.of_nat t < horizon /\ g_traj !! t = Some g_vec /\ x ∈ g_vec.

(** ** Example interior-point settings *)

Definition monotonic_barrier : BarrierOptions :=
  {| mu_initial := 1 # 10; mu_min_value := 1 # 1000; mu_update_factor := 1 # 5;
     mu_update_power := 6 # 5; strategy := MONOTONIC |}.

Definition ipddp_options : IPDDPAlgorithmOptions :=
  {| dual_var_init_scale := 1 # 10; slack_var_init_scale := 1 # 100;
     barrier := monotonic_barrier |}.

Definition fresh_data : IPDDPSolverData :=
  {| mu_ := 1 # 10; G_ := ∅; Y_ := ∅; S_ := ∅ |}.

Definition one_limit : gmap string Constraint := {[ "limit" := rows 2 ]}.

(** Stand-ins for [resetFilter] and [std::pow]: a filter reset that leaves
    everything as it is, and the power with exponent one. *)
Definition idle_resetFilter (d : IPDDPSolverData) : M IPDDPSolverData := ret d.
Definition power_one (x _ : Q) : Q := x.
(** * Properties *)

(** ** Comparisons and clamping *)

Lemma Qltb_lt (a b : Q) : Qltb a b = true <-> (a < b)%Q.
Proof.
  unfold Qltb. rewrite negb_true_iff, <- not_true_iff_false, Qle_bool_iff.
  split; [apply Qnot_le_lt | apply Qlt_not_le].
Qed.

Lemma Qltb_ge (a b : Q) : Qltb a b = false <-> (b <= a)%Q.
Proof.
  unfold Qltb. rewrite negb_false_iff. apply Qle_bool_iff.
Qed.

Lemma std_min_spec (a b : Q) :
  ((b < a)%Q /\ std_min a b = b) \/ ((a <= b)%Q /\ std_min a b = a).
Proof.
  unfold std_min. destruct (Qltb b a) eqn:E.
  - left. split; [by apply Qltb_lt | done].
  - right. split; [by apply Qltb_ge | done].
Qed.

Lemma std_max_spec (a b : Q) :
  ((a < b)%Q /\ std_max a b = b) \/ ((b <= a)%Q /\ std_max a b = a).
Proof.
  unfold std_max. destruct (Qltb a b) eqn:E.
  - left. split; [by apply Qltb_lt | done].
  - right. split; [by apply Qltb_ge | done].
Qed.

Lemma std_min_Qmin (a b : Q) : (std_min a b == Qmin a b)%Q.
Proof.
  destruct (std_min_spec a b) as [[H ->] | [H ->]].
  - symmetry. apply Q.min_r. by apply Qlt_le_weak.
  - symmetry. by apply Q.min_l.
Qed.

Lemma std_max_Qmax (a b : Q) : (std_max a b == Qmax a b)%Q.
Proof.
  destruct (std_max_spec a b) as [[H ->] | [H ->]].
  - symmetry. apply Q.max_r. by apply Qlt_le_weak.
  - symmetry. by apply Q.max_l.
Qed.

Lemma edouble_leb_le (x : edouble) (t : Q) : edouble_leb x t = true <-> edouble_le x t.
Proof.
  destruct x as [q |]; simpl; [apply Qle_bool_iff | split; [discriminate | tauto]].
Qed.

(** ** Convergence test *)

(** C2, as stated, fails: with inf_pr = inf_du = 0, inf_comp = 1 and
    tolerance 1/2 the test answers true although the complementarity
    infeasibility exceeds the tolerance. *)
Lemma kkt_ignores_complementarity :
  let s := kkt_state (Fin 0) (Fin 0) (Fin 1) (1 # 2) in
  isKKTToleranceSatisfied s = true
  /\ edouble_le (inf_pr_ s) (tolerance (options_ s))
  /\ edouble_le (inf_du_ s) (tolerance (options_ s))
  /\ ~ edouble_le (inf_comp_ s) (tolerance (options_ s)).
Proof.
  cbv zeta. split; [reflexivity |].
  split; [by vm_compute |]. split; [by vm_compute |].
  vm_compute. intros H. by apply H.
Qed.

(** C2, amended: [isKKTToleranceSatisfied] returns true exactly when the
    primal infeasibility and the dual infeasibility are both at most
    [options.tolerance]; the complementarity infeasibility has no part in the
    answer. *)
Theorem isKKTToleranceSatisfied_spec (s : CDDP) :
  (isKKTToleranceSatisfied s = true <->
   edouble_le (inf_pr_ s) (tolerance (options_ s)) /\
   edouble_le (inf_du_ s) (tolerance (options_ s)))
  /\ (forall comp : edouble,
        isKKTToleranceSatisfied (set_inf_comp_ comp s) = isKKTToleranceSatisfied s).
Proof.
  split.
  - unfold isKKTToleranceSatisfied.
    by rewrite andb_true_iff, !edouble_leb_le.
  - done.
Qed.

(** ** Regularization controller *)

Lemma counter_apply_options (c : counter) (call : counter_call) (s : CDDP) :
  options_ (counter_apply c call s) = options_ s.
Proof. by destruct c, call. Qed.

Lemma counter_apply_other (c c' : counter) (call : counter_call) (s : CDDP) :
  c <> c' -> counter_value c (counter_apply c' call s) = counter_value c s.
Proof. by destruct c, c', call. Qed.

Lemma counter_increase_value (c : counter) (s : CDDP) :
  counter_value c (counter_apply c Increase s) =
  std_min (counter_value c s * update_factor (regularization (options_ s)))
          (max_value (regularization (options_ s))).
Proof. by destruct c. Qed.

Lemma counter_decrease_value (c : counter) (s : CDDP) :
  counter_value c (counter_apply c Decrease s) =
  std_max (counter_value c s / update_factor (regularization (options_ s)))
          (min_value (regularization (options_ s))).
Proof. by destruct c. Qed.

Lemma counter_limit_reached_spec (c : counter) (s : CDDP) :
  counter_limit_reached c s = true <->
  (max_value (regularization (options_ s)) <= counter_value c s)%Q.
Proof. destruct c; apply Qle_bool_iff. Qed.

Section Clamp.
Variables f lo hi : Q.
Hypothesis factor_ge_1 : (1 <= f)%Q.

Lemma scaled_up_ge (v : Q) : (0 <= v)%Q -> (v <= v * f)%Q.
Proof. intros. nra. Qed.

Lemma scaled_down_le (v : Q) : (0 <= v)%Q -> (0 <= v / f <= v)%Q.
Proof.
  intros Hv. assert (0 < f)%Q by lra. split.
  - apply Qle_shift_div_l; [done | lra].
  - apply Qle_shift_div_r; [done | by apply scaled_up_ge].
Qed.

Lemma clamp_up_range (v : Q) :
  (0 <= v)%Q -> (lo <= v <= hi)%Q ->
  (0 <= std_min (v * f) hi)%Q /\ (lo <= std_min (v * f) hi <= hi)%Q.
Proof.
  intros Hv [Hlo Hhi]. pose proof (scaled_up_ge v Hv).
  destruct (std_min_spec (v * f) hi) as [[? ->] | [? ->]]; lra.
Qed.

Lemma clamp_down_range (v : Q) :
  (0 <= v)%Q -> (lo <= v <= hi)%Q ->
  (0 <= std_max (v / f) lo)%Q /\ (lo <= std_max (v / f) lo <= hi)%Q.
Proof.
  intros Hv [Hlo Hhi]. pose proof (scaled_down_le v Hv) as [? ?].
  destruct (std_max_spec (v / f) lo) as [[? ->] | [? ->]]; lra.
Qed.
End Clamp.

(** What one call preserves about a counter: it stays non-negative and
    inside the configured interval, and the options stay as they were. *)
Definition counter_ok (c : counter) (o : CDDPOptions) (s : CDDP) : Prop :=
  options_ s = o /\
  (0 <= counter_value c s)%Q /\
  (min_value (regularization o) <= counter_value c s <= max_value (regularization o))%Q.

Lemma counter_apply_ok (c c' : counter) (call : counter_call) (o : CDDPOptions) (s : CDDP) :
  (1 <= update_factor (regularization o))%Q ->
  counter_ok c o s -> counter_ok c o (counter_apply c' call s).
Proof.
  intros Hf (Ho & Hpos & Hrange). unfold counter_ok.
  rewrite counter_apply_options. split; [done |].
  destruct (decide (c = c')) as [<- | Hne].
  - destruct call.
    + rewrite counter_increase_value, Ho. by apply clamp_up_range.
    + rewrite counter_decrease_value, Ho. by apply clamp_down_range.
  - by rewrite counter_apply_other.
Qed.

Lemma run_calls_ok (c : counter) (o : CDDPOptions)
    (calls : list (counter * counter_call)) (s : CDDP) :
  (1 <= update_factor (regularization o))%Q ->
  counter_ok c o s -> counter_ok c o (run_calls calls s).
Proof.
  intros Hf. revert s.
  induction calls as [| [c' call] calls IH]; intros s Hs; [done |].
  simpl. apply IH. by apply counter_apply_ok.
Qed.

(** C5, as stated, fails: with ρ = -2 in [ρ_min, ρ_max] = [-3, 0] and update
    factor 2, the precondition of the claim holds and one call to
    [increaseRegularization] leaves ρ = -4, below ρ_min. *)
Lemma negative_regularization_escapes :
  let s := negative_regularization_state in
  let o := regularization (options_ s) in
  (1 <= update_factor o)%Q /\
  (min_value o <= regularization_ s <= max_value o)%Q /\
  ~ (min_value o <= regularization_ (increaseRegularization s))%Q.
Proof.
  vm_compute. repeat split; try discriminate.
  intros H. by apply H.
Qed.

(** C5, amended with ρ ≥ 0: when update_factor ≥ 1, ρ ≥ 0 and
    ρ_min ≤ ρ ≤ ρ_max, [increaseRegularization] sets ρ to
    min(ρ · update_factor, ρ_max), [decreaseRegularization] sets it to
    max(ρ / update_factor, ρ_min), every sequence of increase and decrease
    calls keeps ρ within [ρ_min, ρ_max], and
    [isRegularizationLimitReached] answers true exactly when ρ ≥ ρ_max; the
    terminal counter behaves the same under its own three operations. *)
Theorem regularization_controller (c : counter) (s : CDDP) :
  let o := regularization (options_ s) in
  (1 <= update_factor o)%Q ->
  (0 <= counter_value c s)%Q ->
  (min_value o <= counter_value c s <= max_value o)%Q ->
  (counter_value c (counter_apply c Increase s)
     == Qmin (counter_value c s * update_factor o) (max_value o))%Q
  /\ (counter_value c (counter_apply c Decrease s)
        == Qmax (counter_value c s / update_factor o) (min_value o))%Q
  /\ (forall calls : list (counter * counter_call),
        (min_value o <= counter_value c (run_calls calls s) <= max_value o)%Q)
  /\ (counter_limit_reached c s = true <-> (max_value o <= counter_value c s)%Q).
Proof.
  intros o Hf Hpos Hrange. repeat split.
  - rewrite counter_increase_value. apply std_min_Qmin.
  - rewrite counter_decrease_value. apply std_max_Qmax.
  - by destruct (run_calls_ok c (options_ s) calls s Hf) as (_ & _ & [? _]).
  - by destruct (run_calls_ok c (options_ s) calls s Hf) as (_ & _ & [_ ?]).
  - by apply counter_limit_reached_spec.
  - by apply counter_limit_reached_spec.
Qed.

Lemma regularization_controller_witness :
  let s := positive_regularization_state in
  (regularization_ (increaseRegularization s) == 2)%Q /\
  (terminal_regularization_ (decreaseTerminalRegularization s) == 1 # 2)%Q.
Proof.
  intros s.
  assert (Hf : (1 <= update_factor (regularization (options_ s)))%Q) by (vm_compute; discriminate).
  split.
  - destruct (regularization_controller StageCounter s Hf) as (H & _).
    + vm_compute; discriminate.
    + split; vm_compute; discriminate.
    + rewrite H. reflexivity.
  - destruct (regularization_controller TerminalCounter s Hf) as (_ & H & _).
    + vm_compute; discriminate.
    + split; vm_compute; discriminate.
    + rewrite H. reflexivity.
Defined.

(** ** Step-size ladder *)

Lemma Qpower_succ_nat (r : Q) (n : nat) :
  (r ^ Z.of_nat (S n) == r * r ^ Z.of_nat n)%Q.
Proof.
  rewrite Nat2Z.inj_succ. unfold Z.succ. rewrite Z.add_comm.
  rewrite Qpower_plus' by lia. by rewrite Qpower_1_r.
Qed.

Section Ladder.
Variable ls : LineSearchOptions.
Let r := step_reduction_factor ls.
Let amin := min_step_size ls.
Let n := ls_max_iterations ls.

Lemma alpha_loop_S (fuel : nat) (i : Z) (cur : Q) :
  alpha_loop ls (S fuel) i cur =
  cur :: (if Qltb (cur * r) amin && (i <? n - 1) then [amin]
          else alpha_loop ls fuel (i + 1) (cur * r)%Q).
Proof. reflexivity. Qed.

Lemma alpha_loop_shape (fuel : nat) : forall (i : Z) (cur : Q),
  Z.of_nat (S fuel) = n - i ->
  exists geo tail : list Q,
    alpha_loop ls (S fuel) i cur = (cur :: geo) ++ tail
    /\ (forall (j : nat) (x : Q), geo !! j = Some x ->
          (amin <= x)%Q /\ (x == cur * r ^ Z.of_nat (S j))%Q)
    /\ ((tail = [] /\ length geo = fuel /\
         forall j : nat, (1 <= j <= fuel)%nat -> (amin <= cur * r ^ Z.of_nat j)%Q)
        \/ (tail = [amin] /\ (length geo < fuel)%nat /\
            (cur * r ^ Z.of_nat (S (length geo)) < amin)%Q))
    /\ ((0 < r)%Q -> (r < 1)%Q -> (0 < cur)%Q ->
        Sorted step_gt (cur :: geo) /\
        ((amin <= cur)%Q -> Sorted step_ge ((cur :: geo) ++ tail))).
Proof.
  induction fuel as [| fuel IH]; intros i cur Hi.
  - exists [], []. rewrite alpha_loop_S.
    replace (i <? n - 1) with false by (symmetry; apply Z.ltb_ge; lia).
    rewrite andb_false_r. simpl.
    split; [done | split; [done | split]].
    + left. split; [done | split; [done |]]. intros j Hj. lia.
    + intros _ _ _. split; [| intros _]; repeat constructor.
  - rewrite alpha_loop_S.
    replace (i <? n - 1) with true by (symmetry; apply Z.ltb_lt; lia).
    rewrite andb_true_r.
    destruct (Qltb (cur * r) amin) eqn:Hlt.
    + apply Qltb_lt in Hlt. exists [], [amin].
      split; [done | split; [done | split]].
      * right. split; [done | split; [simpl; lia |]]. simpl length.
        change (Z.of_nat 1) with 1. by rewrite Qpower_1_r.
      * intros _ _ _. split; [repeat constructor |].
        intros Hmin. repeat constructor. done.
    + apply Qltb_ge in Hlt.
      destruct (IH (i + 1) (cur * r)%Q) as
        (geo & tail & Heq & Hgeo & Htail & Hsorted); [lia |].
      rewrite Heq.
      exists ((cur * r)%Q :: geo), tail.
      split; [done | split; [| split]].
      * intros [| j] x Hj; simpl in Hj.
        -- inversion Hj; subst. split; [done |].
           change (Z.of_nat 1) with 1. rewrite Qpower_1_r. reflexivity.
        -- apply Hgeo in Hj as [? Hx]. split; [done |].
           rewrite Hx, (Qpower_succ_nat r (S j)). ring.
      * destruct Htail as [(-> & Hlen & Hall) | (-> & Hlen & Hbelow)].
        -- left. split; [done | split; [simpl; lia |]].
           intros [| j] Hj; [lia |].
           destruct (decide (j = 0)%nat) as [-> | Hj0].
           ++ change (Z.of_nat 1) with 1. by rewrite Qpower_1_r.
           ++ rewrite Qpower_succ_nat, Qmult_assoc. apply Hall. lia.
        -- right. split; [done | split; [simpl; lia |]].
           simpl length. by rewrite Qpower_succ_nat, Qmult_assoc.
      * intros Hr0 Hr1 Hcur. assert (Hnext : (0 < cur * r)%Q) by nra.
        destruct (Hsorted Hr0 Hr1 Hnext) as [Hs Hs'].
        split.
        -- constructor; [done |]. constructor. unfold step_gt. nra.
        -- intros Hmin. simpl. constructor; [by apply Hs' |].
           constructor. unfold step_ge. nra.
Qed.

Let a := initial_step_size ls.

Lemma build_alphas_shape :
  exists geo tail : list Q,
    build_alphas ls = (a :: geo) ++ tail
    /\ (forall (j : nat) (x : Q), geo !! j = Some x ->
          (amin <= x)%Q /\ (x == a * r ^ Z.of_nat (S j))%Q)
    /\ ((tail = [] /\
         forall j : nat, 1 <= Z.of_nat j < n -> (amin <= a * r ^ Z.of_nat j)%Q)
        \/ (tail = [amin] /\ Z.of_nat (S (length geo)) < n /\
            (a * r ^ Z.of_nat (S (length geo)) < amin)%Q))
    /\ ((0 < r)%Q -> (r < 1)%Q -> (0 < a)%Q ->
        Sorted step_gt (a :: geo) /\
        ((amin <= a)%Q -> Sorted step_ge ((a :: geo) ++ tail))).
Proof.
  unfold build_alphas. destruct (Z.to_nat (ls_max_iterations ls)) as [| fuel] eqn:Hn.
  - exists [], []. simpl.
    split; [done | split; [done | split]].
    + left. split; [done |]. intros j Hj. subst n. lia.
    + intros _ _ _. split; [| intros _]; repeat constructor.
  - destruct (alpha_loop_shape fuel 0 a) as (geo & tail & Heq & Hgeo & Htail & Hs).
    { subst n. lia. }
    fold a. rewrite Heq. exists geo, tail.
    split; [done | split; [done | split; [| done]]].
    destruct Htail as [(-> & Hlen & Hall) | (-> & Hlen & Hbelow)].
    + left. split; [done |]. intros j Hj. apply Hall. subst n. lia.
    + right. split; [done | split; [subst n; lia | done]].
Qed.
End Ladder.




(** ** Initialization *)

Lemma fill_loop_app {A} (x : A) (n : nat) : forall pre junk : list A,
  length junk = n ->
  fill_loop n (length pre) x (pre ++ junk) = pre ++ repeat x n.
Proof.
  induction n as [| n IH]; intros pre junk Hlen.
  - destruct junk; [done | discriminate].
  - destruct junk as [| y junk]; [discriminate |]. simpl.
    rewrite insert_app_r_alt by lia. rewrite Nat.sub_diag. simpl.
    specialize (IH (pre ++ [x]) junk).
    rewrite length_app, Nat.add_1_r, <- !(assoc_L (++)) in IH. simpl in IH.
    apply IH. by injection Hlen.
Qed.

Lemma fill_loop_fresh {A} (x d : A) (n : nat) :
  fill_loop n 0 x (repeat d n) = repeat x n.
Proof. apply (fill_loop_app x n [] (repeat d n)), repeat_length. Qed.

Lemma vector_resize_empty {A} (n : Z) (d : A) :
  0 <= n -> vector_resize n d [] = Some (repeat d (Z.to_nat n)).
Proof.
  intros Hn. unfold vector_resize.
  destruct (Z.ltb_spec n 0); [lia |].
  by rewrite firstn_nil, Nat.sub_0_r.
Qed.


Lemma bind_Returns {A B} (m : M A) (k : A -> M B) (s s' : CDDP) (a : A) (out : console) :
  m s = Returns a s' out -> bind m k s = after_output out (k a s').
Proof. intros H. unfold bind. by rewrite H. Qed.

Lemma bind_Throws {A B} (m : M A) (k : A -> M B) (s s' : CDDP) (e : exn) (out : console) :
  m s = Throws e s' out -> bind m k s = Throws e s' out.
Proof. intros H. unfold bind. by rewrite H. Qed.

Lemma after_output_nil {A} (o : outcome A) : after_output [] o = o.
Proof. by destruct o. Qed.

Lemma X_mismatch_false (s : CDDP) :
  X_mismatch s = false <-> X_ s <> [] /\ Z.of_nat (length (X_ s)) = horizon_ s + 1.
Proof.
  unfold X_mismatch.
  rewrite orb_false_iff, negb_false_iff, bool_decide_eq_false, Z.eqb_eq. done.
Qed.

Lemma U_mismatch_false (s : CDDP) :
  U_mismatch s = false <-> U_ s <> [] /\ Z.of_nat (length (U_ s)) = horizon_ s.
Proof.
  unfold U_mismatch.
  rewrite orb_false_iff, negb_false_iff, bool_decide_eq_false, Z.eqb_eq. done.
Qed.

Lemma preserve_trajectories_sized (s : CDDP) (sd cd : Z) :
  preserve_trajectories_of s sd cd = true ->
  X_mismatch s = false /\ U_mismatch s = false.
Proof.
  unfold preserve_trajectories_of. rewrite !andb_true_iff, !negb_true_iff.
  intros ((((((_ & Hx) & Hu) & Hlx) & Hlu) & _) & _).
  apply bool_decide_eq_false in Hx, Hu. apply Z.eqb_eq in Hlx, Hlu.
  split; [by apply X_mismatch_false | by apply U_mismatch_false].
Qed.


Lemma set_X_same (s : CDDP) : set_X_ (X_ s) s = s.
Proof. by destruct s. Qed.
Lemma set_U_same (s : CDDP) : set_U_ (U_ s) s = s.
Proof. by destruct s. Qed.

Lemma initialize_X_sized (p : bool) (sd : Z) (s : CDDP) :
  0 <= horizon_ s + 1 -> (p = true -> X_mismatch s = false) ->
  initialize_X p sd s = Returns tt (set_X_ (sized_X sd s) s) [].
Proof.
  intros Hh Hp. unfold initialize_X, sized_X.
  destruct (X_mismatch s) eqn:Hx.
  - destruct p; [by discriminate Hp |].
    cbn [X_ set_X_]. rewrite vector_resize_empty by lia.
    by rewrite fill_loop_fresh.
  - by rewrite set_X_same.
Qed.

Lemma initialize_U_sized (p : bool) (cd : Z) (s : CDDP) :
  0 <= horizon_ s -> (p = true -> U_mismatch s = false) ->
  initialize_U p cd s = Returns tt (set_U_ (sized_U cd s) s) [].
Proof.
  intros Hh Hp. unfold initialize_U, sized_U.
  destruct (U_mismatch s) eqn:Hu.
  - destruct p; [by discriminate Hp |].
    cbn [U_ set_U_]. rewrite vector_resize_empty by lia.
    by rewrite fill_loop_fresh.
  - by rewrite set_U_same.
Qed.

Lemma sized_X_length (sd : Z) (s : CDDP) :
  0 <= horizon_ s -> length (sized_X sd s) = S (Z.to_nat (horizon_ s)).
Proof.
  intros Hh. unfold sized_X. destruct (X_mismatch s) eqn:Hx.
  - rewrite repeat_length. lia.
  - apply X_mismatch_false in Hx as [_ Hx]. lia.
Qed.

Lemma sized_U_length (cd : Z) (s : CDDP) :
  0 <= horizon_ s -> length (sized_U cd s) = Z.to_nat (horizon_ s).
Proof.
  intros Hh. unfold sized_U. destruct (U_mismatch s) eqn:Hu.
  - by rewrite repeat_length.
  - apply U_mismatch_false in Hu as [_ Hu]. lia.
Qed.


Lemma initializeProblemIfNecessary_returns (s : CDDP) (sys : DynamicalSystem) :
  initialized_ s = false -> system_ s = Some sys -> is_Some (objective_ s) ->
  0 <= horizon_ s ->
  initializeProblemIfNecessary s = Returns tt (initialized_context sys s) [].
Proof.
  intros Hinit Hsys [obj Hobj] Hh. unfold initializeProblemIfNecessary.
  rewrite Hinit, Hsys, Hobj.
  set (p := preserve_trajectories_of s (sys_state_dim sys) (sys_control_dim sys)).
  assert (Hp : p = true -> X_mismatch s = false /\ U_mismatch s = false)
    by apply preserve_trajectories_sized.
  assert (HpX : p = true -> X_mismatch s = false) by (intros Ht; by apply Hp).
  assert (Hh1 : 0 <= horizon_ s + 1) by lia.
  rewrite (bind_Returns _ _ _ _ _ _ (initialize_X_sized p _ s Hh1 HpX)).
  pose proof (sized_X_length (sys_state_dim sys) s Hh) as Hlen.
  destruct (sized_X (sys_state_dim sys) s) as [| x0 rest] eqn:HX; [discriminate |].
  rewrite after_output_nil.
  set (s2 := set_X_ (initial_state_ s :: rest) s).
  rewrite (bind_Returns _ _ _ s2 tt []) by reflexivity.
  rewrite after_output_nil.
  assert (HpU : p = true -> U_mismatch s2 = false) by (intros Ht; by apply Hp).
  rewrite (bind_Returns _ _ _ _ _ _
             (initialize_U_sized p (sys_control_dim sys) s2 Hh HpU)).
  rewrite after_output_nil.
  unfold initialized_context. rewrite HX. reflexivity.
Qed.

Lemma initializeProblemIfNecessary_configured (s : CDDP) :
  problem_configured s ->
  exists s' : CDDP,
    initializeProblemIfNecessary s = Returns tt s' []
    /\ initial_state_ s' = initial_state_ s
    /\ (initialized_ s = true -> s' = s)
    /\ (forall sys, initialized_ s = false -> system_ s = Some sys ->
          s' = initialized_context sys s).
Proof.
  intros ([sys Hsys] & Hobj & Hh).
  destruct (initialized_ s) eqn:Hinit.
  - exists s. unfold initializeProblemIfNecessary. rewrite Hinit.
    split; [done | split; [done | split; [done | intros ? N; discriminate N]]].
  - exists (initialized_context sys s).
    split; [by apply initializeProblemIfNecessary_returns |].
    split; [done |]. split; [intros N; discriminate N |].
    intros sys' _ Hsys'. congruence.
Qed.





(** ** Configuration errors *)

Lemma solve_after_initialization si ss (reg : gmap string SolverFactory) (name : string) (s s' : CDDP) :
  initializeProblemIfNecessary s = Returns tt s' [] ->
  solve si ss reg name s = run_solver si ss reg name s'.
Proof.
  intros H. unfold solve. rewrite (bind_Returns _ _ _ _ _ _ H).
  apply after_output_nil.
Qed.

Lemma run_solver_unknown si ss (reg : gmap string SolverFactory) (name : string) (s : CDDP) :
  createSolver reg name = None ->
  run_solver si ss reg name s =
  Returns (unknown_solver_solution name) (set_solver_ None s)
          (if verbose (options_ s) then [(cout, not_found_line reg name)] else []).
Proof.
  intros H. unfold run_solver, bind, modify, gets. rewrite H.
  cbn [after_output solver_ set_solver_ options_ verbose].
  destruct (verbose (options_ s));
    rewrite !after_output_nil; unfold when, print, ret; reflexivity.
Qed.


(** C4, as stated, fails: with a horizon of zero, [solve] raises nothing; the
    initialization completes with X of length 1 and U empty, and the call
    returns a solution record. *)
Lemma zero_horizon_is_accepted :
  let s := zero_horizon_problem in
  horizon_ s = 0 /\
  exists s' : CDDP,
    solve idle_initialize idle_solve ∅ "NoSuchSolver" s =
    Returns (unknown_solver_solution "NoSuchSolver") s' []
    /\ X_ s' = [[1%Q]] /\ U_ s' = [].
Proof.
  cbv zeta. split; [reflexivity |].
  exists (set_solver_ None (initialized_context unit_system zero_horizon_problem)).
  split; [| split; reflexivity].
  rewrite (solve_after_initialization _ _ _ _ _
             (initialized_context unit_system zero_horizon_problem)).
  - by rewrite run_solver_unknown.
  - apply initializeProblemIfNecessary_returns; [done | done | by eexists | done].
Qed.

(** C4, amended: on a problem that is not yet initialized, [solve] raises a
    configuration error at once when the dynamics model is missing or when
    the objective is missing, before anything is printed or any strategy is
    created, and the context at the throw is the context before the call. A
    zero horizon is not among the configuration errors: with dynamics and
    objective set, the initialization completes with X of length 1 and U
    empty, and [solve] goes on to the strategy. *)
Theorem configuration_errors si ss (reg : gmap string SolverFactory) (name : string)
    (s : CDDP) :
  initialized_ s = false ->
  (system_ s = None \/ objective_ s = None ->
   exists what : string,
     solve si ss reg name s = Throws (runtime_error what) s []
     /\ initializeProblemIfNecessary s = Throws (runtime_error what) s [])
  /\ (is_Some (system_ s) -> is_Some (objective_ s) -> horizon_ s = 0 ->
      exists s' : CDDP,
        initializeProblemIfNecessary s = Returns tt s' []
        /\ X_ s' = [initial_state_ s] /\ U_ s' = []
        /\ solve si ss reg name s = run_solver si ss reg name s').
Proof.
  intros Hinit. split.
  - intros Hmissing.
    assert (exists what, initializeProblemIfNecessary s = Throws (runtime_error what) s [])
      as [what Hthrow].
    { unfold initializeProblemIfNecessary. rewrite Hinit.
      destruct (system_ s) as [sys |]; [| by eexists].
      destruct Hmissing as [N | ->]; [discriminate N | by eexists]. }
    exists what. split; [| done].
    unfold solve. by apply bind_Throws.
  - intros [sys Hsys] Hobj Hzero.
    assert (Hh : 0 <= horizon_ s) by lia.
    pose proof (initializeProblemIfNecessary_returns s sys Hinit Hsys Hobj Hh) as Hrun.
    exists (initialized_context sys s). split; [done |].
    pose proof (sized_X_length (sys_state_dim sys) s Hh) as HlenX.
    pose proof (sized_U_length (sys_control_dim sys) s Hh) as HlenU.
    rewrite Hzero in HlenX, HlenU.
    split; [| split; [| by apply solve_after_initialization]].
    + change (initial_state_ s :: tail (sized_X (sys_state_dim sys) s) = [initial_state_ s]).
      destruct (sized_X (sys_state_dim sys) s) as [| x0 [| x1 rest]]; by try discriminate.
    + change (sized_U (sys_control_dim sys) s = []).
      by apply nil_length_inv.
Qed.

Lemma configuration_errors_witness :
  (exists what : string,
     solve idle_initialize idle_solve ∅ "IPDDP" systemless_problem =
     Throws (runtime_error what) systemless_problem [])
  /\ (exists s' : CDDP,
        initializeProblemIfNecessary zero_horizon_problem = Returns tt s' []
        /\ X_ s' = [[1%Q]] /\ U_ s' = []).
Proof.
  split.
  - destruct (configuration_errors idle_initialize idle_solve ∅ "IPDDP" systemless_problem)
      as [Hraise _]; [done |].
    destruct Hraise as (what & H & _); [by left |]. by exists what.
  - destruct (configuration_errors idle_initialize idle_solve ∅ "IPDDP" zero_horizon_problem)
      as [_ Hzero]; [done |].
    destruct Hzero as (s' & Hrun & HX & HU & _); [by eexists | by eexists | done |].
    by exists s'.
Defined.

(** ** Unknown solver *)





(** ** Initial trajectory *)

Lemma setInitialTrajectory_runs (X U : list VectorXd) (s : CDDP) :
  setInitialTrajectory X U s =
  Returns tt
    (match X with
     | [] => set_U_ U (set_X_ X s)
     | x0 :: _ => set_initial_state_ x0 (set_U_ U (set_X_ X s))
     end)
    (if trajectory_mismatch X U s then [(cerr, trajectory_warning)] else []).
Proof.
  unfold setInitialTrajectory, bind, gets, modify, when, print, ret.
  destruct (trajectory_mismatch X U s), X; reflexivity.
Qed.

Lemma size_t_of_int_neq (n len : Z) :
  int_range n -> 0 <= len < 2 ^ 63 -> len <> n -> len <> size_t_of_int n.
Proof.
  unfold int_range, size_t_of_int. intros Hn Hlen Hne.
  destruct (Z.neg_nonneg_cases n) as [Hneg | Hpos].
  - rewrite <- (Z_mod_plus_full n 1 (2 ^ 64)).
    rewrite Z.mod_small by lia. lia.
  - rewrite Z.mod_small by lia. done.
Qed.

(** C8: for trajectories whose lengths differ from horizon+1 or from horizon,
    [setInitialTrajectory] does not throw: it returns normally and installs X
    and U as the current trajectory; within the ranges of [int] and of a
    vector size, what it prints is the warning on [std::cerr] and nothing
    else. *)
Theorem setInitialTrajectory_mismatch (s : CDDP) (X U : list VectorXd) :
  Z.of_nat (length X) <> horizon_ s + 1 \/ Z.of_nat (length U) <> horizon_ s ->
  exists (s' : CDDP) (out : console),
    setInitialTrajectory X U s = Returns tt s' out
    /\ X_ s' = X /\ U_ s' = U
    /\ (int_range (horizon_ s) -> int_range (horizon_ s + 1) ->
        vector_size X -> vector_size U ->
        out = [(cerr, trajectory_warning)]).
Proof.
  intros Hmis. eexists _, _. split; [apply setInitialTrajectory_runs |].
  split; [by destruct X |]. split; [by destruct X |].
  intros Hh Hh1 HX HU.
  replace (trajectory_mismatch X U s) with true; [done |].
  symmetry. unfold trajectory_mismatch. apply orb_true_iff.
  unfold vector_size in *.
  destruct Hmis as [Hx | Hu]; [left | right];
    apply negb_true_iff, Z.eqb_neq, size_t_of_int_neq; try done; lia.
Qed.

Lemma setInitialTrajectory_mismatch_witness :
  exists s' : CDDP,
    setInitialTrajectory [[5%Q]] [] cold_problem
      = Returns tt s' [(cerr, trajectory_warning)]
    /\ X_ s' = [[5%Q]] /\ U_ s' = [].
Proof.
  destruct (setInitialTrajectory_mismatch cold_problem [[5%Q]] [])
    as (s' & out & Hrun & HX & HU & Hout).
  - left. by vm_compute.
  - exists s'. rewrite Hrun, Hout; [done | | | |]; by vm_compute.
Defined.

(** C9: called with a non-empty X, of any length, [setInitialTrajectory]
    overwrites the stored initial state with X[0], whatever it was before;
    the initialization that opens a following [solve] on a configured
    problem then leaves X[0] and the initial state equal to that X[0], and
    the strategy is run from that context. *)
Theorem setInitialTrajectory_sets_initial_state (s : CDDP) (x0 : VectorXd)
    (rest U : list VectorXd) :
  exists (s1 : CDDP) (out : console),
    setInitialTrajectory (x0 :: rest) U s = Returns tt s1 out
    /\ initial_state_ s1 = x0
    /\ (problem_configured s ->
        exists s2 : CDDP,
          initializeProblemIfNecessary s1 = Returns tt s2 []
          /\ X_ s2 !! 0%nat = Some x0
          /\ initial_state_ s2 = x0
          /\ forall si ss (reg : gmap string SolverFactory) (name : string),
               solve si ss reg name s1 = run_solver si ss reg name s2).
Proof.
  eexists _, _. split; [apply setInitialTrajectory_runs |].
  set (s1 := set_initial_state_ x0 (set_U_ U (set_X_ (x0 :: rest) s))).
  split; [done |]. intros Hconf.
  assert (Hconf1 : problem_configured s1) by done.
  destruct (initializeProblemIfNecessary_configured s1 Hconf1)
    as (s2 & Hrun & Hx0 & Hdone & Hfresh).
  exists s2. split; [done |]. split; [| split; [done |]].
  - destruct (initialized_ s1) eqn:Hinit.
    + by rewrite (Hdone eq_refl).
    + destruct Hconf1 as ([sys Hsys] & _).
      by rewrite (Hfresh sys eq_refl Hsys).
  - intros. by apply solve_after_initialization.
Qed.

Lemma setInitialTrajectory_sets_initial_state_witness :
  exists (s1 s2 : CDDP) (out : console),
    setInitialTrajectory [[5%Q]] [] cold_problem = Returns tt s1 out
    /\ initializeProblemIfNecessary s1 = Returns tt s2 []
    /\ X_ s2 !! 0%nat = Some [5%Q].
Proof.
  destruct (setInitialTrajectory_sets_initial_state cold_problem [5%Q] [] [])
    as (s1 & out & Hrun & _ & Hnext).
  destruct Hnext as (s2 & Hinit & HX & _).
  - split; [by eexists | split; [by eexists | done]].
  - by exists s1, s2, out.
Defined.

(** ** Constraint store *)

Lemma dual_dim_sum_empty : dual_dim_sum ∅ = 0.
Proof. apply map_fold_empty. Qed.

Lemma dual_dim_sum_insert (m : gmap string Constraint) (name : string) (c : Constraint) :
  m !! name = None -> dual_dim_sum (<[name := c]> m) = dual_dim_sum m + getDualDim c.
Proof.
  intros Hfresh. unfold dual_dim_sum.
  rewrite map_fold_insert_L; [done | | done].
  intros. lia.
Qed.

Lemma dual_dim_sum_delete (m : gmap string Constraint) (name : string) (c : Constraint) :
  m !! name = Some c -> dual_dim_sum (delete name m) = dual_dim_sum m - getDualDim c.
Proof.
  intros Hin. rewrite <- (insert_delete_id m name c Hin) at 2.
  rewrite dual_dim_sum_insert by apply lookup_delete_eq. lia.
Qed.

Lemma addPathConstraint_runs (name : string) (c : Constraint) (s : CDDP) :
  addPathConstraint name (Some c) s =
  Returns tt
    (set_initialized_ false
       (set_total_dual_dim_ (total_dual_dim_ s + getDualDim c)
          (set_path_constraint_set_ (<[name := c]> (path_constraint_set_ s)) s))) [].
Proof. reflexivity. Qed.

Lemma addTerminalConstraint_runs (name : string) (c : Constraint) (s : CDDP) :
  addTerminalConstraint name (Some c) s =
  Returns tt
    (set_initialized_ false
       (set_total_dual_dim_ (total_dual_dim_ s + getDualDim c)
          (set_terminal_constraint_set_ (<[name := c]> (terminal_constraint_set_ s)) s))) [].
Proof. reflexivity. Qed.

(** Away from re-used names the store keeps its invariant. *)
Lemma constraint_store_fresh_names (s : CDDP) (name : string) (c : Constraint) :
  dual_dims_agree s ->
  (path_constraint_set_ s !! name = None ->
   exists s', addPathConstraint name (Some c) s = Returns tt s' []
     /\ total_dual_dim_ s' = total_dual_dim_ s + getDualDim c
     /\ dual_dims_agree s' /\ initialized_ s' = false)
  /\ (terminal_constraint_set_ s !! name = None ->
      exists s', addTerminalConstraint name (Some c) s = Returns tt s' []
        /\ total_dual_dim_ s' = total_dual_dim_ s + getDualDim c
        /\ dual_dims_agree s' /\ initialized_ s' = false)
  /\ (path_constraint_set_ s !! name = Some c ->
      exists s', removePathConstraint name s = Returns true s' []
        /\ total_dual_dim_ s' = total_dual_dim_ s - getDualDim c
        /\ dual_dims_agree s' /\ initialized_ s' = false)
  /\ (terminal_constraint_set_ s !! name = Some c ->
      exists s', removeTerminalConstraint name s = Returns true s' []
        /\ total_dual_dim_ s' = total_dual_dim_ s - getDualDim c
        /\ dual_dims_agree s' /\ initialized_ s' = false)
  /\ (path_constraint_set_ s !! name = None ->
      removePathConstraint name s = Returns false s [])
  /\ (terminal_constraint_set_ s !! name = None ->
      removeTerminalConstraint name s = Returns false s []).
Proof.
  unfold dual_dims_agree. intros Hinv. split_and!.
  - intros Hfresh. eexists. split; [apply addPathConstraint_runs |].
    cbn. rewrite dual_dim_sum_insert by done. split_and!; [done | lia | done].
  - intros Hfresh. eexists. split; [apply addTerminalConstraint_runs |].
    cbn. rewrite dual_dim_sum_insert by done. split_and!; [done | lia | done].
  - intros Hin. unfold removePathConstraint. rewrite Hin. eexists. split; [done |].
    cbn. rewrite (dual_dim_sum_delete _ _ _ Hin). split_and!; [done | lia | done].
  - intros Hin. unfold removeTerminalConstraint. rewrite Hin. eexists. split; [done |].
    cbn. rewrite (dual_dim_sum_delete _ _ _ Hin). split_and!; [done | lia | done].
  - intros Hnone. unfold removePathConstraint. by rewrite Hnone.
  - intros Hnone. unfold removeTerminalConstraint. by rewrite Hnone.
Qed.

(** C6: the invariant does not hold on the code. Adding a constraint of dual
    dimension 2 and then one of dimension 3 under the same name leaves a
    store that holds the second constraint alone, of total dimension 3,
    while total_dual_dim is 5: the add overwrites the entry and does not
    take the replaced constraint's dimension out of the counter. *)
Theorem readded_constraint_counted_twice :
  exists s' : CDDP,
    add_twice cold_problem = Returns tt s' []
    /\ path_constraint_set_ s' = {["limit" := rows 3]}
    /\ terminal_constraint_set_ s' = ∅
    /\ total_dual_dim_ s' = 5
    /\ dual_dim_sum (path_constraint_set_ s') + dual_dim_sum (terminal_constraint_set_ s') = 3
    /\ ~ dual_dims_agree s'.
Proof.
  pose (s1 := set_initialized_ false
                (set_total_dual_dim_ (total_dual_dim_ cold_problem + getDualDim (rows 2))
                   (set_path_constraint_set_
                      (<["limit" := rows 2]> (path_constraint_set_ cold_problem))
                      cold_problem))).
  pose (s2 := set_initialized_ false
                (set_total_dual_dim_ (total_dual_dim_ s1 + getDualDim (rows 3))
                   (set_path_constraint_set_
                      (<["limit" := rows 3]> (path_constraint_set_ s1)) s1))).
  assert (Hrun : add_twice cold_problem = Returns tt s2 []).
  { unfold add_twice.
    rewrite (bind_Returns _ _ _ _ _ _ (addPathConstraint_runs "limit" (rows 2) cold_problem)).
    rewrite after_output_nil. apply addPathConstraint_runs. }
  assert (Hpath : path_constraint_set_ s2 = {["limit" := rows 3]}).
  { apply (insert_insert_eq (M := gmap string)). }
  assert (Hterm : terminal_constraint_set_ s2 = ∅) by reflexivity.
  assert (Htotal : total_dual_dim_ s2 = 5) by reflexivity.
  assert (Hsum : dual_dim_sum (path_constraint_set_ s2)
                 + dual_dim_sum (terminal_constraint_set_ s2) = 3).
  { rewrite Hpath, Hterm, dual_dim_sum_empty. unfold dual_dim_sum.
    rewrite map_fold_singleton. reflexivity. }
  exists s2. split; [exact Hrun |]. split; [exact Hpath |]. split; [exact Hterm |].
  split; [exact Htotal |]. split; [exact Hsum |].
  unfold dual_dims_agree. rewrite Hsum, Htotal. discriminate.
Qed.

(** ** Solver registry *)

Lemma bind_ext {A B} (m : M A) (k k' : A -> M B) (s : CDDP) :
  (forall a s', k a s' = k' a s') -> bind m k s = bind m k' s.
Proof. intros H. unfold bind. destruct (m s); by rewrite ?H. Qed.

Lemma run_solver_found si ss (reg : gmap string SolverFactory) (name : string)
    (algorithm : ISolverAlgorithm) (s : CDDP) :
  createSolver reg name = Some algorithm ->
  run_solver si ss reg name s =
  (modify (set_solver_ (Some algorithm)) ;;; si algorithm ;;; ss algorithm) s.
Proof.
  intros H. unfold run_solver. rewrite H.
  unfold bind at 1 3. unfold modify.
  unfold bind at 1. unfold gets. cbn [solver_ set_solver_].
  by rewrite after_output_nil.
Qed.

Lemma isSolverRegistered_spec (reg : gmap string SolverFactory) (name : string) :
  isSolverRegistered reg name = true <-> is_Some (reg !! name).
Proof. unfold isSolverRegistered. apply bool_decide_eq_true. Qed.

Lemma builtin_solver_known (name : string) :
  name ∈ builtin_names -> is_Some (builtin_solver name).
Proof.
  unfold builtin_names. rewrite !elem_of_cons, elem_of_nil.
  intros [-> | [-> | [-> | [-> | [-> | [-> | [-> | [-> | []]]]]]]]]; by eexists.
Qed.

(** C10: [createSolver] looks in the external registry first, so a factory
    registered under a name, a built-in one such as "IPDDP" included, is
    what a later [solve] of that name creates, initializes and runs, also
    after other names are registered; registering a name again replaces its
    factory; [isSolverRegistered] answers for external registrations only,
    false for a built-in name that was not registered, although
    [createSolver] still finds the built-in. *)
Theorem registry_shadows_builtins si ss (reg : gmap string SolverFactory)
    (name : string) (factory : SolverFactory) :
  createSolver (registerSolver name factory reg) name = factory tt
  /\ (forall (other : string) (factory' : SolverFactory),
        other <> name ->
        createSolver (registerSolver other factory' (registerSolver name factory reg)) name
        = factory tt)
  /\ (forall (reg' : gmap string SolverFactory) (algorithm : ISolverAlgorithm) (s : CDDP),
        reg' !! name = Some factory -> factory tt = Some algorithm ->
        solve si ss reg' name s =
        (initializeProblemIfNecessary ;;;
         modify (set_solver_ (Some algorithm)) ;;;
         si algorithm ;;; ss algorithm) s)
  /\ (forall factory' : SolverFactory,
        registerSolver name factory' (registerSolver name factory reg)
        = registerSolver name factory' reg)
  /\ (isSolverRegistered reg name = true <-> is_Some (reg !! name))
  /\ (forall builtin : string,
        builtin ∈ builtin_names -> reg !! builtin = None ->
        isSolverRegistered reg builtin = false /\
        createSolver reg builtin = builtin_solver builtin /\
        is_Some (builtin_solver builtin)).
Proof.
  split_and!.
  - unfold createSolver, registerSolver. by rewrite lookup_insert_eq.
  - intros other factory' Hne. unfold createSolver, registerSolver.
    by rewrite lookup_insert_ne, lookup_insert_eq.
  - intros reg' algorithm s Hreg Halg. unfold solve. apply bind_ext.
    intros _ s'. apply run_solver_found. unfold createSolver. by rewrite Hreg.
  - intros factory'. apply (insert_insert_eq (M := gmap string)).
  - apply isSolverRegistered_spec.
  - intros builtin Hin Hnone. split_and!.
    + apply not_true_is_false. rewrite isSolverRegistered_spec, Hnone.
      by intros [? ?].
    + unfold createSolver. by rewrite Hnone.
    + by apply builtin_solver_known.
Qed.

Lemma registry_shadows_builtins_witness :
  createSolver (registerSolver "IPDDP" plugin_factory ∅) "IPDDP"
    = Some (ExternalSolver "Plugin")
  /\ createSolver ∅ "IPDDP" = Some IPDDPSolver
  /\ isSolverRegistered ∅ "IPDDP" = false.
Proof.
  destruct (registry_shadows_builtins idle_initialize idle_solve ∅ "IPDDP" plugin_factory)
    as (Hshadow & _ & _ & _ & _ & Hbuiltin).
  destruct (Hbuiltin "IPDDP") as (Hreg & Hcreate & _).
  - unfold builtin_names. rewrite !elem_of_cons. tauto.
  - apply lookup_empty.
  - split; [exact Hshadow |]. split; [by rewrite Hcreate | exact Hreg].
Defined.
(** * Further properties of the solver context *)

(** ** Initialization, continued *)

Lemma bind_Returns_inv {A B} (m : M A) (k : A -> M B) (s s' : CDDP) (b : B) (out : console) :
  bind m k s = Returns b s' out ->
  exists (a : A) (s1 : CDDP) (o1 o2 : console),
    m s = Returns a s1 o1 /\ k a s1 = Returns b s' o2 /\ out = o1 ++ o2.
Proof.
  unfold bind. destruct (m s) as [a s1 o1 | |]; [| discriminate | discriminate].
  destruct (k a s1) as [b' s2 o2 | |] eqn:Hk; simpl; [| discriminate | discriminate].
  intros H. injection H as -> -> <-. by exists a, s1, o1, o2.
Qed.

Lemma initializeProblemIfNecessary_initialized (s s' : CDDP) (out : console) :
  initializeProblemIfNecessary s = Returns tt s' out -> initialized_ s' = true.
Proof.
  unfold initializeProblemIfNecessary.
  destruct (initialized_ s) eqn:Hinit.
  - intros H. injection H as <- _. done.
  - destruct (system_ s); [| discriminate]. destruct (objective_ s); [| discriminate].
    intros H.
    apply bind_Returns_inv in H as (? & s1 & ? & ? & _ & H & _).
    apply bind_Returns_inv in H as (? & s2 & ? & ? & _ & H & _).
    apply bind_Returns_inv in H as (? & s3 & ? & ? & _ & H & _).
    apply bind_Returns_inv in H as (? & s4 & ? & ? & _ & H & _).
    unfold modify in H. injection H as <- _. done.
Qed.

(** X1: an initialization that returned leaves the problem marked as
    initialized, so the next one returns at once and changes nothing; that
    also holds after [setObjective] (even with a null objective: no
    configuration error is raised any more), after [setOptions], and after
    [setInitialTrajectory], whose trajectory then stays as installed, whatever
    its length. *)
Theorem initialization_runs_once (s s' : CDDP) (out : console) :
  initializeProblemIfNecessary s = Returns tt s' out ->
  initializeProblemIfNecessary s' = Returns tt s' []
  /\ (forall o : option Objective,
        initializeProblemIfNecessary (setObjective o s') = Returns tt (setObjective o s') [])
  /\ (forall o : CDDPOptions,
        initializeProblemIfNecessary (setOptions o s') = Returns tt (setOptions o s') [])
  /\ (forall (X U : list VectorXd) (s'' : CDDP) (out' : console),
        setInitialTrajectory X U s' = Returns tt s'' out' ->
        initializeProblemIfNecessary s'' = Returns tt s'' [] /\ X_ s'' = X /\ U_ s'' = U).
Proof.
  intros H. apply initializeProblemIfNecessary_initialized in H.
  assert (Hskip : forall t, initialized_ t = true ->
                            initializeProblemIfNecessary t = Returns tt t []).
  { intros t Ht. unfold initializeProblemIfNecessary. by rewrite Ht. }
  split_and!.
  - by apply Hskip.
  - intros o. by apply Hskip.
  - intros o. by apply Hskip.
  - intros X U s'' out' Hset. rewrite setInitialTrajectory_runs in Hset.
    injection Hset as <- _. split; [| by destruct X].
    apply Hskip. by destruct X.
Qed.

Lemma initialization_runs_once_witness :
  exists s1 s2 : CDDP,
    initializeProblemIfNecessary cold_problem = Returns tt s1 []
    /\ setInitialTrajectory [[5%Q]] [] s1 = Returns tt s2 [(cerr, trajectory_warning)]
    /\ initializeProblemIfNecessary s2 = Returns tt s2 []
    /\ X_ s2 = [[5%Q]].
Proof.
  pose (s1 := initialized_context unit_system cold_problem).
  assert (H1 : initializeProblemIfNecessary cold_problem = Returns tt s1 []).
  { apply initializeProblemIfNecessary_returns; [done | done | by eexists | done]. }
  destruct (initialization_runs_once cold_problem s1 [] H1) as (_ & _ & _ & H).
  eexists s1, _. split; [exact H1 |].
  split; [apply setInitialTrajectory_runs |].
  destruct (H [[5%Q]] [] _ _ (setInitialTrajectory_runs _ _ _)) as (Hinit & HX & _).
  split; [exact Hinit | exact HX].
Defined.

(** X2: with dynamics and objective set, an initialization under a horizon
    below -1 throws [std::length_error] from the resize, after [X_] has been
    cleared; under a horizon of -1 it writes [X_[0]] of an empty vector,
    which is undefined. *)
Theorem negative_horizon_initialization (s : CDDP) :
  initialized_ s = false -> is_Some (system_ s) -> is_Some (objective_ s) ->
  (horizon_ s < -1 ->
   initializeProblemIfNecessary s = Throws length_error (set_X_ [] s) [])
  /\ (horizon_ s = -1 -> initializeProblemIfNecessary s = Undefined).
Proof.
  intros Hinit [sys Hsys] [obj Hobj].
  assert (Hcold : horizon_ s < 0 ->
                  X_mismatch s = true /\
                  preserve_trajectories_of s (sys_state_dim sys) (sys_control_dim sys) = false).
  { intros Hneg.
    assert (Hx : X_mismatch s = true).
    { unfold X_mismatch. destruct (X_ s) as [| x rest] eqn:HX; [done |].
      rewrite bool_decide_eq_false_2 by done. rewrite orb_false_l.
      apply negb_true_iff, Z.eqb_neq. cbn [length]. lia. }
    split; [done |].
    destruct (preserve_trajectories_of s _ _) eqn:Hp; [| done].
    apply preserve_trajectories_sized in Hp as [Hp _]. congruence. }
  unfold initializeProblemIfNecessary. rewrite Hinit, Hsys, Hobj.
  split; intros Hh; destruct Hcold as [Hx Hp]; try lia; rewrite Hp.
  - apply bind_Throws. unfold initialize_X. rewrite Hx.
    unfold vector_resize. cbn [horizon_ set_X_ X_].
    by destruct (Z.ltb_spec (horizon_ s + 1) 0); [| lia].
  - unfold bind at 1. unfold initialize_X. rewrite Hx.
    cbn [horizon_ set_X_ X_]. rewrite Hh. cbn.
    reflexivity.
Qed.

Lemma negative_horizon_initialization_witness :
  initializeProblemIfNecessary negative_horizon_problem
    = Throws length_error (set_X_ [] negative_horizon_problem) []
  /\ initializeProblemIfNecessary (setHorizon (-1) cold_problem) = Undefined.
Proof.
  split.
  - destruct (negative_horizon_initialization negative_horizon_problem) as [H _];
      [done | by eexists | by eexists |].
    apply H. by vm_compute.
  - destruct (negative_horizon_initialization (setHorizon (-1) cold_problem)) as [_ H];
      [done | by eexists | by eexists |].
    by apply H.
Defined.

(** X3: a stored trajectory whose lengths are horizon+1 and horizon is kept
    by the initialization, apart from X[0], which is overwritten by the
    initial state; this does not depend on [options.warm_start] nor on the
    dimensions of the stored vectors. *)
Theorem matching_trajectory_is_kept (s : CDDP) (sys : DynamicalSystem) :
  initialized_ s = false -> system_ s = Some sys -> is_Some (objective_ s) ->
  X_ s <> [] ->
  Z.of_nat (length (X_ s)) = horizon_ s + 1 ->
  Z.of_nat (length (U_ s)) = horizon_ s ->
  exists s' : CDDP,
    initializeProblemIfNecessary s = Returns tt s' []
    /\ X_ s' = initial_state_ s :: tail (X_ s)
    /\ U_ s' = U_ s.
Proof.
  intros Hinit Hsys Hobj HX HlenX HlenU.
  assert (Hh : 0 <= horizon_ s) by lia.
  exists (initialized_context sys s).
  split; [by apply initializeProblemIfNecessary_returns |].
  assert (Hx : X_mismatch s = false) by by apply X_mismatch_false.
  split.
  - change (initial_state_ s :: tail (sized_X (sys_state_dim sys) s)
            = initial_state_ s :: tail (X_ s)).
    unfold sized_X. by rewrite Hx.
  - change (sized_U (sys_control_dim sys) s = U_ s).
    unfold sized_U. destruct (U_mismatch s) eqn:Hu; [| done].
    destruct (U_ s) as [| u rest] eqn:HU.
    + simpl in HlenU. by rewrite <- HlenU.
    + exfalso. assert (U_mismatch s = false); [| congruence].
      apply U_mismatch_false. by rewrite HU.
Qed.

Lemma matching_trajectory_is_kept_witness :
  exists s' : CDDP,
    initializeProblemIfNecessary seeded_problem = Returns tt s' []
    /\ X_ s' = [[5]; [6]; [7]]%Q /\ U_ s' = [[1]; [1]]%Q
    /\ warm_start (options_ seeded_problem) = false.
Proof.
  destruct (matching_trajectory_is_kept seeded_problem unit_system)
    as (s' & Hrun & HX & HU); [done | done | by eexists | done | done | done |].
  by exists s'.
Defined.





(** ** Constraint store, continued *)

Lemma removePathConstraint_agrees (name : string) (s : CDDP) :
  dual_dims_agree s ->
  exists (found : bool) (s' : CDDP),
    removePathConstraint name s = Returns found s' []
    /\ path_constraint_set_ s' = delete name (path_constraint_set_ s)
    /\ terminal_constraint_set_ s' = terminal_constraint_set_ s
    /\ dual_dims_agree s'.
Proof.
  intros Hinv. unfold removePathConstraint.
  destruct (path_constraint_set_ s !! name) as [c |] eqn:Hin.
  - eexists _, _. split; [done |]. split; [done |]. split; [done |].
    unfold dual_dims_agree in *. cbn.
    rewrite (dual_dim_sum_delete _ _ _ Hin). lia.
  - exists false, s. split; [done |]. split; [| done].
    symmetry. by apply delete_id.
Qed.

Lemma removeTerminalConstraint_agrees (name : string) (s : CDDP) :
  dual_dims_agree s ->
  exists (found : bool) (s' : CDDP),
    removeTerminalConstraint name s = Returns found s' []
    /\ path_constraint_set_ s' = path_constraint_set_ s
    /\ terminal_constraint_set_ s' = delete name (terminal_constraint_set_ s)
    /\ dual_dims_agree s'.
Proof.
  intros Hinv. unfold removeTerminalConstraint.
  destruct (terminal_constraint_set_ s !! name) as [c |] eqn:Hin.
  - eexists _, _. split; [done |]. split; [done |]. split; [done |].
    unfold dual_dims_agree in *. cbn.
    rewrite (dual_dim_sum_delete _ _ _ Hin). lia.
  - exists false, s. split; [done |]. split; [done |]. split; [| done].
    symmetry. by apply delete_id.
Qed.

(** X6: from a context in which total_dual_dim is the sum of the dual
    dimensions held in the two stores, every sequence of add and remove
    calls, on either store, in which no add uses a name its store holds at
    that moment, returns normally and ends in a context where total_dual_dim
    is again that sum. *)
Theorem constraint_store_invariant (calls : list store_call) : forall s : CDDP,
  dual_dims_agree s ->
  adds_are_fresh calls (path_constraint_set_ s) (terminal_constraint_set_ s) ->
  exists s' : CDDP,
    store_calls_run calls s = Returns tt s' [] /\ dual_dims_agree s'.
Proof.
  induction calls as [| call calls IH]; intros s Hinv Hfresh.
  - by exists s.
  - cbn [store_calls_run].
    destruct call as [name c | name | name c | name]; cbn [adds_are_fresh] in Hfresh.
    + destruct Hfresh as [Hnone Hfresh].
      destruct (constraint_store_fresh_names s name c Hinv) as (Hadd & _).
      destruct (Hadd Hnone) as (s1 & Hrun & _ & Hinv1 & _).
      destruct (IH s1 Hinv1) as (s' & Hrest & Hinv').
      { rewrite addPathConstraint_runs in Hrun. injection Hrun as <-. exact Hfresh. }
      exists s'. split; [| done].
      cbn [store_call_run]. rewrite (bind_Returns _ _ _ _ _ _ Hrun).
      by rewrite after_output_nil.
    + destruct (removePathConstraint_agrees name s Hinv)
        as (found & s1 & Hrun & Hp & Ht & Hinv1).
      destruct (IH s1 Hinv1) as (s' & Hrest & Hinv').
      { by rewrite Hp, Ht. }
      exists s'. split; [| done].
      cbn [store_call_run].
      rewrite (bind_Returns _ _ _ s1 tt []).
      * by rewrite after_output_nil.
      * rewrite (bind_Returns _ _ _ _ _ _ Hrun). reflexivity.
    + destruct Hfresh as [Hnone Hfresh].
      destruct (constraint_store_fresh_names s name c Hinv) as (_ & Hadd & _).
      destruct (Hadd Hnone) as (s1 & Hrun & _ & Hinv1 & _).
      destruct (IH s1 Hinv1) as (s' & Hrest & Hinv').
      { rewrite addTerminalConstraint_runs in Hrun. injection Hrun as <-. exact Hfresh. }
      exists s'. split; [| done].
      cbn [store_call_run]. rewrite (bind_Returns _ _ _ _ _ _ Hrun).
      by rewrite after_output_nil.
    + destruct (removeTerminalConstraint_agrees name s Hinv)
        as (found & s1 & Hrun & Hp & Ht & Hinv1).
      destruct (IH s1 Hinv1) as (s' & Hrest & Hinv').
      { by rewrite Hp, Ht. }
      exists s'. split; [| done].
      cbn [store_call_run].
      rewrite (bind_Returns _ _ _ s1 tt []).
      * by rewrite after_output_nil.
      * rewrite (bind_Returns _ _ _ _ _ _ Hrun). reflexivity.
Qed.

Lemma constraint_store_invariant_witness :
  exists s' : CDDP,
    store_calls_run careful_calls cold_problem = Returns tt s' []
    /\ dual_dims_agree s'.
Proof.
  apply (constraint_store_invariant careful_calls cold_problem).
  - unfold dual_dims_agree.
    change (0 = dual_dim_sum ∅ + dual_dim_sum ∅). by rewrite dual_dim_sum_empty.
  - change (adds_are_fresh careful_calls ∅ ∅). unfold careful_calls.
    cbn [adds_are_fresh].
    split; [apply lookup_empty |]. split; [apply lookup_empty |].
    split; [| done].
    rewrite lookup_delete_ne by done. apply lookup_delete_eq.
Defined.

Lemma CDDP_ext (a b : CDDP) :
  initial_state_ a = initial_state_ b ->
  reference_state_ a = reference_state_ b ->
  reference_states_ a = reference_states_ b ->
  horizon_ a = horizon_ b ->
  timestep_ a = timestep_ b ->
  system_ a = system_ b ->
  objective_ a = objective_ b ->
  options_ a = options_ b ->
  initialized_ a = initialized_ b ->
  cost_ a = cost_ b ->
  merit_function_ a = merit_function_ b ->
  inf_pr_ a = inf_pr_ b ->
  inf_du_ a = inf_du_ b ->
  inf_comp_ a = inf_comp_ b ->
  alpha_pr_ a = alpha_pr_ b ->
  alpha_du_ a = alpha_du_ b ->
  regularization_ a = regularization_ b ->
  terminal_regularization_ a = terminal_regularization_ b ->
  total_dual_dim_ a = total_dual_dim_ b ->
  alphas_ a = alphas_ b ->
  X_ a = X_ b ->
  U_ a = U_ b ->
  path_constraint_set_ a = path_constraint_set_ b ->
  terminal_constraint_set_ a = terminal_constraint_set_ b ->
  solver_ a = solver_ b ->
  a = b.
Proof. destruct a, b. cbn. intros. by subst. Qed.

(** X7: adding a constraint under a name its store does not hold and then
    removing that name returns true and gives back the context as it was,
    total_dual_dim included, except that the problem is marked as not
    initialized. *)
Theorem add_then_remove_restores (s : CDDP) (name : string) (c : Constraint) :
  (path_constraint_set_ s !! name = None ->
   (addPathConstraint name (Some c) ;;; removePathConstraint name) s
   = Returns true (set_initialized_ false s) [])
  /\ (terminal_constraint_set_ s !! name = None ->
      (addTerminalConstraint name (Some c) ;;; removeTerminalConstraint name) s
      = Returns true (set_initialized_ false s) []).
Proof.
  split; intros Hnone.
  - rewrite (bind_Returns _ _ _ _ _ _ (addPathConstraint_runs name c s)).
    rewrite after_output_nil. unfold removePathConstraint.
    cbn [path_constraint_set_ set_initialized_ set_total_dual_dim_ set_path_constraint_set_
         total_dual_dim_].
    rewrite lookup_insert_eq. rewrite delete_insert_eq, (delete_id _ _ Hnone).
    f_equal. apply CDDP_ext; try reflexivity.
    cbn [total_dual_dim_ set_initialized_ set_path_constraint_set_ set_total_dual_dim_]. lia.
  - rewrite (bind_Returns _ _ _ _ _ _ (addTerminalConstraint_runs name c s)).
    rewrite after_output_nil. unfold removeTerminalConstraint.
    cbn [terminal_constraint_set_ set_initialized_ set_total_dual_dim_
         set_terminal_constraint_set_ total_dual_dim_].
    rewrite lookup_insert_eq. rewrite delete_insert_eq, (delete_id _ _ Hnone).
    f_equal. apply CDDP_ext; try reflexivity.
    cbn [total_dual_dim_ set_initialized_ set_terminal_constraint_set_ set_total_dual_dim_]. lia.
Qed.

Lemma add_then_remove_restores_witness :
  (addPathConstraint "limit" (Some (rows 2)) ;;; removePathConstraint "limit") cold_problem
  = Returns true (set_initialized_ false cold_problem) [].
Proof.
  destruct (add_then_remove_restores cold_problem "limit" (rows 2)) as [H _].
  apply H. apply lookup_empty.
Defined.

(** ** Step-size ladder, continued *)

Section LadderLength.
Variable ls : LineSearchOptions.

Lemma alpha_loop_length (fuel : nat) : forall (i : Z) (cur : Q),
  Z.of_nat fuel = ls_max_iterations ls - i ->
  (length (alpha_loop ls fuel i cur) <= fuel)%nat.
Proof.
  induction fuel as [| fuel IH]; intros i cur Hi; [done |].
  rewrite alpha_loop_S. cbn [length].
  destruct (Qltb _ _ && (i <? ls_max_iterations ls - 1)) eqn:Hbreak.
  - apply andb_true_iff in Hbreak as [_ Hlt]. apply Z.ltb_lt in Hlt.
    cbn [length]. lia.
  - specialize (IH (i + 1) (cur * step_reduction_factor ls)%Q). lia.
Qed.

Lemma build_alphas_length :
  (1 <= length (build_alphas ls))%nat
  /\ Z.of_nat (length (build_alphas ls)) <= Z.max 1 (ls_max_iterations ls).
Proof.
  unfold build_alphas.
  pose proof (alpha_loop_length (Z.to_nat (ls_max_iterations ls)) 0 (initial_step_size ls)) as H.
  destruct (alpha_loop ls _ 0 _) as [| a l] eqn:E.
  - cbn [length]. lia.
  - cbn [length] in *. split; [lia |].
    destruct (Z.le_gt_cases 0 (ls_max_iterations ls)) as [Hpos | Hneg].
    + assert (Hfuel : Z.of_nat (Z.to_nat (ls_max_iterations ls)) = ls_max_iterations ls - 0)
        by lia.
      specialize (H Hfuel). lia.
    + rewrite Z2Nat.nonpos in E by lia. discriminate E.
Qed.
End LadderLength.

(** X8: the ladder that [setOptions] installs has at least one and at most
    max(1, max_iterations) elements and its first element is the new
    alpha_pr; [setOptions] neither touches the regularization nor marks the
    problem for re-initialization. *)
Theorem ladder_length_bounded (o : CDDPOptions) (s : CDDP) :
  let s' := setOptions o s in
  (1 <= length (alphas_ s'))%nat
  /\ Z.of_nat (length (alphas_ s')) <= Z.max 1 (ls_max_iterations (line_search o))
  /\ head (alphas_ s') = Some (alpha_pr_ s')
  /\ options_ s' = o
  /\ regularization_ s' = regularization_ s
  /\ initialized_ s' = initialized_ s.
Proof.
  cbv zeta.
  destruct (build_alphas_length (line_search o)) as [H1 H2].
  split; [exact H1 |]. split; [exact H2 |]. split; [| done].
  change (head (build_alphas (line_search o)) = Some (initial_step_size (line_search o))).
  destruct (build_alphas_shape (line_search o)) as (geo & tail & -> & _). done.
Qed.

(** ** Regularization controller, continued *)

Lemma counter_step_monotone (c : counter) (s : CDDP) :
  let o := regularization (options_ s) in
  (1 <= update_factor o)%Q ->
  (0 <= counter_value c s)%Q ->
  (min_value o <= counter_value c s <= max_value o)%Q ->
  (0 <= counter_value c (counter_apply c Increase s))%Q
  /\ (counter_value c s <= counter_value c (counter_apply c Increase s) <= max_value o)%Q
  /\ (0 <= counter_value c (counter_apply c Decrease s))%Q
  /\ (min_value o <= counter_value c (counter_apply c Decrease s) <= counter_value c s)%Q.
Proof.
  intros o Hf Hpos [Hlo Hhi].
  rewrite counter_increase_value, counter_decrease_value. fold o.
  pose proof (scaled_up_ge (update_factor o) Hf (counter_value c s) Hpos) as Hup.
  pose proof (scaled_down_le (update_factor o) Hf (counter_value c s) Hpos) as [Hdown0 Hdown].
  destruct (std_min_spec (counter_value c s * update_factor o) (max_value o))
    as [[? ->] | [? ->]];
    destruct (std_max_spec (counter_value c s / update_factor o) (min_value o))
      as [[? ->] | [? ->]]; repeat split; lra.
Qed.

(** X9: with an update factor of at least 1 and 0 ≤ ρ, ρ_min ≤ ρ ≤ ρ_max, an
    increase does not lower ρ and a decrease does not raise it; an increase
    followed by a decrease ends between ρ_min and the value the increase
    left, and a decrease followed by an increase ends between the value the
    decrease left and ρ_max. The same holds for the terminal counter. *)
Theorem regularization_steps_monotone (c : counter) (s : CDDP) :
  let o := regularization (options_ s) in
  let rho := counter_value c s in
  let up := counter_value c (counter_apply c Increase s) in
  let down := counter_value c (counter_apply c Decrease s) in
  (1 <= update_factor o)%Q ->
  (0 <= rho)%Q ->
  (min_value o <= rho <= max_value o)%Q ->
  (rho <= up <= max_value o)%Q
  /\ (min_value o <= down <= rho)%Q
  /\ (min_value o
        <= counter_value c (counter_apply c Decrease (counter_apply c Increase s))
        <= up)%Q
  /\ (down
        <= counter_value c (counter_apply c Increase (counter_apply c Decrease s))
        <= max_value o)%Q.
Proof.
  intros o rho up down Hf Hpos Hrange.
  destruct (counter_step_monotone c s Hf Hpos Hrange) as (Hup0 & Hup & Hdown0 & Hdown).
  fold o rho up down in Hup0, Hup, Hdown0, Hdown.
  split; [exact Hup |]. split; [exact Hdown |]. split.
  - destruct (counter_step_monotone c (counter_apply c Increase s)) as (_ & _ & _ & H).
    + by rewrite counter_apply_options.
    + exact Hup0.
    + rewrite counter_apply_options. fold o up. lra.
    + rewrite counter_apply_options in H. exact H.
  - destruct (counter_step_monotone c (counter_apply c Decrease s)) as (_ & H & _).
    + by rewrite counter_apply_options.
    + exact Hdown0.
    + rewrite counter_apply_options. fold o down. lra.
    + rewrite counter_apply_options in H. exact H.
Qed.

Lemma regularization_steps_monotone_witness :
  let s := positive_regularization_state in
  (regularization_ s <= regularization_ (increaseRegularization s))%Q
  /\ (regularization_ (decreaseRegularization s) <= regularization_ s)%Q.
Proof.
  intros s.
  destruct (regularization_steps_monotone StageCounter s) as ([H1 _] & [_ H2] & _);
    [by vm_compute | by vm_compute | by vm_compute |].
  split; [exact H1 | exact H2].
Defined.

Lemma increase_times_S (c : counter) (n : nat) (s : CDDP) :
  increase_times c (S n) s = counter_apply c Increase (increase_times c n s).
Proof. reflexivity. Qed.

Lemma increase_times_options (c : counter) (n : nat) (s : CDDP) :
  options_ (increase_times c n s) = options_ s.
Proof.
  induction n as [| n IH]; [done |].
  by rewrite increase_times_S, counter_apply_options.
Qed.

Section Growth.
Variables (c : counter) (s : CDDP).
Let o := regularization (options_ s).
Let rho := counter_value c s.
Hypothesis factor_gt_1 : (1 < update_factor o)%Q.
Hypothesis rho_pos : (0 < rho)%Q.
Hypothesis rho_le_max : (rho <= max_value o)%Q.

Lemma increase_times_grows (n : nat) :
  let v := counter_value c (increase_times c n s) in
  (0 < v)%Q /\ (v <= max_value o)%Q /\
  ((v == max_value o)%Q \/
   (rho * (1 + inject_Z (Z.of_nat n) * (update_factor o - 1)) <= v)%Q).
Proof.
  induction n as [| n (Hpos & Hle & IH)]; cbv zeta.
  - split; [done |]. split; [done |]. right.
    change (inject_Z (Z.of_nat 0)) with 0%Q.
    change (counter_value c (increase_times c 0 s)) with rho. lra.
  - rewrite increase_times_S, counter_increase_value, increase_times_options. fold o.
    set (v := counter_value c (increase_times c n s)) in *. clearbody v.
    set (f := update_factor o) in *. set (M := max_value o) in *.
    clearbody f M.
    assert (Hn : (inject_Z (Z.of_nat (S n)) == inject_Z (Z.of_nat n) + 1)%Q).
    { rewrite Nat2Z.inj_succ. unfold Z.succ. by rewrite inject_Z_plus. }
    assert (0 <= inject_Z (Z.of_nat n))%Q.
    { change 0%Q with (inject_Z 0). rewrite <- Zle_Qle. lia. }
    assert (Hprod : (0 <= v * (f - 1))%Q)
      by (apply Qmult_le_0_compat; lra).
    assert (Hexp : (v * f == v + v * (f - 1))%Q) by ring.
    destruct (std_min_spec (v * f) M) as [[Hlt ->] | [Hge ->]].
    + split; [lra |]. split; [lra |]. by left.
    + split; [lra |]. split; [done |].
      destruct IH as [IH | IH].
      * left. lra.
      * right. rewrite Hn.
        set (k := inject_Z (Z.of_nat n)) in *. clearbody k.
        set (r := rho) in *. clearbody r.
        assert (H1 : (0 <= r * (k * (f - 1)))%Q)
          by (apply Qmult_le_0_compat; [lra | apply Qmult_le_0_compat; lra]).
        assert (H2 : (r * (f - 1) <= v * (f - 1))%Q)
          by (apply Qmult_le_compat_r; lra).
        lra.
Qed.

Lemma increases_to_limit_enough (n : nat) :
  (increases_to_limit rho (update_factor o) (max_value o) <= n)%nat ->
  (max_value o <= rho * (1 + inject_Z (Z.of_nat n) * (update_factor o - 1)))%Q.
Proof.
  intros Hn. unfold increases_to_limit in Hn.
  set (d := (rho * (update_factor o - 1))%Q) in *.
  assert (Hd : (0 < d)%Q) by (unfold d; nra).
  assert (Hceil : (max_value o / d <= inject_Z (Z.of_nat n))%Q).
  { eapply Qle_trans; [apply Qle_ceiling |]. rewrite <- Zle_Qle. lia. }
  assert (E : (max_value o == max_value o / d * d)%Q) by (field; lra).
  assert (Hmul : (max_value o / d * d <= inject_Z (Z.of_nat n) * d)%Q)
    by (apply Qmult_le_compat_r; lra).
  rewrite <- E in Hmul. unfold d in Hmul.
  set (k := inject_Z (Z.of_nat n)) in *. clearbody k.
  set (r := rho) in *. set (f := update_factor o) in *. set (M := max_value o) in *.
  clearbody r f M. lra.
Qed.
End Growth.

(** X10: with an update factor above 1 and 0 < ρ ≤ ρ_max, after
    ⌈ρ_max / (ρ · (update_factor − 1))⌉ increases, and after any larger
    number of them, ρ equals ρ_max and [isRegularizationLimitReached] answers
    true: a loop that increases until the limit is reached ends. The same
    holds for the terminal counter. *)
Theorem regularization_limit_is_reached (c : counter) (s : CDDP) (n : nat) :
  let o := regularization (options_ s) in
  (1 < update_factor o)%Q ->
  (0 < counter_value c s)%Q ->
  (counter_value c s <= max_value o)%Q ->
  (increases_to_limit (counter_value c s) (update_factor o) (max_value o) <= n)%nat ->
  counter_limit_reached c (increase_times c n s) = true
  /\ (counter_value c (increase_times c n s) == max_value o)%Q.
Proof.
  intros o Hf Hpos Hle Hn. subst o.
  destruct (increase_times_grows c s Hf Hpos Hle n) as (_ & Hmax & Hgrow).
  pose proof (increases_to_limit_enough c s Hf Hpos n Hn) as Henough.
  assert (Heq : (counter_value c (increase_times c n s)
                 == max_value (regularization (options_ s)))%Q).
  { destruct Hgrow as [Heq | Hlow]; [done |]. by apply Qle_antisym; [| lra]. }
  split; [| done].
  apply counter_limit_reached_spec. rewrite increase_times_options. lra.
Qed.

Lemma regularization_limit_is_reached_witness :
  isRegularizationLimitReached (increase_times StageCounter 8 positive_regularization_state)
  = true.
Proof.
  destruct (regularization_limit_is_reached StageCounter positive_regularization_state 8)
    as [H _]; [by vm_compute | by vm_compute | by vm_compute | vm_compute; lia |].
  exact H.
Defined.

(** ** Solver selection, continued *)

(** X11: for every [SolverType], when nothing is registered under its name,
    [createSolver] on that name yields the built-in strategy class of that
    type and [solve(SolverType)] initializes the problem and runs that
    strategy; the names of distinct types are distinct. *)
Theorem solver_type_selects_builtin (solver_type : SolverType)
    (reg : gmap string SolverFactory) :
  reg !! solverTypeToString solver_type = None ->
  createSolver reg (solverTypeToString solver_type) = Some (builtin_class solver_type)
  /\ solverTypeToString solver_type ∈ builtin_names
  /\ (forall other : SolverType,
        solverTypeToString other = solverTypeToString solver_type -> other = solver_type)
  /\ (forall si ss (s : CDDP),
        solve_by_type si ss reg solver_type s =
        (initializeProblemIfNecessary ;;;
         modify (set_solver_ (Some (builtin_class solver_type))) ;;;
         si (builtin_class solver_type) ;;; ss (builtin_class solver_type)) s).
Proof.
  intros Hnone.
  assert (Hcreate : createSolver reg (solverTypeToString solver_type)
                    = Some (builtin_class solver_type)).
  { unfold createSolver. rewrite Hnone. by destruct solver_type. }
  split; [exact Hcreate |]. split; [| split].
  - unfold builtin_names. destruct solver_type; cbn [solverTypeToString];
      rewrite !elem_of_cons; tauto.
  - intros other. by destruct other, solver_type.
  - intros si ss s. unfold solve_by_type, solve. apply bind_ext.
    intros _ s'. by apply run_solver_found.
Qed.

Lemma solver_type_selects_builtin_witness :
  createSolver ∅ (solverTypeToString IPDDP) = Some IPDDPSolver.
Proof.
  destruct (solver_type_selects_builtin IPDDP ∅) as [H _]; [apply lookup_empty |].
  exact H.
Defined.

Lemma key_le_total : Total (fun a b => Is_true (String.leb a b)).
Proof.
  intros a b. destruct (String.leb_total a b) as [H | H]; rewrite H; [by left | by right].
Qed.

(** X12: [getRegisteredSolvers] lists exactly the names for which
    [isSolverRegistered] is true, each once, in the order of the keys, as
    many as the registry holds, a name just registered included; a name it
    does not list is resolved by the built-in chain alone. *)
Theorem registered_solvers_listing (reg : gmap string SolverFactory) :
  (forall name : string,
     name ∈ getRegisteredSolvers reg <-> isSolverRegistered reg name = true)
  /\ NoDup (getRegisteredSolvers reg)
  /\ Sorted key_le (getRegisteredSolvers reg)
  /\ length (getRegisteredSolvers reg) = size reg
  /\ (forall (name : string) (factory : SolverFactory),
        name ∈ getRegisteredSolvers (registerSolver name factory reg))
  /\ (forall name : string,
        name ∉ getRegisteredSolvers reg -> createSolver reg name = builtin_solver name).
Proof.
  assert (Hperm : getRegisteredSolvers reg ≡ₚ elements (dom reg))
    by apply merge_sort_Permutation.
  assert (Hin : forall name, name ∈ getRegisteredSolvers reg <-> is_Some (reg !! name)).
  { intros name. by rewrite Hperm, elem_of_elements, elem_of_dom. }
  split_and!.
  - intros name. by rewrite Hin, isSolverRegistered_spec.
  - rewrite Hperm. apply NoDup_elements.
  - apply (@Sorted_merge_sort _ _ _ key_le_total).
  - rewrite Hperm. change (size (dom reg) = size reg). apply size_dom.
  - intros name factory.
    assert (Hperm' : getRegisteredSolvers (registerSolver name factory reg)
                     ≡ₚ elements (dom (registerSolver name factory reg)))
      by apply merge_sort_Permutation.
    rewrite Hperm', elem_of_elements, elem_of_dom.
    unfold registerSolver. rewrite lookup_insert_eq. by eexists.
  - intros name Hnot. unfold createSolver.
    destruct (reg !! name) as [f |] eqn:E; [| done].
    exfalso. apply Hnot, Hin. by eexists.
Qed.

(** ** Setters *)

(** X13: [setInitialState v] stores v as the initial state; it also
    overwrites X[0] when a trajectory is stored whose first state has the
    dimension of v, and leaves the trajectory alone otherwise. On a
    configured problem not yet initialized, the next initialization puts v
    in X[0] in either case; on a problem already initialized, a v of another
    dimension is not propagated: the next initialization returns at once and
    X[0] keeps its old value. *)
Theorem setInitialState_then_initialize (s : CDDP) (v : VectorXd) :
  let s1 := setInitialState v s in
  initial_state_ s1 = v
  /\ (forall (x0 : VectorXd) (rest : list VectorXd),
        X_ s = x0 :: rest -> length x0 = length v -> X_ s1 = v :: rest)
  /\ (forall (x0 : VectorXd) (rest : list VectorXd),
        X_ s = x0 :: rest -> length x0 <> length v -> X_ s1 = x0 :: rest)
  /\ (initialized_ s = false -> problem_configured s ->
      exists s2 : CDDP,
        initializeProblemIfNecessary s1 = Returns tt s2 [] /\ X_ s2 !! 0%nat = Some v)
  /\ (forall (x0 : VectorXd) (rest : list VectorXd),
        initialized_ s = true -> X_ s = x0 :: rest -> length x0 <> length v ->
        initializeProblemIfNecessary s1 = Returns tt s1 []
        /\ X_ s1 !! 0%nat = Some x0 /\ initial_state_ s1 = v).
Proof.
  cbv zeta.
  assert (Hsame : forall x0 rest, X_ s = x0 :: rest -> length x0 = length v ->
                                  X_ (setInitialState v s) = v :: rest).
  { intros x0 rest HX Hlen. unfold setInitialState.
    cbn [X_ set_initial_state_]. rewrite HX, Hlen, Z.eqb_refl. done. }
  assert (Hdiff : forall x0 rest, X_ s = x0 :: rest -> length x0 <> length v ->
                                  X_ (setInitialState v s) = x0 :: rest).
  { intros x0 rest HX Hlen. unfold setInitialState.
    cbn [X_ set_initial_state_]. rewrite HX.
    destruct (Z.eqb_spec (Z.of_nat (length x0)) (Z.of_nat (length v))); [lia | done]. }
  assert (Hinit : initial_state_ (setInitialState v s) = v).
  { unfold setInitialState. cbn [X_ set_initial_state_].
    destruct (X_ s) as [| x0 rest]; [done |].
    by destruct (negb _). }
  assert (Hflag : initialized_ (setInitialState v s) = initialized_ s).
  { unfold setInitialState. cbn [X_ set_initial_state_].
    destruct (X_ s) as [| x0 rest]; [done |].
    by destruct (negb _). }
  split; [exact Hinit |]. split; [exact Hsame |]. split; [exact Hdiff |]. split.
  - intros Huninit Hconf.
    assert (Hconf1 : problem_configured (setInitialState v s)).
    { unfold setInitialState. cbn [X_ set_initial_state_].
      destruct (X_ s) as [| x0 rest]; [done |]. by destruct (negb _). }
    destruct (initializeProblemIfNecessary_configured _ Hconf1)
      as (s2 & Hrun & _ & _ & Hfresh).
    exists s2. split; [done |].
    destruct Hconf1 as ([sys Hsys] & _).
    rewrite (Hfresh sys); [| congruence | done].
    cbn [initialized_context X_ set_initialized_ reset_scalars set_U_ set_X_
         set_cost_ set_merit_function_ set_inf_pr_ set_inf_du_ set_inf_comp_
         set_regularization_ set_terminal_regularization_].
    by rewrite Hinit.
  - intros x0 rest Hdone HX Hlen. split; [| split; [| done]].
    + unfold initializeProblemIfNecessary. by rewrite Hflag, Hdone.
    + by rewrite (Hdiff x0 rest HX Hlen).
Qed.

Lemma setInitialState_then_initialize_witness :
  X_ (setInitialState [9%Q] seeded_problem) = [[9]; [6]; [7]]%Q
  /\ X_ (setInitialState [9; 9]%Q seeded_problem) = [[5]; [6]; [7]]%Q.
Proof.
  destruct (setInitialState_then_initialize seeded_problem [9%Q]) as (_ & H & _).
  destruct (setInitialState_then_initialize seeded_problem [9; 9]%Q) as (_ & _ & H' & _).
  split.
  - by apply (H [5%Q] [[6%Q]; [7%Q]]).
  - by apply (H' [5%Q] [[6%Q]; [7%Q]]).
Defined.

Lemma back_default {A} (l : list A) : forall a d d' : A,
  List.last (a :: l) d = List.last (a :: l) d'.
Proof.
  induction l as [| b l IH]; intros a d d'; [done |].
  change (List.last (b :: l) d = List.last (b :: l) d'). apply IH.
Qed.

Lemma last_cons_back {A} (rest : list A) : forall r : A,
  last (r :: rest) = Some (List.last rest r).
Proof.
  induction rest as [| r' rest IH]; intros r; [done |].
  change (last (r' :: rest) = Some (List.last (r' :: rest) r)).
  rewrite IH. f_equal. destruct rest as [| r'' rest]; [done |].
  change (List.last (r'' :: rest) r' = List.last (r'' :: rest) r). apply back_default.
Qed.

Lemma setter_run_in_step (call : setter_call) (s : CDDP) :
  in_step s -> in_step (setter_run call s).
Proof.
  intros [Hladder Href]. destruct call; cbn [setter_run].
  - split; [exact Hladder | exact Href].
  - unfold setInitialState. cbn [X_ set_initial_state_].
    destruct (X_ s) as [| x0 rest]; [by split |]. by destruct (negb _).
  - split; [exact Hladder |]. by right.
  - split; [by destruct reference_states |]. unfold setReferenceStates.
    destruct reference_states as [| r rest]; [by left |]. right.
    cbn [reference_states_ reference_state_ set_reference_state_ set_objective_
         set_reference_states_].
    apply last_cons_back.
  - split; [exact Hladder | exact Href].
  - split; [exact Hladder | exact Href].
  - split; [reflexivity | exact Href].
  - split; [exact Hladder | exact Href].
Qed.

(** X14: after the constructor and every sequence of setter calls, the
    ladder is the one built from the current line-search options, and the
    reference trajectory is empty or ends with the current reference
    state. *)
Theorem setters_keep_in_step (calls : list setter_call)
    (x0 xref : VectorXd) (horizon : Z) (dt : Q) (system : option DynamicalSystem)
    (objective : option Objective) (options : CDDPOptions) :
  in_step (setters_run calls (CDDP_new x0 xref horizon dt system objective options)).
Proof.
  assert (Hnew : in_step (CDDP_new x0 xref horizon dt system objective options)).
  { split; [done | by left]. }
  revert Hnew. generalize (CDDP_new x0 xref horizon dt system objective options).
  induction calls as [| call calls IH]; intros s Hs; [done |].
  apply IH. by apply setter_run_in_step.
Qed.


(** * Interior-point strategy: properties *)

Lemma dual_slack_loop_S (o : IPDDPAlgorithmOptions) (mu : Q) (n i : nat)
    (g_val s_init y_init : list Q) :
  dual_slack_loop o mu (S n) i g_val s_init y_init =
  match g_val !! i with
  | None => None
  | Some g_i =>
    dual_slack_loop o mu n (S i) g_val
      (<[i := slack_of o g_i]> s_init)
      (<[i := dual_of o mu (slack_of o g_i)]> y_init)
  end.
Proof. reflexivity. Qed.

Lemma dual_slack_loop_app (o : IPDDPAlgorithmOptions) (mu : Q) (todo : list Q) :
  forall (g_done g_rest s_done s_junk y_done y_junk : list Q),
    length s_done = length g_done -> length y_done = length g_done ->
    length s_junk = length todo -> length y_junk = length todo ->
    dual_slack_loop o mu (length todo) (length g_done)
      (g_done ++ todo ++ g_rest) (s_done ++ s_junk) (y_done ++ y_junk)
    = Some (s_done ++ map (slack_of o) todo,
            y_done ++ map (fun g_i => dual_of o mu (slack_of o g_i)) todo).
Proof.
  induction todo as [| g_i todo IH];
    intros g_done g_rest s_done s_junk y_done y_junk Hs Hy Hsj Hyj.
  - destruct s_junk, y_junk; try discriminate. by rewrite !app_nil_r.
  - destruct s_junk as [| s0 s_junk], y_junk as [| y0 y_junk]; try discriminate.
    change (length (g_i :: todo)) with (S (length todo)).
    rewrite dual_slack_loop_S. rewrite <- app_comm_cons.
    rewrite (list_lookup_middle g_done (todo ++ g_rest) g_i (length g_done) eq_refl).
    rewrite !insert_app_r_alt by lia. rewrite Hs, Hy, Nat.sub_diag.
    cbn [insert list_insert].
    specialize (IH (g_done ++ [g_i]) g_rest
                   (s_done ++ [slack_of o g_i]) s_junk
                   (y_done ++ [dual_of o mu (slack_of o g_i)]) y_junk).
    rewrite !length_app, !Nat.add_1_r in IH. cbn [length] in IH.
    rewrite <- !(assoc_L (++)) in IH. cbn [app] in IH.
    rewrite IH; [| lia | lia | by injection Hsj | by injection Hyj].
    reflexivity.
Qed.

Lemma dual_slack_loop_short (o : IPDDPAlgorithmOptions) (mu : Q) (n : nat) :
  forall (i : nat) (g_val s_init y_init : list Q),
    (i <= length g_val < i + n)%nat ->
    dual_slack_loop o mu n i g_val s_init y_init = None.
Proof.
  induction n as [| n IH]; intros i g_val s_init y_init Hlen; [lia |].
  rewrite dual_slack_loop_S.
  destruct (g_val !! i) as [g_i |] eqn:Hi; [| done].
  apply lookup_lt_Some in Hi. apply IH. lia.
Qed.

Section DualSlack.
Variable o : IPDDPAlgorithmOptions.
Variable mu : Q.
Hypothesis slack_scale_pos : (0 < slack_var_init_scale o)%Q.
Hypothesis dual_scale_pos : (0 < dual_var_init_scale o)%Q.

Lemma slack_of_bounds (g_i : Q) :
  (0 < slack_of o g_i)%Q /\ (slack_var_init_scale o <= slack_of o g_i)%Q
  /\ (0 <= g_i + slack_of o g_i)%Q.
Proof.
  unfold slack_of.
  destruct (std_max_spec (slack_var_init_scale o) (- g_i)) as [[? ->] | [? ->]];
    repeat split; lra.
Qed.

Lemma dual_of_bounds (s_i : Q) :
  (0 < dual_of o mu s_i)%Q
  /\ (dual_var_init_scale o * (1 # 100) <= dual_of o mu s_i)%Q
  /\ (dual_of o mu s_i <= dual_var_init_scale o * 100)%Q.
Proof.
  unfold dual_of. cbv zeta.
  set (y_i := if Qltb s_i tiny then (mu / tiny)%Q else (mu / s_i)%Q). clearbody y_i.
  destruct (std_min_spec y_i (dual_var_init_scale o * 100)) as [[? ->] | [? ->]];
    match goal with
    | |- context [std_max ?a ?b] =>
      destruct (std_max_spec a b) as [[? ->] | [? ->]]
    end; repeat split; lra.
Qed.

Lemma dual_of_quotient (s_i : Q) :
  (tiny <= s_i)%Q ->
  (dual_var_init_scale o * (1 # 100) <= mu / s_i)%Q ->
  (mu / s_i <= dual_var_init_scale o * 100)%Q ->
  (dual_of o mu s_i == mu / s_i)%Q.
Proof.
  intros Hs Hlo Hhi. unfold dual_of. cbv zeta.
  rewrite (proj2 (Qltb_ge s_i tiny) Hs).
  destruct (std_min_spec (mu / s_i) (dual_var_init_scale o * 100)) as [[? ->] | [? ->]];
    [lra |].
  destruct (std_max_spec (dual_var_init_scale o * (1 # 100)) (mu / s_i))
    as [[? ->] | [? ->]]; [reflexivity | by apply Qle_antisym].
Qed.
End DualSlack.

(** X15: [initializeDualSlackVariables], the rows of one constraint at one
    time step. With positive slack and dual scales and a constraint value of
    [dual_dim] rows, every row gets a slack and a dual; a constraint that
    reports more rows than its value has reads outside the value. Each slack
    is positive, at least the slack scale, and makes [g_i + s_i >= 0]; each
    dual is positive and lies between 0.01 and 100 times the dual scale, and
    it is the quotient [mu / s_i] itself when the slack is at least 1e-12
    and that quotient lies inside the clamp. *)
Theorem initial_slack_and_dual_positive (o : IPDDPAlgorithmOptions) (mu : Q)
    (g_val : list Q) :
  (0 < slack_var_init_scale o)%Q -> (0 < dual_var_init_scale o)%Q ->
  exists s_init y_init : list Q,
    initial_slack_and_dual o mu (Z.of_nat (length g_val)) g_val = Some (s_init, y_init)
    /\ (forall dual_dim : Z, Z.of_nat (length g_val) < dual_dim ->
          initial_slack_and_dual o mu dual_dim g_val = None)
    /\ length s_init = length g_val /\ length y_init = length g_val
    /\ forall (i : nat) (g_i : Q), g_val !! i = Some g_i ->
         exists s_i y_i : Q,
           s_init !! i = Some s_i /\ y_init !! i = Some y_i
           /\ (0 < s_i)%Q /\ (slack_var_init_scale o <= s_i)%Q /\ (0 <= g_i + s_i)%Q
           /\ (0 < y_i)%Q
           /\ (dual_var_init_scale o * (1 # 100) <= y_i <= dual_var_init_scale o * 100)%Q
           /\ ((tiny <= s_i)%Q ->
               (dual_var_init_scale o * (1 # 100) <= mu / s_i <= dual_var_init_scale o * 100)%Q ->
               (y_i == mu / s_i)%Q).
Proof.
  intros Hslack Hdual.
  exists (map (slack_of o) g_val), (map (fun g_i => dual_of o mu (slack_of o g_i)) g_val).
  split.
  - unfold initial_slack_and_dual, Zero. rewrite Nat2Z.id.
    pose proof (dual_slack_loop_app o mu g_val [] [] []
                  (repeat 0%Q (length g_val)) [] (repeat 0%Q (length g_val))) as H.
    cbn [app length] in H. rewrite app_nil_r in H.
    apply H; by rewrite ?repeat_length.
  - split.
    { intros dual_dim Hshort. apply dual_slack_loop_short. lia. }
    split; [by rewrite length_map |]. split; [by rewrite length_map |].
    intros i g_i Hi.
    exists (slack_of o g_i), (dual_of o mu (slack_of o g_i)).
    split; [by rewrite list_lookup_fmap, Hi |].
    split; [by rewrite list_lookup_fmap, Hi |].
    destruct (slack_of_bounds o Hslack g_i) as (? & ? & ?).
    destruct (dual_of_bounds o mu Hdual (slack_of o g_i)) as (? & ? & ?).
    split; [done |]. split; [done |]. split; [done |]. split; [done |].
    split; [done |].
    intros Htiny [Hlo Hhi]. by apply dual_of_quotient.
Qed.

Lemma initial_slack_and_dual_positive_witness :
  exists s_init y_init : list Q,
    initial_slack_and_dual ipddp_options (1 # 10) 2 [(-1)%Q; 1 # 2] = Some (s_init, y_init)
    /\ length s_init = 2%nat /\ length y_init = 2%nat.
Proof.
  destruct (initial_slack_and_dual_positive ipddp_options (1 # 10) [(-1)%Q; 1 # 2])
    as (s_init & y_init & Hrun & _ & Hs & Hy & _); [by vm_compute | by vm_compute |].
  exists s_init, y_init. split; [exact Hrun |]. split; [exact Hs | exact Hy].
Defined.


Lemma dual_scaling_ge_1 (y_norm_l1 s_norm_l1 : Q) (m_plus_n : Z) :
  (1 <= dual_scaling y_norm_l1 s_norm_l1 m_plus_n)%Q
  /\ ((if 0 <? m_plus_n then ((y_norm_l1 + s_norm_l1) / inject_Z m_plus_n)%Q else 0%Q) <= 100
      -> dual_scaling y_norm_l1 s_norm_l1 m_plus_n == 1)%Q.
Proof.
  unfold dual_scaling. cbv zeta.
  set (x := if 0 <? m_plus_n then _ else _). clearbody x.
  destruct (std_max_spec 100 x) as [[H ->] | [H ->]]; split.
  - apply Qle_shift_div_l; [done | lra].
  - intros Hx. lra.
  - by vm_compute.
  - intros _. by vm_compute.
Qed.

Lemma norms_loop_sized (n : nat) : forall (t : nat) (y_traj s_traj : list (list Q))
    (acc : Q * Q * Z),
  (t + n <= length y_traj)%nat -> (t + n <= length s_traj)%nat ->
  is_Some (norms_loop n t y_traj s_traj acc).
Proof.
  induction n as [| n IH]; intros t y_traj s_traj acc Hy Hs; [by eexists |].
  cbn [norms_loop].
  destruct (lookup_lt_is_Some_2 y_traj t) as [y_vec ->]; [lia |].
  destruct (lookup_lt_is_Some_2 s_traj t) as [s_vec ->]; [lia |].
  destruct acc as [[y_norm s_norm] m]. apply IH; lia.
Qed.

Lemma norms_fold_sized (d : IPDDPSolverData) (horizon : Z) (names : list string) :
  stores_cover d horizon ->
  forall acc : Q * Q * Z,
    is_Some (fold_left (norms_of_constraint d horizon) names (Some acc)).
Proof.
  intros [HY HS]. induction names as [| name names IH]; intros acc; [by eexists |].
  cbn [fold_left norms_of_constraint].
  destruct (Y_ d !! name) as [y_traj |] eqn:Ey; [| apply IH].
  destruct (S_ d !! name) as [s_traj |] eqn:Es; [| apply IH].
  destruct (norms_loop_sized (Z.to_nat horizon) 0 y_traj s_traj acc) as [acc' ->].
  - specialize (HY _ _ Ey). lia.
  - specialize (HS _ _ Es). lia.
  - apply IH.
Qed.

(** X16: [computeScaledDualInfeasibility] throws when no dynamics model is
    set, also with an empty constraint set; with a model and no constraint it
    returns [inf_du_] itself; it returns when every stored dual and slack
    trajectory covers the horizon. Whenever it returns it prints nothing and
    leaves the context as it was, an infinite [inf_du_] stays infinite, and a
    finite non-negative one is scaled to a value between 0 and itself: the
    scaling factor is at least 1. *)
Theorem scaled_dual_infeasibility_bounds (constraint_set : gmap string Constraint)
    (d : IPDDPSolverData) (s : CDDP) :
  (system_ s = None ->
   computeScaledDualInfeasibility constraint_set d s
   = Throws (runtime_error system_not_set) s [])
  /\ (is_Some (system_ s) -> constraint_set = ∅ ->
      computeScaledDualInfeasibility constraint_set d s = Returns (inf_du_ s) s [])
  /\ (is_Some (system_ s) -> stores_cover d (horizon_ s) ->
      exists v : edouble,
        computeScaledDualInfeasibility constraint_set d s = Returns v s [])
  /\ (forall (v : edouble) (s' : CDDP) (out : console),
        computeScaledDualInfeasibility constraint_set d s = Returns v s' out ->
        s' = s /\ out = []
        /\ (inf_du_ s = PInf -> v = PInf)
        /\ (forall q : Q, inf_du_ s = Fin q -> (0 <= q)%Q ->
              exists q' : Q, v = Fin q' /\ (0 <= q' <= q)%Q)).
Proof.
  unfold computeScaledDualInfeasibility, bind, getControlDim.
  split; [| split; [| split]].
  - intros Hsys. by rewrite Hsys.
  - intros [sys Hsys] Hempty. rewrite Hsys.
    rewrite bool_decide_eq_true_2 by done. reflexivity.
  - intros [sys Hsys] Hcover. rewrite Hsys.
    destruct (bool_decide (constraint_set = ∅)); [by eexists |].
    destruct (norms_fold_sized d (horizon_ s) (keys_in_order constraint_set) Hcover
                (0%Q, 0%Q, 0)) as [[[y_norm s_norm] m] ->].
    by eexists.
  - intros v s' out. destruct (system_ s) as [sys |]; [| discriminate].
    destruct (bool_decide (constraint_set = ∅)).
    + unfold gets. cbn [after_output app]. intros H. injection H as <- <- <-.
      split; [done |]. split; [done |]. split; [done |].
      intros q Hq Hpos. exists q. split; [done | lra].
    + destruct (fold_left _ _ _) as [[[y_norm s_norm] m] |]; [| discriminate].
      cbn [after_output app]. intros H. injection H as <- <- <-.
      split; [done |]. split; [done |].
      destruct (dual_scaling_ge_1 y_norm s_norm (m + sys_control_dim sys * horizon_ s))
        as [Hsd _].
      set (sd := dual_scaling _ _ _) in *. clearbody sd.
      split.
      * intros ->. reflexivity.
      * intros q -> Hpos. exists (q / sd)%Q. split; [done |].
        assert (0 < sd)%Q by lra. split.
        -- apply Qle_shift_div_l; [done | lra].
        -- apply Qle_shift_div_r; [done |]. nra.
Qed.


Lemma adaptive_reduction_factor_le (b : BarrierOptions) (mu metric : Q) :
  (0 <= mu_update_factor b)%Q ->
  (0 <= adaptive_reduction_factor b mu metric <= mu_update_factor b)%Q.
Proof.
  intros Hf. unfold adaptive_reduction_factor. cbv zeta.
  repeat match goal with
         | |- context [if ?c then _ else _] => destruct c
         end; lra.
Qed.

Lemma std_min_le_l (a b : Q) : (std_min a b <= a)%Q.
Proof. destruct (std_min_spec a b) as [[? ->] | [? ->]]; lra. Qed.

Lemma clamp_floor (floor x mu factor : Q) :
  (floor <= std_max floor x)%Q
  /\ ((0 <= factor <= 1)%Q -> (0 <= mu)%Q -> (x <= factor * mu)%Q ->
      (std_max floor x <= Qmax mu floor)%Q).
Proof.
  destruct (std_max_spec floor x) as [[? ->] | [? ->]];
    (split; [lra |]); intros Hf Hmu Hlin;
    destruct (Q.max_spec mu floor) as [[? ->] | [? ->]]; nra.
Qed.

Lemma computeScaledDualInfeasibility_pure (constraint_set : gmap string Constraint)
    (d : IPDDPSolverData) (s s' : CDDP) (v : edouble) (out : console) :
  computeScaledDualInfeasibility constraint_set d s = Returns v s' out ->
  s' = s /\ out = [].
Proof.
  unfold computeScaledDualInfeasibility, bind, getControlDim.
  destruct (system_ s) as [sys |]; [| discriminate].
  destruct (bool_decide (constraint_set = ∅)).
  - unfold gets. cbn [after_output app]. intros H. by injection H as _ <- <-.
  - destruct (fold_left _ _ _) as [[[y_norm s_norm] m] |]; [| discriminate].
    cbn [after_output app]. intros H. by injection H as _ <- <-.
Qed.

Section BarrierUpdateProperties.
Variable pow : Q -> Q -> Q.
Variable resetFilter : IPDDPSolverData -> M IPDDPSolverData.
Hypothesis resetFilter_keeps_mu : keeps_mu resetFilter.

Lemma barrier_update_step (o : IPDDPAlgorithmOptions) (d d' : IPDDPSolverData)
    (s s' : CDDP) (out : console) (floor x : Q) :
  ((0 <= mu_update_factor (barrier o) <= 1)%Q -> (0 <= mu_ d)%Q ->
   (x <= mu_update_factor (barrier o) * mu_ d)%Q) ->
  resetFilter (set_mu_ (std_max floor x) d) s = Returns d' s' out ->
  (floor <= mu_ d')%Q
  /\ ((0 <= mu_update_factor (barrier o) <= 1)%Q -> (0 <= mu_ d)%Q ->
      (mu_ d' <= Qmax (mu_ d) floor)%Q).
Proof.
  intros Hlin Hrun. apply resetFilter_keeps_mu in Hrun as [-> _]. cbn [mu_ set_mu_].
  destruct (clamp_floor floor x (mu_ d) (mu_update_factor (barrier o))) as [H1 H2].
  split; [done |]. intros Hf Hmu. apply H2; [done | done | by apply Hlin].
Qed.

Lemma updateBarrierParameters_flag (o : IPDDPAlgorithmOptions)
    (constraint_set : gmap string Constraint) (d : IPDDPSolverData) (flag flag' : bool) :
  updateBarrierParameters pow resetFilter o constraint_set d flag
  = updateBarrierParameters pow resetFilter o constraint_set d flag'.
Proof. reflexivity. Qed.

Lemma updateBarrierParameters_core (o : IPDDPAlgorithmOptions)
    (constraint_set : gmap string Constraint) (d d' : IPDDPSolverData)
    (flag : bool) (s s' : CDDP) (out : console) :
  updateBarrierParameters pow resetFilter o constraint_set d flag s = Returns d' s' out ->
  let floor := barrier_floor o (tolerance (options_ s)) in
  let factor := mu_update_factor (barrier o) in
  (constraint_set = ∅ -> d' = d /\ s' = s)
  /\ (mu_ d' = mu_ d \/
      ((floor <= mu_ d')%Q /\
       ((0 <= factor <= 1)%Q -> (0 <= mu_ d)%Q -> (mu_ d' <= Qmax (mu_ d) floor)%Q))).
Proof.
  intros Hrun floor factor. revert Hrun.
  unfold updateBarrierParameters. cbv zeta.
  destruct (bool_decide (constraint_set = ∅)) eqn:Hempty.
  { unfold ret. intros H. injection H as <- <- _. split; [done | by left]. }
  apply bool_decide_eq_false in Hempty. intros Hrun. split; [done |]. revert Hrun.
  unfold floor, barrier_floor, factor.
  destruct (strategy (barrier o)).
  - intros Hrun. right.
    eapply barrier_update_step; [| exact Hrun]. intros. apply Qle_refl.
  - intros Hrun.
    apply bind_Returns_inv in Hrun as (v & s1 & o1 & o2 & Hscaled & Hrun & _).
    apply computeScaledDualInfeasibility_pure in Hscaled as [-> _].
    apply bind_Returns_inv in Hrun as (pr & s2 & ? & ? & Hpr & Hrun & _).
    unfold gets in Hpr. injection Hpr as _ <- _.
    apply bind_Returns_inv in Hrun as (comp & s3 & ? & ? & Hcomp & Hrun & _).
    unfold gets in Hcomp. injection Hcomp as _ <- _.
    destruct (edouble_leb _ _).
    + apply bind_Returns_inv in Hrun as (tol & s4 & ? & ? & Htol & Hrun & _).
      unfold gets in Htol. injection Htol as <- <- _.
      right. apply (barrier_update_step o d d' s s' _ _ _) in Hrun; [done |].
      intros. apply std_min_le_l.
    + unfold ret in Hrun. injection Hrun as <- _ _. by left.
  - intros Hrun.
    apply bind_Returns_inv in Hrun as (v & s1 & o1 & o2 & Hscaled & Hrun & _).
    apply computeScaledDualInfeasibility_pure in Hscaled as [-> _].
    apply bind_Returns_inv in Hrun as (pr & s2 & ? & ? & Hpr & Hrun & _).
    unfold gets in Hpr. injection Hpr as _ <- _.
    apply bind_Returns_inv in Hrun as (comp & s3 & ? & ? & Hcomp & Hrun & _).
    unfold gets in Hcomp. injection Hcomp as _ <- _.
    destruct (edouble_max _ _) as [metric |];
      [| unfold ret in Hrun; injection Hrun as <- _ _; by left].
    destruct (Qle_bool _ _);
      [| unfold ret in Hrun; injection Hrun as <- _ _; by left].
    apply bind_Returns_inv in Hrun as (tol & s4 & ? & ? & Htol & Hrun & _).
    unfold gets in Htol. injection Htol as <- <- _.
    right. apply (barrier_update_step o d d' s s' _ _ _) in Hrun; [done |].
    intros Hf Hmu. eapply Qle_trans; [apply std_min_le_l |].
    destruct (adaptive_reduction_factor_le (barrier o) (mu_ d) metric) as [_ Hred]; [lra |].
    by apply Qmult_le_compat_r.
Qed.

(** X17: [updateBarrierParameters], for a filter reset that does not assign
    the barrier parameter. Without constraints nothing changes. Otherwise the
    new barrier parameter is the old one or at least the floor of the
    strategy ([mu_min_value], tolerance / 10 or tolerance / 100); with an
    update factor in [0, 1] and a non-negative barrier parameter it is at most
    the larger of the old value and the floor, so it does not grow once the
    old value is at or above the floor. The argument [forward_pass_success]
    is not read. *)
Theorem barrier_update_floor (o : IPDDPAlgorithmOptions)
    (constraint_set : gmap string Constraint) (d d' : IPDDPSolverData)
    (forward_pass_success : bool) (s s' : CDDP) (out : console) :
  updateBarrierParameters pow resetFilter o constraint_set d forward_pass_success s
  = Returns d' s' out ->
  let floor := barrier_floor o (tolerance (options_ s)) in
  let factor := mu_update_factor (barrier o) in
  (constraint_set = ∅ -> d' = d /\ s' = s)
  /\ (mu_ d' = mu_ d \/ (floor <= mu_ d')%Q)
  /\ ((0 <= factor <= 1)%Q -> (0 <= mu_ d)%Q -> (mu_ d' <= Qmax (mu_ d) floor)%Q)
  /\ ((0 <= factor <= 1)%Q -> (0 <= mu_ d)%Q -> (floor <= mu_ d)%Q ->
      (mu_ d' <= mu_ d)%Q)
  /\ updateBarrierParameters pow resetFilter o constraint_set d
       (negb forward_pass_success) s = Returns d' s' out.
Proof.
  intros Hrun floor factor.
  destruct (updateBarrierParameters_core o constraint_set d d' _ s s' out Hrun)
    as [Hempty Hmu].
  fold floor factor in Hmu.
  assert (Hle : (0 <= factor <= 1)%Q -> (0 <= mu_ d)%Q ->
                (mu_ d' <= Qmax (mu_ d) floor)%Q).
  { intros Hf Hpos. destruct Hmu as [-> | [_ H]]; [apply Q.le_max_l | by apply H]. }
  split; [exact Hempty |]. split; [| split; [exact Hle | split]].
  - destruct Hmu as [? | [? _]]; [by left | by right].
  - intros Hf Hpos Hfloor. specialize (Hle Hf Hpos).
    rewrite Q.max_l in Hle by done. exact Hle.
  - by rewrite (updateBarrierParameters_flag o constraint_set d _ forward_pass_success).
Qed.
End BarrierUpdateProperties.

Lemma idle_resetFilter_keeps_mu : keeps_mu idle_resetFilter.
Proof.
  intros d d' s s' out Hrun. unfold idle_resetFilter, ret in Hrun.
  by injection Hrun as <- <- _.
Qed.

Lemma barrier_update_floor_witness :
  exists d' : IPDDPSolverData,
    updateBarrierParameters power_one idle_resetFilter ipddp_options one_limit
      fresh_data true cold_problem = Returns d' cold_problem []
    /\ (mu_ d' <= mu_ fresh_data)%Q.
Proof.
  assert (Hrun : updateBarrierParameters power_one idle_resetFilter ipddp_options one_limit
                   fresh_data true cold_problem
                 = Returns (set_mu_ ((1 # 5) * (1 # 10))%Q fresh_data) cold_problem []).
  { unfold updateBarrierParameters.
    rewrite bool_decide_eq_false_2 by apply map_non_empty_singleton. reflexivity. }
  eexists. split; [exact Hrun |].
  pose proof (barrier_update_floor power_one idle_resetFilter idle_resetFilter_keeps_mu
                _ _ _ _ _ _ _ _ Hrun) as H.
  cbv zeta in H. destruct H as (_ & _ & _ & H & _). clear Hrun.
  apply H; by vm_compute.
Defined.


Lemma size_t_of_int_small (n : Z) : 0 <= n < 2 ^ 64 -> size_t_of_int n = n.
Proof. intros H. unfold size_t_of_int. by apply Z.mod_small. Qed.

(** X18: the trajectory test of [IPDDPSolver::initialize] (cold start, lines
    716-719), evaluated on the context that [initializeProblemIfNecessary]
    leaves, for a horizon of at least one interval. The sizes of X and U
    pass, so the test is true exactly when the initial state has the state
    dimension of the model and the first control has its control dimension.
    For a context without a control trajectory whose initial state has the
    state dimension, the test is true: the branch that interpolates between
    the initial and the reference state (lines 721-742) is not entered.
    What [initialize] does after the test is not part of the statement. *)
Theorem cold_start_test_after_initialization (s : CDDP) (sys : DynamicalSystem) :
  initialized_ s = false -> system_ s = Some sys -> is_Some (objective_ s) ->
  1 <= horizon_ s -> int_range (horizon_ s + 1) ->
  exists (s1 : CDDP) (u0 : VectorXd) (rest : list VectorXd),
    initializeProblemIfNecessary s = Returns tt s1 []
    /\ U_ s1 = u0 :: rest
    /\ trajectory_provided (sys_state_dim sys) (sys_control_dim sys) s1
       = Some ((Z.of_nat (length (initial_state_ s)) =? sys_state_dim sys)
               && (Z.of_nat (length u0) =? sys_control_dim sys))
    /\ (Z.of_nat (length (initial_state_ s)) = sys_state_dim sys ->
        U_mismatch s = true -> 0 <= sys_control_dim sys ->
        trajectory_provided (sys_state_dim sys) (sys_control_dim sys) s1 = Some true).
Proof.
  intros Hinit Hsys Hobj Hh Hrange.
  assert (HX : exists tl, X_ (initialized_context sys s) = initial_state_ s :: tl
               /\ length tl = Z.to_nat (horizon_ s)).
  { exists (tail (sized_X (sys_state_dim sys) s)). split; [reflexivity |].
    pose proof (sized_X_length (sys_state_dim sys) s ltac:(lia)) as Hl.
    destruct (sized_X (sys_state_dim sys) s); [discriminate | by injection Hl]. }
  destruct HX as (tl & HX & Htl).
  assert (HU : exists u0 rest, U_ (initialized_context sys s) = u0 :: rest
               /\ length rest = Z.to_nat (horizon_ s - 1)
               /\ (U_mismatch s = true -> u0 = Zero (sys_control_dim sys))).
  { change (U_ (initialized_context sys s)) with (sized_U (sys_control_dim sys) s).
    pose proof (sized_U_length (sys_control_dim sys) s ltac:(lia)) as Hl.
    unfold sized_U in *. destruct (U_mismatch s).
    - destruct (Z.to_nat (horizon_ s)) as [| n] eqn:Hn; [lia |].
      exists (Zero (sys_control_dim sys)), (repeat (Zero (sys_control_dim sys)) n).
      split; [reflexivity |]. split; [| done]. rewrite repeat_length. lia.
    - destruct (U_ s) as [| u0 rest]; [cbn [length] in Hl; lia |].
      exists u0, rest. split; [reflexivity |]. split; [| done].
      cbn [length] in Hl. lia. }
  destruct HU as (u0 & rest & HU & Hrest & Hzero).
  assert (Htest : trajectory_provided (sys_state_dim sys) (sys_control_dim sys)
                    (initialized_context sys s)
                  = Some ((Z.of_nat (length (initial_state_ s)) =? sys_state_dim sys)
                          && (Z.of_nat (length u0) =? sys_control_dim sys))).
  { unfold trajectory_provided. rewrite HX, HU.
    change (horizon_ (initialized_context sys s)) with (horizon_ s).
    unfold int_range in Hrange.
    rewrite !size_t_of_int_small by lia.
    cbn [length]. rewrite Htl, Hrest.
    replace (Z.of_nat (S (Z.to_nat (horizon_ s))) =? horizon_ s + 1) with true
      by (symmetry; apply Z.eqb_eq; lia).
    replace (Z.of_nat (S (Z.to_nat (horizon_ s - 1))) =? horizon_ s) with true
      by (symmetry; apply Z.eqb_eq; lia).
    cbn [negb].
    by destruct (Z.of_nat (length (initial_state_ s)) =? sys_state_dim sys). }
  exists (initialized_context sys s), u0, rest.
  split; [apply initializeProblemIfNecessary_returns;
          [exact Hinit | exact Hsys | exact Hobj | lia] |].
  split; [exact HU |]. split; [exact Htest |].
  intros Hx0 HUm Hcd. rewrite Htest, Hx0, Z.eqb_refl, (Hzero HUm).
  unfold Zero. rewrite repeat_length, Z2Nat.id by lia. by rewrite Z.eqb_refl.
Qed.

Lemma cold_start_test_after_initialization_witness :
  exists s1 : CDDP,
    initializeProblemIfNecessary cold_problem = Returns tt s1 []
    /\ trajectory_provided 1 1 s1 = Some true.
Proof.
  destruct (cold_start_test_after_initialization cold_problem unit_system)
    as (s1 & u0 & rest & Hrun & _ & _ & Htest);
    [reflexivity | reflexivity | by eexists | by vm_compute | by vm_compute |].
  exists s1. split; [exact Hrun |]. apply Htest; [reflexivity | reflexivity | by vm_compute].
Defined.

(** X19: a horizon of zero intervals, which [initializeProblemIfNecessary]
    accepts, makes the trajectory test of [IPDDPSolver::initialize] undefined
    when the initial state has the dimension of the model: X and U have the
    sizes the test asks for, X_[0] has the right size, and the test goes on
    to read U_[0] of the empty control trajectory. *)
Theorem zero_horizon_cold_start_undefined (s : CDDP) (sys : DynamicalSystem) :
  initialized_ s = false -> system_ s = Some sys -> is_Some (objective_ s) ->
  horizon_ s = 0 ->
  Z.of_nat (length (initial_state_ s)) = sys_state_dim sys ->
  exists s1 : CDDP,
    initializeProblemIfNecessary s = Returns tt s1 []
    /\ X_ s1 = [initial_state_ s] /\ U_ s1 = []
    /\ trajectory_provided (sys_state_dim sys) (sys_control_dim sys) s1 = None
    /\ cold_start_trajectory (sys_state_dim sys) (sys_control_dim sys) s1 = Undefined.
Proof.
  intros Hinit Hsys Hobj Hh Hx0.
  exists (initialized_context sys s).
  split; [apply initializeProblemIfNecessary_returns;
          [exact Hinit | exact Hsys | exact Hobj | lia] |].
  assert (HX : X_ (initialized_context sys s) = [initial_state_ s]).
  { change (initial_state_ s :: tail (sized_X (sys_state_dim sys) s) = [initial_state_ s]).
    pose proof (sized_X_length (sys_state_dim sys) s ltac:(lia)) as Hl.
    rewrite Hh in Hl.
    destruct (sized_X (sys_state_dim sys) s) as [| x [| y rest]]; [discriminate | done |
      discriminate]. }
  assert (HU : U_ (initialized_context sys s) = []).
  { change (sized_U (sys_control_dim sys) s = []).
    pose proof (sized_U_length (sys_control_dim sys) s ltac:(lia)) as Hl.
    rewrite Hh in Hl. by destruct (sized_U (sys_control_dim sys) s). }
  assert (Hprov : trajectory_provided (sys_state_dim sys) (sys_control_dim sys)
                    (initialized_context sys s) = None).
  { unfold trajectory_provided. rewrite HX, HU.
    change (horizon_ (initialized_context sys s)) with (horizon_ s). rewrite Hh.
    cbn [length]. rewrite Hx0. change (size_t_of_int (0 + 1)) with 1.
    change (size_t_of_int 0) with 0. rewrite !Z.eqb_refl. reflexivity. }
  split; [exact HX |]. split; [exact HU |]. split; [exact Hprov |].
  unfold cold_start_trajectory. by rewrite Hprov.
Qed.

Lemma zero_horizon_cold_start_undefined_witness :
  exists s1 : CDDP,
    initializeProblemIfNecessary zero_horizon_problem = Returns tt s1 []
    /\ cold_start_trajectory 1 1 s1 = Undefined.
Proof.
  destruct (zero_horizon_cold_start_undefined zero_horizon_problem unit_system)
    as (s1 & Hrun & _ & _ & _ & Hundef);
    [reflexivity | reflexivity | by eexists | reflexivity | reflexivity |].
  exists s1. split; [exact Hrun | exact Hundef].
Defined.

(** ** Constraint storage *)

Lemma keys_in_order_elem {A} (m : gmap string A) (name : string) :
  name ∈ keys_in_order m <-> is_Some (m !! name).
Proof.
  unfold keys_in_order. rewrite merge_sort_Permutation, elem_of_elements.
  apply elem_of_dom.
Qed.

Lemma keys_in_order_empty {A} (m : gmap string A) : m = ∅ -> keys_in_order m = [].
Proof. intros ->. unfold keys_in_order. by rewrite dom_empty_L, elements_empty. Qed.

Lemma keys_in_order_nonempty {A} (m : gmap string A) :
  m <> ∅ -> exists name names, keys_in_order m = name :: names.
Proof.
  intros Hne. destruct (keys_in_order m) as [| name names] eqn:E; [| by eauto].
  exfalso. apply Hne. apply map_eq. intros k. rewrite lookup_empty.
  destruct (m !! k) eqn:Ek; [| done].
  assert (Hin : k ∈ keys_in_order m) by (apply keys_in_order_elem; by eexists).
  rewrite E in Hin. by apply elem_of_nil in Hin.
Qed.

Lemma vector_resize_fresh (horizon : Z) (v : list (list Q)) :
  0 <= horizon -> v = [] \/ v = fresh_trajectory horizon ->
  vector_resize horizon [] v = Some (fresh_trajectory horizon).
Proof.
  intros Hh Hv. unfold vector_resize. destruct (Z.ltb_spec horizon 0) as [Hn | Hn]; [lia |].
  f_equal. unfold fresh_trajectory in *. destruct Hv as [-> | ->].
  - rewrite firstn_nil. cbn [app length]. by rewrite Nat.sub_0_r.
  - rewrite repeat_length, Nat.sub_diag. cbn [repeat]. rewrite app_nil_r.
    apply firstn_all2. by rewrite repeat_length.
Qed.

Lemma storage_resize_fresh (horizon : Z) (name : string)
    (m : gmap string (list (list Q))) :
  0 <= horizon ->
  (forall k v, m !! k = Some v -> v = fresh_trajectory horizon) ->
  storage_resize horizon name m = Some (<[name := fresh_trajectory horizon]> m).
Proof.
  intros Hh Hm. unfold storage_resize. rewrite vector_resize_fresh; [done | done |].
  destruct (m !! name) as [v |] eqn:E; [right; by apply (Hm name) | by left].
Qed.

Lemma insert_fresh_uniform (horizon : Z) (name : string)
    (m : gmap string (list (list Q))) :
  (forall k v, m !! k = Some v -> v = fresh_trajectory horizon) ->
  forall k v, <[name := fresh_trajectory horizon]> m !! k = Some v ->
              v = fresh_trajectory horizon.
Proof.
  intros Hm k v. destruct (decide (name = k)) as [-> | Hne].
  - rewrite lookup_insert_eq. by intros [= <-].
  - rewrite lookup_insert_ne by done. apply Hm.
Qed.

Lemma lookup_after_inserts (horizon : Z) (name k : string) (names : list string)
    (m m' : gmap string (list (list Q))) :
  (forall k, m' !! k = if bool_decide (k ∈ names) then Some (fresh_trajectory horizon)
                       else <[name := fresh_trajectory horizon]> m !! k) ->
  m' !! k = if bool_decide (k ∈ name :: names) then Some (fresh_trajectory horizon)
            else m !! k.
Proof.
  intros ->. destruct (decide (k ∈ names)) as [Hin | Hnin].
  - rewrite !bool_decide_eq_true_2; [done | by right | done].
  - rewrite (bool_decide_eq_false_2 (k ∈ names)) by done.
    destruct (decide (name = k)) as [-> | Hne].
    + rewrite lookup_insert_eq, bool_decide_eq_true_2; [done | by left].
    + rewrite lookup_insert_ne by done. rewrite bool_decide_eq_false_2; [done |].
      intros [-> | H]%elem_of_cons; [done | done].
Qed.

Lemma storage_fold_fresh (horizon : Z) (names : list string) :
  0 <= horizon ->
  forall d0 : IPDDPSolverData,
    (forall k v, G_ d0 !! k = Some v -> v = fresh_trajectory horizon) ->
    (forall k v, Y_ d0 !! k = Some v -> v = fresh_trajectory horizon) ->
    (forall k v, S_ d0 !! k = Some v -> v = fresh_trajectory horizon) ->
    exists d1 : IPDDPSolverData,
      fold_left (storage_step horizon) names (Some d0) = Some d1
      /\ mu_ d1 = mu_ d0
      /\ (forall k, G_ d1 !! k = if bool_decide (k ∈ names)
                                 then Some (fresh_trajectory horizon) else G_ d0 !! k)
      /\ (forall k, Y_ d1 !! k = if bool_decide (k ∈ names)
                                 then Some (fresh_trajectory horizon) else Y_ d0 !! k)
      /\ (forall k, S_ d1 !! k = if bool_decide (k ∈ names)
                                 then Some (fresh_trajectory horizon) else S_ d0 !! k).
Proof.
  intros Hh. induction names as [| name names IH]; intros d0 HG HY HS.
  - exists d0. cbn [fold_left]. repeat split; intros k;
      rewrite bool_decide_eq_false_2; done || apply not_elem_of_nil.
  - cbn [fold_left storage_step].
    rewrite (storage_resize_fresh horizon name (G_ d0) Hh HG),
            (storage_resize_fresh horizon name (Y_ d0) Hh HY),
            (storage_resize_fresh horizon name (S_ d0) Hh HS).
    destruct (IH {| mu_ := mu_ d0;
                    G_ := <[name := fresh_trajectory horizon]> (G_ d0);
                    Y_ := <[name := fresh_trajectory horizon]> (Y_ d0);
                    S_ := <[name := fresh_trajectory horizon]> (S_ d0) |})
      as (d1 & Hrun & Hmu & HG1 & HY1 & HS1).
    + by apply insert_fresh_uniform.
    + by apply insert_fresh_uniform.
    + by apply insert_fresh_uniform.
    + exists d1. split; [exact Hrun |]. split; [exact Hmu |].
      split; [| split]; intros k; by eapply lookup_after_inserts.
Qed.

Lemma fresh_store_lookup (constraint_set : gmap string Constraint) (horizon : Z)
    (m : gmap string (list (list Q))) :
  (forall k, m !! k = if bool_decide (k ∈ keys_in_order constraint_set)
                      then Some (fresh_trajectory horizon) else (∅ : gmap string _) !! k) ->
  m = fresh_store constraint_set horizon.
Proof.
  intros Hm. apply map_eq. intros k. rewrite Hm. unfold fresh_store.
  rewrite lookup_fmap, lookup_empty.
  destruct (constraint_set !! k) as [c |] eqn:E.
  - rewrite bool_decide_eq_true_2; [done |]. apply keys_in_order_elem. by eexists.
  - rewrite bool_decide_eq_false_2; [done |].
    rewrite keys_in_order_elem, E. by intros [? ?].
Qed.

Lemma storage_step_None (horizon : Z) (names : list string) :
  fold_left (storage_step horizon) names None = None.
Proof. by induction names. Qed.

Lemma lookup_repeat {A} (x : A) (n : nat) : forall i : nat,
  (i < n)%nat -> repeat x n !! i = Some x.
Proof.
  induction n as [| n IH]; intros i Hi; [lia |].
  destruct i as [| i]; [done |]. cbn [repeat lookup list_lookup]. apply IH. lia.
Qed.

Lemma norms_loop_fresh (horizon : Z) (n : nat) : forall t : nat,
  (t + n <= Z.to_nat horizon)%nat ->
  norms_loop n t (fresh_trajectory horizon) (fresh_trajectory horizon) (0%Q, 0%Q, 0)
  = Some (0%Q, 0%Q, 0).
Proof.
  induction n as [| n IH]; intros t Ht; [done |].
  cbn [norms_loop]. unfold fresh_trajectory at 1 2.
  rewrite !lookup_repeat by lia.
  change (norms_loop n (S t) (fresh_trajectory horizon) (fresh_trajectory horizon)
            (0%Q, 0%Q, 0) = Some (0%Q, 0%Q, 0)).
  apply IH. lia.
Qed.

Lemma norms_fold_fresh (constraint_set : gmap string Constraint) (d : IPDDPSolverData)
    (horizon : Z) (names : list string) :
  Y_ d = fresh_store constraint_set horizon ->
  S_ d = fresh_store constraint_set horizon ->
  fold_left (norms_of_constraint d horizon) names (Some (0%Q, 0%Q, 0))
  = Some (0%Q, 0%Q, 0).
Proof.
  intros HY HS. induction names as [| name names IH]; [done |].
  cbn [fold_left norms_of_constraint].
  assert (Hy : Y_ d !! name = (fun _ => fresh_trajectory horizon) <$> constraint_set !! name)
    by (rewrite HY; apply lookup_fmap).
  assert (Hs : S_ d !! name = (fun _ => fresh_trajectory horizon) <$> constraint_set !! name)
    by (rewrite HS; apply lookup_fmap).
  rewrite Hy, Hs.
  destruct (constraint_set !! name) as [c |]; cbn [fmap option_fmap option_map].
  - rewrite norms_loop_fresh by lia. exact IH.
  - exact IH.
Qed.

Lemma dual_scaling_zero (m_plus_n : Z) : (dual_scaling 0 0 m_plus_n == 1)%Q.
Proof.
  unfold dual_scaling.
  set (x := if 0 <? m_plus_n then ((0 + 0) / inject_Z m_plus_n)%Q else 0%Q).
  assert (Hx : (x == 0)%Q).
  { subst x. destruct (0 <? m_plus_n); [| reflexivity].
    unfold Qdiv. by rewrite Qplus_0_l, Qmult_0_l. }
  destruct (std_max_spec 100 x) as [[Hlt ->] | [_ ->]]; [| reflexivity].
  rewrite Hx in Hlt. by vm_compute in Hlt.
Qed.

(** X20: [initializeConstraintStorage] throws [length_error] for a negative
    horizon and a constraint set that is not empty. Otherwise it returns,
    keeps the barrier parameter, and leaves in each of the stores G, Y and S,
    for the names of the constraint set and no other, a trajectory of
    [horizon] empty vectors, whatever the stores held before. The stores
    then cover the horizon, and [computeScaledDualInfeasibility] on them
    returns the unscaled [inf_du_] (divided by a scaling factor equal
    to 1). *)
Theorem constraint_storage_covers_horizon (constraint_set : gmap string Constraint)
    (d : IPDDPSolverData) (s : CDDP) :
  (horizon_ s < 0 -> constraint_set <> ∅ ->
   initializeConstraintStorage constraint_set d s = Throws length_error s [])
  /\ (0 <= horizon_ s \/ constraint_set = ∅ ->
      exists d' : IPDDPSolverData,
        initializeConstraintStorage constraint_set d s = Returns d' s []
        /\ mu_ d' = mu_ d
        /\ G_ d' = fresh_store constraint_set (horizon_ s)
        /\ Y_ d' = fresh_store constraint_set (horizon_ s)
        /\ S_ d' = fresh_store constraint_set (horizon_ s)
        /\ stores_cover d' (horizon_ s)
        /\ (is_Some (system_ s) ->
            exists v : edouble,
              computeScaledDualInfeasibility constraint_set d' s = Returns v s []
              /\ (inf_du_ s = PInf -> v = PInf)
              /\ (forall q : Q, inf_du_ s = Fin q ->
                    exists q' : Q, v = Fin q' /\ (q' == q)%Q))).
Proof.
  split.
  - intros Hh Hne. unfold initializeConstraintStorage.
    destruct (keys_in_order_nonempty constraint_set Hne) as (name & names & ->).
    cbn [fold_left storage_step]. unfold storage_resize at 1, vector_resize.
    destruct (Z.ltb_spec (horizon_ s) 0) as [_ | Hge]; [| lia].
    by rewrite storage_step_None.
  - intros Hcase.
    assert (Hd : exists d' : IPDDPSolverData,
               initializeConstraintStorage constraint_set d s = Returns d' s []
               /\ mu_ d' = mu_ d
               /\ G_ d' = fresh_store constraint_set (horizon_ s)
               /\ Y_ d' = fresh_store constraint_set (horizon_ s)
               /\ S_ d' = fresh_store constraint_set (horizon_ s)).
    { unfold initializeConstraintStorage. destruct Hcase as [Hh | ->].
      - destruct (storage_fold_fresh (horizon_ s) (keys_in_order constraint_set) Hh
                    {| mu_ := mu_ d; G_ := ∅; Y_ := ∅; S_ := ∅ |})
          as (d1 & -> & Hmu & HG & HY & HS); [done | done | done |].
        exists d1. split; [done |]. split; [exact Hmu |].
        split; [| split]; by apply fresh_store_lookup.
      - rewrite keys_in_order_empty by done. cbn [fold_left].
        eexists. split; [reflexivity |]. unfold fresh_store. by rewrite fmap_empty. }
    destruct Hd as (d' & Hrun & Hmu & HG & HY & HS).
    exists d'. split; [exact Hrun |]. split; [exact Hmu |].
    split; [exact HG |]. split; [exact HY |]. split; [exact HS |].
    split.
    + unfold stores_cover. rewrite HY, HS. unfold fresh_store.
      split; intros name traj; rewrite lookup_fmap;
        destruct (constraint_set !! name) as [c |] eqn:E; cbn [fmap option_fmap option_map];
        intros [= <-]; unfold fresh_trajectory; rewrite repeat_length; lia.
    + intros [sys Hsys].
      unfold computeScaledDualInfeasibility, bind, getControlDim. rewrite Hsys.
      cbn [after_output app].
      destruct (bool_decide (constraint_set = ∅)).
      * exists (inf_du_ s). split; [reflexivity |]. split; [done |].
        intros q ->. by exists q.
      * rewrite (norms_fold_fresh constraint_set d' (horizon_ s) _ HY HS).
        eexists. split; [reflexivity |].
        pose proof (dual_scaling_zero (0 + sys_control_dim sys * horizon_ s)) as Hsd.
        split; [by intros -> |].
        intros q ->. eexists. split; [reflexivity |].
        rewrite Hsd. unfold Qdiv. change (/ 1)%Q with 1%Q. apply Qmult_1_r.
Qed.

(** ** Largest constraint value *)

Lemma fold_std_max_spec (rest : list Q) : forall a : Q,
  (fold_left std_max rest a = a \/ fold_left std_max rest a ∈ rest)
  /\ (a <= fold_left std_max rest a)%Q
  /\ (forall x, x ∈ rest -> (x <= fold_left std_max rest a)%Q).
Proof.
  induction rest as [| y rest IH]; intros a; cbn [fold_left].
  - split; [by left |]. split; [apply Qle_refl |]. intros x Hx. by apply elem_of_nil in Hx.
  - destruct (IH (std_max a y)) as (Hsel & Hle & Hall).
    assert (Ha : (a <= std_max a y)%Q /\ (y <= std_max a y)%Q
                 /\ (std_max a y = a \/ std_max a y = y)).
    { destruct (std_max_spec a y) as [[H ->] | [H ->]].
      - split; [by apply Qlt_le_weak |]. split; [apply Qle_refl | by right].
      - split; [apply Qle_refl |]. split; [done | by left]. }
    destruct Ha as (Ha & Hy & Hpick).
    split; [| split].
    + destruct Hsel as [-> | Hin]; [| right; by right].
      destruct Hpick as [-> | ->]; [by left | right; by left].
    + by eapply Qle_trans.
    + intros x [-> | Hx]%elem_of_cons; [by eapply Qle_trans | by apply Hall].
Qed.

Lemma maxCoeff_spec (v : list Q) (c : Q) :
  maxCoeff v = Some c -> c ∈ v /\ forall x, x ∈ v -> (x <= c)%Q.
Proof.
  destruct v as [| first rest]; [discriminate |]. cbn [maxCoeff]. intros [= <-].
  destruct (fold_std_max_spec rest first) as (Hsel & Hle & Hall).
  split.
  - destruct Hsel as [-> | Hin]; [by left | by right].
  - intros x [-> | Hx]%elem_of_cons; [done | by apply Hall].
Qed.

Lemma violation_loop_spec (g_traj : list (list Q)) (n : nat) :
  forall (t : nat) (a v : Q),
    violation_loop n t g_traj a = Some v ->
    (a <= v)%Q
    /\ (forall (i : nat) (g_vec : list Q) (x : Q),
          (t <= i < t + n)%nat -> g_traj !! i = Some g_vec -> x ∈ g_vec -> (x <= v)%Q)
    /\ (v = a \/ exists (i : nat) (g_vec : list Q),
                   (t <= i < t + n)%nat /\ g_traj !! i = Some g_vec /\ v ∈ g_vec).
Proof.
  induction n as [| n IH]; intros t a v; cbn [violation_loop].
  - intros [= <-]. split; [apply Qle_refl |]. split; [intros; lia | by left].
  - destruct (g_traj !! t) as [g_vec |] eqn:Et; [| discriminate].
    destruct (maxCoeff g_vec) as [c |] eqn:Ec; [| discriminate].
    intros Hrun. apply IH in Hrun as (Hle & Hall & Hsel).
    apply maxCoeff_spec in Ec as [Hc Hmax].
    assert (Ha : (a <= std_max a c)%Q /\ (c <= std_max a c)%Q
                 /\ (std_max a c = a \/ std_max a c = c)).
    { destruct (std_max_spec a c) as [[H ->] | [H ->]].
      - split; [by apply Qlt_le_weak |]. split; [apply Qle_refl | by right].
      - split; [apply Qle_refl |]. split; [done | by left]. }
    destruct Ha as (Ha & Hcle & Hpick).
    split; [by eapply Qle_trans |]. split.
    + intros i g_vec' x Hi Hlook Hx.
      destruct (decide (i = t)) as [-> | Hne].
      * rewrite Et in Hlook. injection Hlook as <-.
        eapply Qle_trans; [by apply Hmax |]. by eapply Qle_trans.
      * apply (Hall i g_vec' x); [lia | done | done].
    + destruct Hsel as [-> | (i & g_vec' & Hi & Hlook & Hin)].
      * destruct Hpick as [-> | ->]; [by left |].
        right. exists t, g_vec. split; [lia | by split].
      * right. exists i, g_vec'. split; [lia | by split].
Qed.

Lemma violation_fold_None (d : IPDDPSolverData) (horizon : Z) (names : list string) :
  fold_left (violation_of_constraint d horizon) names None = None.
Proof. by induction names. Qed.

Lemma violation_fold_spec (d : IPDDPSolverData) (horizon : Z) (names : list string) :
  forall a v : Q,
    fold_left (violation_of_constraint d horizon) names (Some a) = Some v ->
    (a <= v)%Q
    /\ (forall (name : string) (g_traj : list (list Q)) (t : nat) (g_vec : list Q) (x : Q),
          name ∈ names -> G_ d !! name = Some g_traj -> Z.of_nat t < horizon ->
          g_traj !! t = Some g_vec -> x ∈ g_vec -> (x <= v)%Q)
    /\ (v = a \/ exists (name : string) (g_traj : list (list Q)) (t : nat) (g_vec : list Q),
                   name ∈ names /\ G_ d !! name = Some g_traj /\ Z.of_nat t < horizon
                   /\ g_traj !! t = Some g_vec /\ v ∈ g_vec).
Proof.
  induction names as [| name names IH]; intros a v; cbn [fold_left].
  - intros [= <-]. split; [apply Qle_refl |]. split; [| by left].
    intros name g_traj t g_vec x Hin. by apply elem_of_nil in Hin.
  - cbn [violation_of_constraint].
    destruct (G_ d !! name) as [g_traj |] eqn:Eg.
    + destruct (violation_loop (Z.to_nat horizon) 0 g_traj a) as [b |] eqn:Eb.
      2:{ intros Hrun. by rewrite violation_fold_None in Hrun. }
      intros Hrun. apply IH in Hrun as (Hle & Hall & Hsel).
      apply violation_loop_spec in Eb as (Hab & Hball & Hbsel).
      split; [by eapply Qle_trans |]. split.
      * intros name' g_traj' t g_vec x [-> | Hin]%elem_of_cons Hlook Ht Hvec Hx.
        -- rewrite Eg in Hlook. injection Hlook as <-.
           eapply Qle_trans; [| exact Hle]. apply (Hball t g_vec x); [lia | done | done].
        -- by apply (Hall name' g_traj' t g_vec x).
      * destruct Hsel as [-> | (name' & g_traj' & t & g_vec & Hin & Hlook & Ht & Hvec & Hx)].
        -- destruct Hbsel as [-> | (t & g_vec & Ht & Hvec & Hx)]; [by left |].
           right. exists name, g_traj, t, g_vec.
           split; [by left |]. split; [done |]. split; [lia | by split].
        -- right. exists name', g_traj', t, g_vec. split; [by right | done].
    + intros Hrun. apply IH in Hrun as (Hle & Hall & Hsel).
      split; [done |]. split.
      * intros name' g_traj' t g_vec x [-> | Hin]%elem_of_cons Hlook Ht Hvec Hx.
        -- by rewrite Eg in Hlook.
        -- by apply (Hall name' g_traj' t g_vec x).
      * destruct Hsel as [-> | (name' & g_traj' & t & g_vec & Hin & Hrest)]; [by left |].
        right. exists name', g_traj', t, g_vec. split; [by right | done].
Qed.

Lemma violation_loop_defined (g_traj : list (list Q)) (n : nat) :
  forall (t : nat) (a : Q),
    is_Some (violation_loop n t g_traj a) ->
    forall i : nat, (t <= i < t + n)%nat -> g_traj !! i <> Some [].
Proof.
  induction n as [| n IH]; intros t a; cbn [violation_loop]; [intros; lia |].
  destruct (g_traj !! t) as [g_vec |] eqn:Et; [| by intros [? ?]].
  destruct (maxCoeff g_vec) as [c |] eqn:Ec; [| by intros [? ?]].
  intros Hrun i Hi. destruct (decide (i = t)) as [-> | Hne].
  - rewrite Et. intros [= ->]. discriminate.
  - apply (IH _ _ Hrun). lia.
Qed.

Lemma violation_fold_defined (d : IPDDPSolverData) (horizon : Z) (names : list string) :
  forall a : Q,
    is_Some (fold_left (violation_of_constraint d horizon) names (Some a)) ->
    forall (name : string) (g_traj : list (list Q)) (t : nat),
      name ∈ names -> G_ d !! name = Some g_traj -> Z.of_nat t < horizon ->
      g_traj !! t <> Some [].
Proof.
  induction names as [| name names IH]; intros a Hrun name' g_traj' t Hin;
    [by apply elem_of_nil in Hin |].
  cbn [fold_left violation_of_constraint] in Hrun.
  destruct (G_ d !! name) as [g_traj |] eqn:Eg.
  - destruct (violation_loop (Z.to_nat horizon) 0 g_traj a) as [b |] eqn:Eb.
    2:{ rewrite violation_fold_None in Hrun. by destruct Hrun. }
    apply elem_of_cons in Hin as [-> | Hin].
    + rewrite Eg. intros [= <-] Ht.
      apply (violation_loop_defined g_traj (Z.to_nat horizon) 0 a); [by rewrite Eb | lia].
    + by apply (IH b).
  - apply elem_of_cons in Hin as [-> | Hin]; [by rewrite Eg | by apply (IH a)].
Qed.

Lemma violation_fold_idle (d : IPDDPSolverData) (horizon : Z) (names : list string) (a : Q) :
  horizon <= 0 ->
  fold_left (violation_of_constraint d horizon) names (Some a) = Some a.
Proof.
  intros Hh. induction names as [| name names IH]; [done |].
  cbn [fold_left violation_of_constraint].
  destruct (G_ d !! name) as [g_traj |]; [| exact IH].
  replace (Z.to_nat horizon) with 0%nat by lia. exact IH.
Qed.

(** X21: [computeMaxConstraintViolation] returns 0 without constraints or
    with a horizon of at most 0. Whenever it returns it prints nothing and
    leaves the context as it was; the result is at least 0 and at least every
    coefficient stored for a constraint of the set at a step inside the
    horizon, and it is the initial 0 or one of these coefficients. An empty
    stored value at a step inside the horizon makes the call undefined. *)
Theorem max_constraint_violation_bounds (constraint_set : gmap string Constraint)
    (d : IPDDPSolverData) (s : CDDP) :
  (constraint_set = ∅ \/ horizon_ s <= 0 ->
   computeMaxConstraintViolation constraint_set d s = Returns 0%Q s [])
  /\ (forall (v : Q) (s' : CDDP) (out : console),
        computeMaxConstraintViolation constraint_set d s = Returns v s' out ->
        s' = s /\ out = []
        /\ (0 <= v)%Q
        /\ (forall x : Q, stored_value constraint_set d (horizon_ s) x -> (x <= v)%Q)
        /\ (v = 0%Q \/ stored_value constraint_set d (horizon_ s) v))
  /\ (forall (name : string) (g_traj : list (list Q)) (t : nat),
        is_Some (constraint_set !! name) -> G_ d !! name = Some g_traj ->
        Z.of_nat t < horizon_ s -> g_traj !! t = Some [] ->
        computeMaxConstraintViolation constraint_set d s = Undefined).
Proof.
  unfold computeMaxConstraintViolation. split; [| split].
  - intros [-> | Hh].
    + by rewrite keys_in_order_empty.
    + by rewrite violation_fold_idle.
  - intros v s' out.
    destruct (fold_left _ _ _) as [b |] eqn:Efold; [| discriminate].
    intros [= <- <- <-].
    apply violation_fold_spec in Efold as (Hle & Hall & Hsel).
    split; [done |]. split; [done |]. split; [done |]. split.
    + intros x (name & g_traj & t & g_vec & Hin & Hlook & Ht & Hvec & Hx).
      apply (Hall name g_traj t g_vec x); [by apply keys_in_order_elem | done ..].
    + destruct Hsel as [-> | (name & g_traj & t & g_vec & Hin & Hrest)]; [by left |].
      right. exists name, g_traj, t, g_vec. split; [by apply keys_in_order_elem | done].
  - intros name g_traj t Hin Hlook Ht Hvec.
    destruct (fold_left _ _ _) as [b |] eqn:Efold; [| done].
    exfalso.
    apply (violation_fold_defined d (horizon_ s) (keys_in_order constraint_set) 0%Q
             ltac:(by rewrite Efold) name g_traj t); [by apply keys_in_order_elem | done ..].
Qed.
